(** * h5pickle: the memoized, picklable HDF5 file factory

    A shallow embedding of [h5pickle/__init__.py]: the LRU cache that closes
    files on eviction ([LRUFileCache]), the key derivation ([arghash]), the
    memoized constructor [File.__new__], [File.close], the pickling hooks of
    [File], [Group] and [Dataset], and the re-resolving [Dataset] proxy.

    Python objects live in an explicit heap and are named by references, so
    that "the identical handle object" is equality of references.  The
    module-level [cache] is part of the program state.  The HDF5 library
    (h5py) and the interpreter's salted string hash are collaborators of the
    module and are kept abstract in the class [Runtime]. *)

From Stdlib Require Import ZArith Lia Bool.
From Stdlib Require Import Strings.String Strings.Ascii.
From Stdlib Require Import Numbers.DecimalString.
From stdpp Require Import base option list strings sorting.

Local Open Scope Z_scope.
Local Open Scope string_scope.
Local Open Scope list_scope.

(** ** Python values that can be passed to the constructor *)

(** The arguments of [File(...)]: JSON-like data, plus [PObj] for any object
    the [json] module has no encoding for (a [bytes] name, an [h5py] id, a
    file-like object, ...).  Dictionaries are association lists in insertion
    order with string keys; tuples and lists are both [PList], as [json]
    encodes them alike. *)
#[warnings="-register-all"]
Inductive pyval : Type :=
| PNone
| PBool (b : bool)
| PInt (z : Z)
| PStr (s : string)
| PList (l : list pyval)
| PDict (d : list (string * pyval))
| PObj (id : nat).

Abbreviation pydict := (list (string * pyval)).

(** Python truth value, as used by [if skip_cache or ...]. *)
Definition truthy (v : pyval) : bool :=
  match v with
  | PNone => false
  | PBool b => b
  | PInt z => negb (Z.eqb z 0)
  | PStr s => negb (String.eqb s "")
  | PList l => match l with [] => false | _ => true end
  | PDict d => match d with [] => false | _ => true end
  | PObj _ => true
  end.

(** *** Dictionaries *)

Fixpoint dict_get (k : string) (d : pydict) : option pyval :=
  match d with
  | [] => None
  | (k', v) :: d' => if String.eqb k k' then Some v else dict_get k d'
  end.

Fixpoint dict_del (k : string) (d : pydict) : pydict :=
  match d with
  | [] => []
  | (k', v) :: d' => if String.eqb k k' then d' else (k', v) :: dict_del k d'
  end.

(** [d.pop(k, default)]: the value and the dictionary without the key. *)
Definition dict_pop (k : string) (default : pyval) (d : pydict) : pyval * pydict :=
  match dict_get k d with
  | Some v => (v, dict_del k d)
  | None => (default, d)
  end.

(** [d[k] = v]: an existing key keeps its position, a new one goes last. *)
Fixpoint dict_set (k : string) (v : pyval) (d : pydict) : pydict :=
  match d with
  | [] => [(k, v)]
  | (k', v') :: d' =>
      if String.eqb k k' then (k, v) :: d' else (k', v') :: dict_set k v d'
  end.

(** ** [json.dumps] *)

Definition hex_digit (n : N) : ascii :=
  match n with
  | 0 => "0" | 1 => "1" | 2 => "2" | 3 => "3" | 4 => "4" | 5 => "5"
  | 6 => "6" | 7 => "7" | 8 => "8" | 9 => "9" | 10 => "a" | 11 => "b"
  | 12 => "c" | 13 => "d" | 14 => "e" | _ => "f"
  end%N%char.

(** The double quote, code point 34. *)
Definition dquote : ascii := ascii_of_N 34.

(** One character of a string, as [json] writes it with [ensure_ascii]:
    the quote and the backslash are escaped, the usual control characters
    have short escapes, printable ASCII stands for itself and every other
    code point (here below 256) becomes [\u00xx]. *)
Definition json_escape_char (c : ascii) : string :=
  let n := N_of_ascii c in
  if (n =? 34)%N then String "\" (String dquote "")
  else if (n =? 92)%N then "\\"
  else if (n =? 10)%N then "\n"
  else if (n =? 13)%N then "\r"
  else if (n =? 9)%N then "\t"
  else if (n =? 8)%N then "\b"
  else if (n =? 12)%N then "\f"
  else if ((32 <=? n) && (n <=? 126))%N then String c ""
  else "\u00" +:+ String (hex_digit (n / 16)) (String (hex_digit (n mod 16)) "").

Fixpoint json_escape (s : string) : string :=
  match s with
  | EmptyString => ""
  | String c s' => json_escape_char c +:+ json_escape s'
  end.

Definition json_quote (s : string) : string :=
  String dquote (json_escape s) +:+ String dquote "".

Definition int_repr (z : Z) : string := NilZero.string_of_int (Z.to_int z).

Fixpoint join (sep : string) (l : list string) : string :=
  match l with
  | [] => ""
  | [x] => x
  | x :: l' => x +:+ sep +:+ join sep l'
  end.

(** [sorted(items)] on rendered [(key, text)] pairs: insertion sort by key,
    in code point order. *)
Fixpoint insert_by_key (x : string * string) (l : list (string * string)) :=
  match l with
  | [] => [x]
  | y :: l' => if String.leb (fst x) (fst y) then x :: l else y :: insert_by_key x l'
  end.

Definition sort_by_key (l : list (string * string)) : list (string * string) :=
  foldr insert_by_key [] l.

Definition render_item (kv : string * string) : string :=
  json_quote (fst kv) +:+ ": " +:+ snd kv.

(** [json.dumps(v, sort_keys=sk)] with the default separators; [None] is the
    [TypeError] raised for an object that is not JSON serializable. *)
Fixpoint json_dumps (sk : bool) (v : pyval) : option string :=
  match v with
  | PNone => Some "null"
  | PBool true => Some "true"
  | PBool false => Some "false"
  | PInt z => Some (int_repr z)
  | PStr s => Some (json_quote s)
  | PList l =>
      let fix elems (l : list pyval) : option (list string) :=
        match l with
        | [] => Some []
        | x :: l' =>
            match json_dumps sk x, elems l' with
            | Some a, Some b => Some (a :: b)
            | _, _ => None
            end
        end in
      match elems l with
      | Some ts => Some ("[" +:+ join ", " ts +:+ "]")
      | None => None
      end
  | PDict d =>
      let fix items (d : pydict) : option (list (string * string)) :=
        match d with
        | [] => Some []
        | (k, x) :: d' =>
            match json_dumps sk x, items d' with
            | Some a, Some b => Some ((k, a) :: b)
            | _, _ => None
            end
        end in
      match items d with
      | Some kts =>
          let kts' := if sk then sort_by_key kts else kts in
          Some ("{" +:+ join ", " (map render_item kts') +:+ "}")
      | None => None
      end
  | PObj _ => None
  end.

(** Whether [json] can encode a value: no [PObj] anywhere inside. *)
Fixpoint serializable (v : pyval) : bool :=
  match v with
  | PList l => forallb serializable l
  | PDict d => forallb (fun kv => serializable (snd kv)) d
  | PObj _ => false
  | _ => true
  end.

Example json_dumps_args :
  json_dumps false (PList [PStr "a.h5"; PInt (-12); PNone])
  = Some ("[" +:+ json_quote "a.h5" +:+ ", -12, null]").
Proof. reflexivity. Qed.

Example json_dumps_kwargs :
  json_dumps true (PDict [("mode", PStr "r"); ("driver", PNone)])
  = Some ("{" +:+ json_quote "driver" +:+ ": null, "
              +:+ json_quote "mode" +:+ ": " +:+ json_quote "r" +:+ "}").
Proof. reflexivity. Qed.

(** [arghash]'s text: [json.dumps(args) + json.dumps(kwargs, sort_keys=True)].
    The positional arguments are a tuple, the keyword arguments a dict. *)
Definition arghash_text (args : list pyval) (kwargs : pydict) : option string :=
  match json_dumps false (PList args), json_dumps true (PDict kwargs) with
  | Some a, Some k => Some (a +:+ k)
  | _, _ => None
  end.

(** ** Exceptions, native objects and the runtime *)

Inductive exn : Type :=
| AttributeError | TypeError | KeyError | ValueError | OSError | RuntimeError.

Definition exn_eqb (a b : exn) : bool :=
  match a, b with
  | AttributeError, AttributeError | TypeError, TypeError
  | KeyError, KeyError | ValueError, ValueError
  | OSError, OSError | RuntimeError, RuntimeError => true
  | _, _ => false
  end.

(** What [h5py.Group.__getitem__] hands back: a dataset, a group, a file, a
    named datatype (each with its native identifier) or some other value. *)
Inductive node : Type :=
| NDataset (d : nat)
| NGroup (g : nat)
| NFile (f : nat)
| NDatatype (t : nat)
| NOther (v : pyval).

(** The collaborators of the module.  [hash] is the interpreter's hash of a
    string (salted per process, hence abstract).  The remaining fields are
    h5py: [world] is whatever the HDF5 library and the file system hold, and
    every native call is a function of it. *)
Class Runtime : Type := {
  hash : string -> Z;
  world : Type;
  (** [h5py.File.__init__(self, *args, **kwargs)]: the native open *)
  h5_open : list pyval -> pydict -> world -> world * (exn + nat);
  (** [h5py.File.close(self)] *)
  h5_close : nat -> world -> world * option exn;
  (** [h5py.Group.__getitem__(self, name)] *)
  h5_lookup : nat -> string -> world -> world * (exn + node);
  (** [dataset.file.id.name.decode('utf-8')], [dataset.file.mode],
      [dataset.name], [group.name] *)
  h5_dataset_file_name : nat -> world -> string;
  h5_dataset_file_mode : nat -> world -> pyval;
  h5_dataset_name : nat -> world -> string;
  h5_group_name : nat -> world -> string;
  (** [getattr(dataset, name)] and [dataset[item]] on an h5py dataset *)
  h5_dataset_getattr : nat -> string -> world -> world * (exn + pyval);
  h5_dataset_getitem : nat -> pyval -> world -> world * (exn + pyval);
  (** [h5py.HLObject.__getnewargs__(self)], which [Group] inherits: h5py
      2.10 and later raise [TypeError] from it (h5py objects cannot be
      pickled); before, the method was [object]'s and returned [()]. *)
  h5_getnewargs : exn + list pyval
}.

(** ** Objects and the program state *)

Abbreviation ref := nat.

(** An instance of [File]: the attributes [__new__] stores, and the native
    file identifier h5py keeps.  [hsh] is [None] until [self.hsh = hsh]. *)
Record FileObj : Type := mkFile {
  init_args : list pyval;
  init_kwargs : pydict;
  skip_cache : pyval;
  hsh : option Z;
  fid : nat
}.

(** What calling [close()] on an object that is not a [File] does. *)
Inductive close_spec : Type :=
| NoClose
| CloseReturns
| CloseRaises (e : exn).

(** Heap objects.  [File.__new__] only ever stores [File]s in the cache; the
    cache class itself takes any value, so a plain [int] and an arbitrary
    object described by its [close] are modelled too. *)
Inductive pyobj : Type :=
| OFile (f : FileObj)
| OInt (z : Z)
| OOther (c : close_spec).

(** [cachetools.LRUCache] with the default [getsizeof] (every value has size
    one): [data] is the underlying dict in insertion order, [order] the keys
    from least to most recently used. *)
Record LRUCache : Type := mkCache {
  maxsize : nat;
  data : list (Z * ref);
  order : list Z
}.

Fixpoint assoc_get (k : Z) (l : list (Z * ref)) : option ref :=
  match l with
  | [] => None
  | (k', v) :: l' => if Z.eqb k k' then Some v else assoc_get k l'
  end.

Fixpoint assoc_set (k : Z) (v : ref) (l : list (Z * ref)) : list (Z * ref) :=
  match l with
  | [] => [(k, v)]
  | (k', v') :: l' =>
      if Z.eqb k k' then (k, v) :: l' else (k', v') :: assoc_set k v l'
  end.

Definition assoc_del (k : Z) (l : list (Z * ref)) : list (Z * ref) :=
  List.filter (fun kv => negb (Z.eqb (fst kv) k)) l.

Definition key_in (k : Z) (o : list Z) : bool := existsb (Z.eqb k) o.

Definition order_del (k : Z) (o : list Z) : list Z :=
  List.filter (fun k' => negb (Z.eqb k' k)) o.

(** [LRUCache.__update]: move the key to the most recently used end. *)
Definition order_update (k : Z) (o : list Z) : list Z := order_del k o ++ [k].

(** [key in cache] *)
Definition cache_contains (k : Z) (c : LRUCache) : bool :=
  match assoc_get k (data c) with Some _ => true | None => false end.

(** [cache = LRUFileCache(1000)] *)
Definition cache_init : LRUCache := mkCache 1000 [] [].

Section Program.
Context {RT : Runtime}.

(** The state of the module and of the world around it.  [opens] counts the
    calls of the native open made so far; the program never reads it. *)
Record state : Type := mkState {
  cache : LRUCache;
  heap : list pyobj;
  env : world;
  opens : nat
}.

Definition set_cache (c : LRUCache) (st : state) : state :=
  mkState c (heap st) (env st) (opens st).
Definition set_heap (h : list pyobj) (st : state) : state :=
  mkState (cache st) h (env st) (opens st).
Definition set_env (w : world) (st : state) : state :=
  mkState (cache st) (heap st) w (opens st).

(** *** The state and exception monad *)

Inductive result (A : Type) : Type :=
| Ok (a : A) (st : state)
| Raise (e : exn) (st : state).
Arguments Ok {A} a st.
Arguments Raise {A} e st.

Definition M (A : Type) : Type := state -> result A.

Definition ret {A} (a : A) : M A := fun st => Ok a st.
Definition raise {A} (e : exn) : M A := fun st => Raise e st.
Definition bind {A B} (m : M A) (k : A -> M B) : M B :=
  fun st => match m st with
            | Ok a st' => k a st'
            | Raise e st' => Raise e st'
            end.

(** [try: m  except e: pass] *)
Definition try_except (e : exn) (m : M unit) : M unit :=
  fun st => match m st with
            | Ok a st' => Ok a st'
            | Raise e' st' => if exn_eqb e' e then Ok tt st' else Raise e' st'
            end.

(** A native call: run it on the world and raise what it raises. *)
Definition native {A} (f : world -> world * (exn + A)) : M A :=
  fun st => match f (env st) with
            | (w, inr a) => Ok a (set_env w st)
            | (w, inl e) => Raise e (set_env w st)
            end.

End Program.

Arguments Ok {RT A} a st.
Arguments Raise {RT A} e st.

Notation "x <- m ;; k" := (bind m (fun x => k))
  (at level 100, m at next level, right associativity).
Notation "m ;;; k" := (bind m (fun _ => k))
  (at level 100, right associativity).

Section Module.
Context {RT : Runtime}.

(** ** [arghash] *)

(** [hash(json.dumps(args) + json.dumps(kwargs, sort_keys=True))]; [None]
    when [json.dumps] raises [TypeError]. *)
Definition arghash (args : list pyval) (kwargs : pydict) : option Z :=
  match arghash_text args kwargs with
  | Some s => Some (hash s)
  | None => None
  end.

(** ** The cache *)

(** [LRUCache.__getitem__]: the value, and the key becomes the most recently
    used one. *)
Definition LRUCache_getitem (key : Z) : M ref := fun st =>
  let c := cache st in
  match assoc_get key (data c) with
  | Some v => Ok v (set_cache (mkCache (maxsize c) (data c) (order_update key (order c))) st)
  | None => Raise KeyError st
  end.

(** [LRUCache.__delitem__]: [Cache.__delitem__] first, then
    [del self.__order[key]]. *)
Definition LRUCache_delitem (key : Z) : M unit := fun st =>
  let c := cache st in
  if cache_contains key c then
    let st' := set_cache (mkCache (maxsize c) (assoc_del key (data c)) (order c)) st in
    if key_in key (order c) then
      Ok tt (set_cache (mkCache (maxsize c) (assoc_del key (data c)) (order_del key (order c))) st)
    else Raise KeyError st'
  else Raise KeyError st.

(** [Cache.pop(key)] without a default. *)
Definition Cache_pop (key : Z) : M ref := fun st =>
  if cache_contains key (cache st) then
    (value <- LRUCache_getitem key ;;
     LRUCache_delitem key ;;;
     ret value) st
  else Raise KeyError st.

(** [LRUCache.popitem]: remove and return the least recently used pair. *)
Definition LRUCache_popitem : M (Z * ref) := fun st =>
  match order (cache st) with
  | [] => Raise KeyError st
  | key :: _ => (value <- Cache_pop key ;; ret (key, value)) st
  end.

(** ** [File.close] *)

(** [v == h] for a cached value [v] and the integer [h]: an [h5py] object
    answers [NotImplemented] to a comparison with an [int], and so does the
    [int]; Python then compares identities, which differ.  Only an [int]
    can be equal to [h]. *)
Definition value_eq_int (v : ref) (h : Z) (st : state) : bool :=
  match heap st !! v with
  | Some (OInt z) => Z.eqb z h
  | _ => false
  end.

(** [self.hsh] *)
Definition get_hsh (r : ref) : M Z := fun st =>
  match heap st !! r with
  | Some (OFile f) =>
      match hsh f with
      | Some h => Ok h st
      | None => Raise AttributeError st
      end
  | _ => Raise AttributeError st
  end.

(** The loop of [File.close], over the snapshot [list(cache.keys())]:
    [if cache[key] == self.hsh: del cache[key]]. *)
Fixpoint close_loop (r : ref) (keys : list Z) : M unit :=
  match keys with
  | [] => ret tt
  | key :: keys' =>
      v <- LRUCache_getitem key ;;
      h <- get_hsh r ;;
      (fun st => if value_eq_int v h st then LRUCache_delitem key st else Ok tt st) ;;;
      close_loop r keys'
  end.

(** [h5py.File.close(self)] on the native identifier of the object. *)
Definition native_close (n : nat) : M unit :=
  native (fun w => match h5_close n w with
                   | (w', None) => (w', inr tt)
                   | (w', Some e) => (w', inl e)
                   end).

Definition File_close (r : ref) : M unit := fun st =>
  match heap st !! r with
  | Some (OFile f) =>
      (native_close (fid f) ;;;
       (fun st' => close_loop r (map fst (data (cache st'))) st')) st
  | _ => Raise AttributeError st
  end.

(** [val.close()] for whatever object the reference names. *)
Definition obj_close (r : ref) : M unit := fun st =>
  match heap st !! r with
  | Some (OFile _) => File_close r st
  | Some (OInt _) => Raise AttributeError st
  | Some (OOther NoClose) => Raise AttributeError st
  | Some (OOther CloseReturns) => Ok tt st
  | Some (OOther (CloseRaises e)) => Raise e st
  | None => Raise AttributeError st
  end.

(** ** [LRUFileCache] *)

(** [LRUFileCache.popitem] *)
Definition LRUFileCache_popitem : M (Z * ref) :=
  kv <- LRUCache_popitem ;;
  try_except AttributeError (obj_close (snd kv)) ;;;
  ret kv.

(** [while self.currsize + size > maxsize: self.popitem()] of
    [Cache.__setitem__], with [size = 1].  Every turn removes an entry, so
    [fuel] need not exceed the number of entries. *)
Fixpoint evict_loop (fuel : nat) : M unit := fun st =>
  if (maxsize (cache st) <? length (data (cache st)) + 1)%nat then
    match fuel with
    | O => Raise KeyError st
    | S fuel' => (LRUFileCache_popitem ;;; evict_loop fuel') st
    end
  else Ok tt st.

(** [cache[key] = value]: [Cache.__setitem__] then [LRUCache.__update]. *)
Definition cache_setitem (key : Z) (value : ref) : M unit := fun st =>
  if (maxsize (cache st) <? 1)%nat then Raise ValueError st
  else
    ((if cache_contains key (cache st) then ret tt
      else evict_loop (length (data (cache st)))) ;;;
     (fun st' =>
        let c := cache st' in
        Ok tt (set_cache (mkCache (maxsize c) (assoc_set key value (data c))
                                  (order_update key (order c))) st'))) st.

(** ** [File] *)

(** [object.__new__(cls)] followed by the attribute assignments of
    [__new__]: the new object is referenced by nothing else until then. *)
Definition alloc (o : pyobj) : M ref := fun st =>
  Ok (length (heap st)) (set_heap (heap st ++ [o]) st).

(** [self.hsh = hsh] *)
Definition set_hsh (r : ref) (h : Z) : M unit := fun st =>
  match heap st !! r with
  | Some (OFile f) =>
      Ok tt (set_heap (<[r := OFile (mkFile (init_args f) (init_kwargs f)
                                            (skip_cache f) (Some h) (fid f))]> (heap st)) st)
  | Some (OInt _) => Raise AttributeError st
  | Some (OOther _) => Ok tt st
  | None => Raise AttributeError st
  end.

(** [h5py.File.__init__(self, *args, **kwargs)], counted in [opens]. *)
Definition native_open (args : list pyval) (kwargs : pydict) : M nat := fun st =>
  native (h5_open args kwargs)
         (mkState (cache st) (heap st) (env st) (S (opens st))).

(** [File.__new__(cls, *args, **kwargs)].  The lock is reentrant and the
    embedding is sequential, so [with lock] is not represented. *)
Definition File_new (args : list pyval) (kwargs : pydict) : M ref := fun st =>
  let (skip, kwargs') := dict_pop "skip_cache" (PBool false) kwargs in
  match arghash args kwargs' with
  | None => Raise TypeError st
  | Some h =>
      if truthy skip || negb (cache_contains h (cache st)) then
        (n <- native_open args kwargs' ;;
         self <- alloc (OFile (mkFile args kwargs' skip None n)) ;;
         (if negb (truthy skip) then cache_setitem h self else ret tt) ;;;
         set_hsh self h ;;;
         ret self) st
      else
        (self <- LRUCache_getitem h ;;
         set_hsh self h ;;;
         ret self) st
  end.

(** [File.__getnewargs_ex__] *)
Definition File_getnewargs_ex (f : FileObj) : list pyval * pydict :=
  (init_args f, dict_set "skip_cache" (skip_cache f) (init_kwargs f)).

(** ** Proxies: [Dataset], [Group] and [h5py_wrap_type] *)

(** An instance of [Dataset]: its [__dict__].  [dataset] is the h5py dataset
    captured by [__init__]; it is absent on an instance rebuilt by
    [__setstate__]. *)
Record Dataset : Type := mkDataset {
  file_name : string;
  file_mode : pyval;
  dataset_name : string;
  dataset : option nat
}.

(** An instance of [Group]: the native identifier and the [file_info]
    attribute, once [__getitem__] has set it. *)
Record Group : Type := mkGroup {
  group_id : nat;
  file_info : option ref
}.

(** The results of [h5py_wrap_type]: one of this module's proxies, or the
    h5py object as it came. *)
Inductive wrapped : Type :=
| WDataset (d : Dataset)
| WGroup (g : Group)
| WRaw (n : node).

(** [Dataset.__init__(self, dataset)] *)
Definition Dataset_init (d : nat) : M Dataset := fun st =>
  Ok (mkDataset (h5_dataset_file_name d (env st))
                (h5_dataset_file_mode d (env st))
                (h5_dataset_name d (env st))
                (Some d)) st.

(** [h5py_wrap_type(obj)].  The tests run in the order dataset, group,
    file; [h5py.File] is a subclass of [h5py.Group], so a file is taken by
    the test for groups and the branch [File(obj.id)] is never reached. *)
Definition h5py_wrap_type (obj : node) : M wrapped :=
  match obj with
  | NDataset d => ds <- Dataset_init d ;; ret (WDataset ds)
  | NGroup g => ret (WGroup (mkGroup g None))
  | NFile f => ret (WGroup (mkGroup f None))
  | NDatatype t => ret (WRaw obj)
  | NOther v => ret (WRaw obj)
  end.

(** [obj.file_info = info] when [obj] is one of this module's groups. *)
Definition copy_file_info (info : option ref) (obj : wrapped) : wrapped :=
  match obj with
  | WGroup g => WGroup (mkGroup (group_id g) info)
  | _ => obj
  end.

(** [File.__getitem__(self, name)] *)
Definition File_getitem (self : ref) (name : string) : M wrapped := fun st =>
  match heap st !! self with
  | Some (OFile f) =>
      (n <- native (h5_lookup (fid f) name) ;;
       obj <- h5py_wrap_type n ;;
       ret (copy_file_info (Some self) obj)) st
  | _ => Raise TypeError st
  end.

(** [Group.__getitem__(self, name)].  [self.file_info] is read only when the
    object found is a group; on a group that has no such attribute the read
    raises [AttributeError]. *)
Definition Group_getitem (self : Group) (name : string) : M wrapped :=
  n <- native (h5_lookup (group_id self) name) ;;
  obj <- h5py_wrap_type n ;;
  match obj with
  | WGroup g =>
      match file_info self with
      | Some r => ret (copy_file_info (Some r) obj)
      | None => raise AttributeError
      end
  | _ => ret obj
  end.

(** [File(self.file_name, mode=self.file_mode)[self.dataset_name]] *)
Definition Dataset_resolve (self : Dataset) : M wrapped :=
  f <- File_new [PStr (file_name self)] [("mode", file_mode self)] ;;
  File_getitem f (dataset_name self).

(** [self.dataset] on what [Dataset_resolve] returned: only a [Dataset] has
    the attribute. *)
Definition wrapped_dataset (obj : wrapped) : M nat := fun st =>
  match obj with
  | WDataset ds =>
      match dataset ds with
      | Some d => Ok d st
      | None => Raise AttributeError st
      end
  | _ => Raise AttributeError st
  end.

(** [Dataset.__getattr__(self, name)] *)
Definition Dataset_getattr (self : Dataset) (name : string) : M pyval :=
  self' <- Dataset_resolve self ;;
  d <- wrapped_dataset self' ;;
  native (h5_dataset_getattr d name).

(** [Dataset.__getitem__(self, item)] *)
Definition Dataset_getitem (self : Dataset) (item : pyval) : M pyval :=
  self' <- Dataset_resolve self ;;
  d <- wrapped_dataset self' ;;
  native (h5_dataset_getitem d item).

(** ** Pickling *)

(** The value of an instance attribute. *)
Inductive attr : Type :=
| AData (v : pyval)
| AKey (h : Z)
| ANative (n : nat)
| AFile (r : ref).

(** A pickle: plain data, a cache key, a live handle (a native identifier or
    a reference to a live object), or an object to be rebuilt by
    [cls.__new__(cls, *args, **kwargs)] and then given [state]. *)
#[warnings="-register-all"]
Inductive pickled : Type :=
| PkData (v : pyval)
| PkKey (h : Z)
| PkNative (n : nat)
| PkNew (cls : string) (args : list pyval) (kwargs : pydict)
        (state : list (string * pickled)).

(** [Dataset.__dict__] *)
Definition Dataset_dict (self : Dataset) : list (string * attr) :=
  [("file_name", AData (PStr (file_name self)));
   ("file_mode", AData (file_mode self));
   ("dataset_name", AData (PStr (dataset_name self)))]
  ++ match dataset self with
     | Some d => [("dataset", ANative d)]
     | None => []
     end.

Fixpoint attr_del (k : string) (d : list (string * attr)) : option (list (string * attr)) :=
  match d with
  | [] => None
  | (k', v) :: d' =>
      if String.eqb k k' then Some d'
      else match attr_del k d' with
           | Some d'' => Some ((k', v) :: d'')
           | None => None
           end
  end.

(** [Dataset.__getstate__]: a copy of [__dict__] without ['dataset'];
    [del] raises [KeyError] when the key is missing. *)
Definition Dataset_getstate (self : Dataset) : exn + list (string * attr) :=
  match attr_del "dataset" (Dataset_dict self) with
  | Some state => inr state
  | None => inl KeyError
  end.

(** [File.__dict__]: what [__new__] stored, and h5py's identifier. *)
Definition File_dict (f : FileObj) : list (string * attr) :=
  [("id", ANative (fid f));
   ("init_args", AData (PList (init_args f)));
   ("init_kwargs", AData (PDict (init_kwargs f)));
   ("skip_cache", AData (skip_cache f))]
  ++ match hsh f with
     | Some h => [("hsh", AKey h)]
     | None => []
     end.

(** [File.__getstate__]: [pass], that is [None], so no state is pickled. *)
Definition File_getstate (f : FileObj) : option (list (string * attr)) := None.

(** [Group.__getstate__]: [{'name': self.name, 'file': self.file_info}] *)
Definition Group_getstate (self : Group) : M (list (string * attr)) := fun st =>
  match file_info self with
  | Some r => Ok [("name", AData (PStr (h5_group_name (group_id self) (env st))));
                  ("file", AFile r)] st
  | None => Raise AttributeError st
  end.

(** An attribute value written as it stands, a live object by reference. *)
Definition plain_attr (a : attr) : pickled :=
  match a with
  | AData v => PkData v
  | AKey h => PkKey h
  | ANative n => PkNative n
  | AFile r => PkNative r
  end.

(** [object.__reduce_ex__] for a [File]: [__getnewargs_ex__] gives the
    arguments of [__new__], [__getstate__] the state ([None]: no state). *)
Definition pickle_File (f : FileObj) : pickled :=
  let (args, kwargs) := File_getnewargs_ex f in
  PkNew "File" args kwargs
        match File_getstate f with
        | None => []
        | Some d => map (fun kv => (fst kv, plain_attr (snd kv))) d
        end.

(** Pickling an attribute value; a [File] goes through its own reduction. *)
Definition pickle_attr (h : list pyobj) (a : attr) : option pickled :=
  match a with
  | AData v => Some (PkData v)
  | AKey k => Some (PkKey k)
  | ANative n => Some (PkNative n)
  | AFile r =>
      match h !! r with
      | Some (OFile f) => Some (pickle_File f)
      | _ => None
      end
  end.

Fixpoint pickle_state (h : list pyobj) (d : list (string * attr))
  : option (list (string * pickled)) :=
  match d with
  | [] => Some []
  | (k, a) :: d' =>
      match pickle_attr h a, pickle_state h d' with
      | Some p, Some ps => Some ((k, p) :: ps)
      | _, _ => None
      end
  end.

(** [pickle.dumps] of a [Dataset] and of a [Group]: the class, the
    arguments of [__new__] and the state [__getstate__] returns.  [Dataset]
    is a plain class: no arguments. *)
Definition pickle_Dataset (self : Dataset) : M pickled := fun st =>
  match Dataset_getstate self with
  | inr state =>
      match pickle_state (heap st) state with
      | Some ps => Ok (PkNew "Dataset" [] [] ps) st
      | None => Raise TypeError st
      end
  | inl e => Raise e st
  end.

(** [Group] defines neither [__getnewargs_ex__] nor [__getnewargs__], so
    [object.__reduce_ex__] calls the [__getnewargs__] it inherits from h5py,
    and it does so before it asks for the state. *)
Definition pickle_Group (self : Group) : M pickled :=
  match h5_getnewargs with
  | inl e => raise e
  | inr args =>
      state <- Group_getstate self ;;
      fun st => match pickle_state (heap st) state with
                | Some ps => Ok (PkNew "Group" args [] ps) st
                | None => Raise TypeError st
                end
  end.

(** [pickle.loads] of a pickled [File]: [File.__new__(File, *args, **kwargs)],
    and no [__setstate__] since there is no state. *)
Definition unpickle_File (p : pickled) : M ref :=
  match p with
  | PkNew _ args kwargs _ => File_new args kwargs
  | _ => raise TypeError
  end.

(** The state dictionary of a pickle, by key. *)
Fixpoint state_get (k : string) (d : list (string * pickled)) : option pickled :=
  match d with
  | [] => None
  | (k', p) :: d' => if String.eqb k k' then Some p else state_get k d'
  end.

(** [Dataset.__setstate__(self, state)] on the new instance pickle has made:
    [self.__dict__.update(state)], then the root is acquired and the path
    looked up, and what is found is dropped ([self = ...] rebinds the local
    name only).  [state] is the dictionary read as a record. *)
Definition Dataset_setstate (state : Dataset) : M Dataset :=
  Dataset_resolve state ;;;
  ret state.

(** Reading the state of a pickled [Dataset].  A native dataset does not
    come out of a pickle, so ['dataset'] is absent. *)
Definition Dataset_state (d : list (string * pickled)) : option Dataset :=
  match state_get "file_name" d, state_get "file_mode" d, state_get "dataset_name" d with
  | Some (PkData (PStr fn)), Some (PkData fm), Some (PkData (PStr dn)) =>
      Some (mkDataset fn fm dn None)
  | _, _, _ => None
  end.

(** [pickle.loads] of a pickled [Dataset]: a new instance, then
    [__setstate__].  Pickles of another shape are not [Dataset] pickles. *)
Definition unpickle_Dataset (p : pickled) : M Dataset :=
  match p with
  | PkNew _ _ _ state =>
      match Dataset_state state with
      | Some s => Dataset_setstate s
      | None => raise TypeError
      end
  | _ => raise TypeError
  end.

(** [Group.__setstate__(self, state)]:
    [self.__init__(state['file'][state['name']].id)], with [state['file']]
    the [File] pickle has rebuilt.  [h5py.Group.__init__] takes a group
    identifier and raises [ValueError] for any other; the identifier of a
    [Dataset] proxy is fetched through its [__getattr__].  Nothing sets
    [file_info] on the instance. *)
Definition Group_setstate (file : ref) (name : string) : M Group :=
  obj <- File_getitem file name ;;
  match obj with
  | WGroup g => ret (mkGroup (group_id g) None)
  | WDataset ds => Dataset_getattr ds "id" ;;; raise ValueError
  | WRaw (NOther _) => raise AttributeError
  | WRaw _ => raise ValueError
  end.

(** [pickle.loads] of a pickled [Group]: the state is rebuilt first, the
    [File] in it by [File.__new__], then [__setstate__] runs. *)
Definition unpickle_Group (p : pickled) : M Group :=
  match p with
  | PkNew _ _ _ state =>
      match state_get "name" state, state_get "file" state with
      | Some (PkData (PStr name)), Some (PkNew c a k s) =>
          file <- unpickle_File (PkNew c a k s) ;;
          Group_setstate file name
      | _, _ => raise TypeError
      end
  | _ => raise TypeError
  end.

(** Whether a pickle is free of native identifiers and cache keys. *)
Fixpoint descriptor_only (p : pickled) : bool :=
  match p with
  | PkData _ => true
  | PkKey _ => false
  | PkNative _ => false
  | PkNew _ _ _ state => forallb (fun kp => descriptor_only (snd kp)) state
  end.

End Module.

(** * Properties *)

(** ** Dictionaries and [json.dumps] *)

Lemma dict_get_app_none k (d1 d2 : pydict) :
  dict_get k (d1 ++ d2) = None -> dict_get k d1 = None /\ dict_get k d2 = None.
Proof.
  induction d1 as [|[k' v] d1 IH]; simpl; [auto|].
  destruct (String.eqb k k'); [discriminate|auto].
Qed.

Lemma dict_del_middle k v (d1 d2 : pydict) :
  dict_get k d1 = None -> dict_del k (d1 ++ (k, v) :: d2) = d1 ++ d2.
Proof.
  induction d1 as [|[k' v'] d1 IH]; simpl.
  - now rewrite String.eqb_refl.
  - destruct (String.eqb k k'); [discriminate|]. intros H. now rewrite IH.
Qed.

Lemma dict_get_middle k v (d1 d2 : pydict) :
  dict_get k d1 = None -> dict_get k (d1 ++ (k, v) :: d2) = Some v.
Proof.
  induction d1 as [|[k' v'] d1 IH]; simpl.
  - now rewrite String.eqb_refl.
  - destruct (String.eqb k k'); [discriminate|auto].
Qed.

(** Popping a key that is bound once, wherever it stands. *)
Lemma dict_pop_middle k dflt v (d1 d2 : pydict) :
  dict_get k (d1 ++ d2) = None ->
  dict_pop k dflt (d1 ++ (k, v) :: d2) = (v, d1 ++ d2).
Proof.
  intros H. apply dict_get_app_none in H as [H1 _]. unfold dict_pop.
  now rewrite dict_get_middle, dict_del_middle.
Qed.

Lemma dict_pop_absent k dflt (d : pydict) :
  dict_get k d = None -> dict_pop k dflt d = (dflt, d).
Proof. intros H. unfold dict_pop. now rewrite H. Qed.

Lemma dict_get_set_absent k v (d : pydict) :
  dict_get k d = None -> dict_set k v d = d ++ [(k, v)].
Proof.
  induction d as [|[k' v'] d IH]; simpl; [reflexivity|].
  destruct (String.eqb k k'); [discriminate|]. intros H. now rewrite IH.
Qed.

(** Induction on values that reaches inside lists and dictionaries. *)
Section pyval_induction.
Variable P : pyval -> Prop.
Hypothesis HNone : P PNone.
Hypothesis HBool : forall b, P (PBool b).
Hypothesis HInt : forall z, P (PInt z).
Hypothesis HStr : forall s, P (PStr s).
Hypothesis HList : forall l, Forall P l -> P (PList l).
Hypothesis HDict : forall d, Forall (fun kv => P (snd kv)) d -> P (PDict d).
Hypothesis HObj : forall n, P (PObj n).

Fixpoint pyval_nested_ind (v : pyval) : P v :=
  match v with
  | PNone => HNone
  | PBool b => HBool b
  | PInt z => HInt z
  | PStr s => HStr s
  | PList l =>
      HList l ((fix go (l : list pyval) : Forall P l :=
                  match l with
                  | [] => @List.Forall_nil _ P
                  | x :: l' => @List.Forall_cons _ P x l' (pyval_nested_ind x) (go l')
                  end) l)
  | PDict d =>
      HDict d ((fix go (d : pydict) : Forall (fun kv => P (snd kv)) d :=
                  match d with
                  | [] => @List.Forall_nil _ _
                  | kv :: d' =>
                      @List.Forall_cons _ _ kv d' (pyval_nested_ind (snd kv)) (go d')
                  end) d)
  | PObj n => HObj n
  end.
End pyval_induction.

(** [json.dumps] raises exactly on the values that hold an object it has no
    encoding for, with or without [sort_keys]. *)
Lemma json_dumps_None_iff sk v :
  json_dumps sk v = None <-> serializable v = false.
Proof.
  induction v as [| [|] | | | l IH | d IH | ] using pyval_nested_ind;
    simpl; try (split; congruence).
  - assert (E : forall l, Forall (fun v => json_dumps sk v = None <-> serializable v = false) l ->
             ((fix elems (l : list pyval) : option (list string) :=
                 match l with
                 | [] => Some []
                 | x :: l' =>
                     match json_dumps sk x, elems l' with
                     | Some a, Some b => Some (a :: b)
                     | _, _ => None
                     end
                 end) l = None <-> forallb serializable l = false)).
    { clear. induction 1 as [|x l Hx _ IHl]; simpl; [split; congruence|].
      destruct (json_dumps sk x) eqn:Ex.
      - destruct (serializable x); [|destruct Hx as [_ Hx]; discriminate Hx; reflexivity].
        simpl. rewrite <- IHl. destruct (_ l); split; congruence.
      - destruct Hx as [Hx _]. rewrite Hx by reflexivity. simpl. tauto. }
    specialize (E l IH). destruct (_ l); [|tauto].
    split; [discriminate|]. intros H. apply E in H. discriminate.
  - assert (E : forall d : pydict,
             Forall (fun kv => json_dumps sk (snd kv) = None <-> serializable (snd kv) = false) d ->
             ((fix items (d : pydict) : option (list (string * string)) :=
                 match d with
                 | [] => Some []
                 | (k, x) :: d' =>
                     match json_dumps sk x, items d' with
                     | Some a, Some b => Some ((k, a) :: b)
                     | _, _ => None
                     end
                 end) d = None <-> forallb (fun kv => serializable (snd kv)) d = false)).
    { clear. induction 1 as [|[k x] d Hx _ IHd]; simpl in *; [split; congruence|].
      destruct (json_dumps sk x) eqn:Ex.
      - destruct (serializable x); [|destruct Hx as [_ Hx]; discriminate Hx; reflexivity].
        simpl. rewrite <- IHd. destruct (_ d); split; congruence.
      - destruct Hx as [Hx _]. rewrite Hx by reflexivity. simpl. tauto. }
    specialize (E d IH). destruct (_ d); [|tauto].
    split; [discriminate|]. intros H. apply E in H. discriminate.
Qed.

Lemma arghash_text_None_iff args kwargs :
  arghash_text args kwargs = None <->
  serializable (PList args) && serializable (PDict kwargs) = false.
Proof.
  unfold arghash_text.
  pose proof (json_dumps_None_iff false (PList args)) as Ha.
  pose proof (json_dumps_None_iff true (PDict kwargs)) as Hk.
  destruct (json_dumps false (PList args)), (json_dumps true (PDict kwargs));
    destruct (serializable (PList args)), (serializable (PDict kwargs));
    simpl; split; intros; try congruence; try tauto;
    try (destruct Ha as [Ha1 Ha2]; (discriminate Ha1 + discriminate Ha2); reflexivity);
    try (destruct Hk as [Hk1 Hk2]; (discriminate Hk1 + discriminate Hk2); reflexivity).
Qed.

(** ** Association lists of the cache *)

Lemma assoc_get_set_eq k v l : assoc_get k (assoc_set k v l) = Some v.
Proof.
  induction l as [|[k' v'] l IH]; simpl.
  - now rewrite Z.eqb_refl.
  - destruct (Z.eqb k k') eqn:E; simpl; [now rewrite Z.eqb_refl | now rewrite E].
Qed.

Lemma assoc_get_set_ne k k' v l :
  k' <> k -> assoc_get k' (assoc_set k v l) = assoc_get k' l.
Proof.
  intros Hne. induction l as [|[k0 v0] l IH]; simpl.
  - destruct (Z.eqb_spec k' k); congruence.
  - destruct (Z.eqb_spec k k0) as [->|]; simpl.
    + destruct (Z.eqb_spec k' k0); congruence.
    + now rewrite IH.
Qed.

Lemma assoc_get_del_ne k k' l :
  k' <> k -> assoc_get k' (assoc_del k l) = assoc_get k' l.
Proof.
  intros Hne. induction l as [|[k0 v0] l IH]; simpl; [reflexivity|].
  destruct (Z.eqb_spec k0 k) as [->|]; simpl.
  - destruct (Z.eqb_spec k' k); congruence.
  - now rewrite IH.
Qed.

Lemma assoc_get_del_eq k l : assoc_get k (assoc_del k l) = None.
Proof.
  induction l as [|[k0 v0] l IH]; simpl; [reflexivity|].
  destruct (Z.eqb_spec k0 k) as [->|Hne]; simpl; [exact IH|].
  destruct (Z.eqb_spec k k0); congruence.
Qed.

Lemma assoc_get_elem k v l : assoc_get k l = Some v -> (k, v) ∈ l.
Proof.
  induction l as [|[k0 v0] l IH]; simpl; [discriminate|].
  destruct (Z.eqb_spec k k0) as [->|].
  - intros [= ->]. left.
  - intros H. right. auto.
Qed.

Lemma assoc_del_sublist k l : sublist (assoc_del k l) l.
Proof.
  induction l as [|kv l IH]; simpl; [constructor|].
  destruct (negb _); now constructor.
Qed.

Lemma assoc_del_length k l :
  is_Some (assoc_get k l) -> (length (assoc_del k l) < length l)%nat.
Proof.
  induction l as [|[k0 v0] l IH]; simpl; [intros [? [=]]|].
  destruct (Z.eqb_spec k k0) as [->|Hne].
  - intros _. rewrite Z.eqb_refl. simpl.
    pose proof (sublist_length _ _ (assoc_del_sublist k0 l)). unfold assoc_del in *. lia.
  - intros H. destruct (Z.eqb_spec k0 k); [congruence|]. simpl. specialize (IH H). lia.
Qed.

Lemma assoc_set_values_NoDup k v l :
  NoDup (map snd l) -> v ∉ map snd l -> NoDup (map snd (assoc_set k v l)).
Proof.
  induction l as [|[k0 v0] l IH]; simpl; intros Hnd Hv.
  - apply NoDup_singleton.
  - apply NoDup_cons in Hnd as [H0 Hnd]. apply not_elem_of_cons in Hv as [Hv0 Hv].
    destruct (Z.eqb k k0); simpl.
    + apply NoDup_cons. auto.
    + apply NoDup_cons. split; [|auto].
      clear - H0 Hv0. induction l as [|[k1 v1] l IH]; simpl in *.
      * intros H. apply list_elem_of_singleton in H. congruence.
      * apply not_elem_of_cons in H0 as [? ?].
        destruct (Z.eqb k k1); simpl; intros H'; apply elem_of_cons in H' as [|];
          try congruence; auto.
        now apply IH.
Qed.

Lemma assoc_set_elem k v l kv :
  kv ∈ assoc_set k v l -> kv = (k, v) \/ kv ∈ l.
Proof.
  induction l as [|[k0 v0] l IH]; simpl.
  - intros H. apply list_elem_of_singleton in H. auto.
  - destruct (Z.eqb k k0); intros H; apply elem_of_cons in H as [|]; auto.
    + right. now right.
    + right. subst. left.
    + destruct (IH H); auto. right. now right.
Qed.

Section Properties.
Context {RT : Runtime}.

(** ** Reasoning about monadic code *)

Lemma bind_Ok {A B} (m : M A) (k : A -> M B) st b st' :
  bind m k st = Ok b st' <-> exists a st1, m st = Ok a st1 /\ k a st1 = Ok b st'.
Proof.
  unfold bind. destruct (m st) as [a st1|e st1]; split.
  - eauto.
  - intros (a' & st1' & E & H). injection E as <- <-. exact H.
  - discriminate.
  - intros (? & ? & E & _). discriminate E.
Qed.

Lemma bind_Raise {A B} (m : M A) (k : A -> M B) st e st' :
  bind m k st = Raise e st' <->
  m st = Raise e st' \/ exists a st1, m st = Ok a st1 /\ k a st1 = Raise e st'.
Proof.
  unfold bind. destruct (m st) as [a st1|e1 st1]; split.
  - intros H. right. exists a, st1. auto.
  - intros [E|(a' & st1' & E & H)]; [discriminate E|]. injection E as <- <-. exact H.
  - intros H. left. injection H as -> ->. reflexivity.
  - intros [H|(? & ? & E & _)]; [|discriminate E]. injection H as -> ->. reflexivity.
Qed.

(** What a computation may do to the state, whether it returns or raises. *)
Definition always {A} (R : state -> state -> Prop) (m : M A) : Prop :=
  forall st, match m st with
             | Ok _ st' => R st st'
             | Raise _ st' => R st st'
             end.

Lemma always_ret {A} (R : state -> state -> Prop) `{!Reflexive R} (a : A) :
  always R (ret a).
Proof. intros st. simpl. reflexivity. Qed.

Lemma always_bind {A B} (R : state -> state -> Prop) `{!Transitive R}
      (m : M A) (k : A -> M B) :
  always R m -> (forall a, always R (k a)) -> always R (bind m k).
Proof.
  intros Hm Hk st. unfold bind. specialize (Hm st).
  destruct (m st) as [a st1|e st1]; [|assumption].
  specialize (Hk a st1). destruct (k a st1); etransitivity; eassumption.
Qed.

Lemma always_try {R : state -> state -> Prop} e (m : M unit) :
  always R m -> always R (try_except e m).
Proof.
  intros Hm st. unfold try_except. specialize (Hm st).
  destruct (m st); [assumption|]. destruct (exn_eqb _ _); assumption.
Qed.

Lemma always_Ok {A} (R : state -> state -> Prop) (m : M A) st a st' :
  always R m -> m st = Ok a st' -> R st st'.
Proof. intros H E. specialize (H st). now rewrite E in H. Qed.

Lemma always_Raise {A} (R : state -> state -> Prop) (m : M A) st e st' :
  always R m -> m st = Raise e st' -> R st st'.
Proof. intros H E. specialize (H st). now rewrite E in H. Qed.

(** The cache operations and [close] leave the heap and the count of native
    opens alone, keep the capacity, and can only drop entries. *)
Definition shrinks (st st' : state) : Prop :=
  heap st' = heap st /\ opens st' = opens st /\
  maxsize (cache st') = maxsize (cache st) /\
  sublist (data (cache st')) (data (cache st)).

#[local] Instance shrinks_refl : Reflexive shrinks.
Proof. intros st. repeat split; reflexivity. Qed.

#[local] Instance shrinks_trans : Transitive shrinks.
Proof.
  intros a b c (H1 & H2 & H3 & H4) (H1' & H2' & H3' & H4').
  repeat split; try congruence. etransitivity; eassumption.
Qed.

Lemma shrinks_getitem key : always shrinks (LRUCache_getitem key).
Proof.
  intros st. unfold LRUCache_getitem.
  destruct (assoc_get key _); repeat split; reflexivity.
Qed.

Lemma shrinks_delitem key : always shrinks (LRUCache_delitem key).
Proof.
  intros st. unfold LRUCache_delitem.
  destruct (cache_contains key _); [|reflexivity].
  destruct (key_in key _); repeat split; simpl; auto using assoc_del_sublist.
Qed.

Lemma shrinks_pop key : always shrinks (Cache_pop key).
Proof.
  intros st. unfold Cache_pop. destruct (cache_contains key _); [|reflexivity].
  apply (always_bind shrinks); [apply shrinks_getitem|]. intros v.
  apply (always_bind shrinks); [apply shrinks_delitem|]. intros _.
  apply always_ret, _.
Qed.

Lemma shrinks_LRUCache_popitem : always shrinks LRUCache_popitem.
Proof.
  intros st. unfold LRUCache_popitem. destruct (order _); [reflexivity|].
  apply (always_bind shrinks); [apply shrinks_pop|]. intros v.
  apply always_ret, _.
Qed.

Lemma shrinks_native {A} (f : world -> world * (exn + A)) : always shrinks (native f).
Proof.
  intros st. unfold native. destruct (f (env st)) as [w [e|a]]; repeat split; reflexivity.
Qed.

Lemma shrinks_get_hsh r : always shrinks (get_hsh r).
Proof.
  intros st. unfold get_hsh.
  destruct (heap st !! r) as [[f| |]|]; try reflexivity.
  destruct (hsh f); reflexivity.
Qed.

Lemma shrinks_close_loop r keys : always shrinks (close_loop r keys).
Proof.
  induction keys as [|key keys IH]; simpl; [apply always_ret, _|].
  apply (always_bind shrinks); [apply shrinks_getitem|]. intros v.
  apply (always_bind shrinks); [apply shrinks_get_hsh|]. intros h.
  apply (always_bind shrinks); [|intros _; exact IH].
  intros st. destruct (value_eq_int v h st); [apply shrinks_delitem|reflexivity].
Qed.

Lemma shrinks_File_close r : always shrinks (File_close r).
Proof.
  intros st. unfold File_close. destruct (heap st !! r) as [[f| |]|]; try reflexivity.
  apply (always_bind shrinks); [apply shrinks_native|]. intros _ st'.
  apply shrinks_close_loop.
Qed.

Lemma shrinks_obj_close r : always shrinks (obj_close r).
Proof.
  intros st. unfold obj_close.
  destruct (heap st !! r) as [[f| |[| |e]]|]; try reflexivity.
  apply shrinks_File_close.
Qed.

Lemma shrinks_popitem : always shrinks LRUFileCache_popitem.
Proof.
  unfold LRUFileCache_popitem.
  apply (always_bind shrinks); [apply shrinks_LRUCache_popitem|]. intros kv.
  apply (always_bind shrinks); [apply always_try, shrinks_obj_close|]. intros _.
  apply always_ret, _.
Qed.

Lemma shrinks_evict_loop fuel : always shrinks (evict_loop fuel).
Proof.
  induction fuel as [|fuel IH]; intros st; simpl;
    destruct (_ <? _)%nat; try reflexivity.
  apply (always_bind shrinks); [apply shrinks_popitem|]. intros _. exact IH.
Qed.

(** [cache[key] = value] leaves the heap and the count of opens alone, and
    the key is bound to the value afterwards. *)
Lemma cache_setitem_Ok key value st st' :
  cache_setitem key value st = Ok tt st' ->
  heap st' = heap st /\ opens st' = opens st /\
  maxsize (cache st') = maxsize (cache st) /\
  assoc_get key (data (cache st')) = Some value /\
  (forall kv, kv ∈ data (cache st') -> kv = (key, value) \/ kv ∈ data (cache st)).
Proof.
  unfold cache_setitem. destruct (_ <? _)%nat; [discriminate|].
  intros H. apply bind_Ok in H as (u & st1 & H1 & H2).
  assert (Hs : shrinks st st1).
  { destruct (cache_contains key (cache st)).
    - inversion H1. reflexivity.
    - eapply always_Ok; [apply shrinks_evict_loop|exact H1]. }
  destruct Hs as (Hh & Ho & Hm & Hd).
  inversion H2. simpl. repeat split; try assumption.
  - apply assoc_get_set_eq.
  - intros kv Hkv. apply assoc_set_elem in Hkv as [|Hkv]; [auto|right].
    eapply elem_of_sublist; eassumption.
Qed.

Lemma cache_setitem_Raise key value st e st' :
  cache_setitem key value st = Raise e st' ->
  heap st' = heap st /\ opens st' = opens st.
Proof.
  unfold cache_setitem. destruct (_ <? _)%nat; [intros [= _ <-]; auto|].
  intros H. apply bind_Raise in H as [H|(u & st1 & _ & H)]; [|discriminate H].
  destruct (cache_contains key (cache st)); [discriminate H|].
  pose proof (always_Raise _ _ _ _ _ (shrinks_evict_loop _) H) as (? & ? & _). auto.
Qed.

(** ** [File.__new__], case by case *)

(** The first two statements of [__new__]: the flag popped from the keyword
    arguments, the keyword arguments that remain, and the key they hash to. *)
Definition skip_flag (kwargs : pydict) : pyval :=
  fst (dict_pop "skip_cache" (PBool false) kwargs).
Definition open_kwargs (kwargs : pydict) : pydict :=
  snd (dict_pop "skip_cache" (PBool false) kwargs).
Definition File_key (args : list pyval) (kwargs : pydict) : option Z :=
  arghash args (open_kwargs kwargs).

(** The object [__new__] builds, once [self.hsh] is set. *)
Definition new_file (args : list pyval) (kwargs : pydict) (h : Z) (n : nat) : pyobj :=
  OFile (mkFile args (open_kwargs kwargs) (skip_flag kwargs) (Some h) n).

Lemma File_new_unfold args kwargs st :
  File_new args kwargs st =
  match File_key args kwargs with
  | None => Raise TypeError st
  | Some h =>
      if truthy (skip_flag kwargs) || negb (cache_contains h (cache st)) then
        (n <- native_open args (open_kwargs kwargs) ;;
         self <- alloc (OFile (mkFile args (open_kwargs kwargs) (skip_flag kwargs) None n)) ;;
         (if negb (truthy (skip_flag kwargs)) then cache_setitem h self else ret tt) ;;;
         set_hsh self h ;;;
         ret self) st
      else
        (self <- LRUCache_getitem h ;;
         set_hsh self h ;;;
         ret self) st
  end.
Proof.
  unfold File_new, File_key, skip_flag, open_kwargs.
  destruct (dict_pop _ _ _) as [skip kwargs']. reflexivity.
Qed.

(** With [skip_cache] set, the outcome is that of the native open alone: a
    new object on success, and the cache as it was. *)
Lemma File_new_bypass args kwargs h st :
  File_key args kwargs = Some h ->
  truthy (skip_flag kwargs) = true ->
  File_new args kwargs st =
  match h5_open args (open_kwargs kwargs) (env st) with
  | (w, inr n) =>
      Ok (length (heap st))
         (mkState (cache st) (heap st ++ [new_file args kwargs h n]) w (S (opens st)))
  | (w, inl e) => Raise e (mkState (cache st) (heap st) w (S (opens st)))
  end.
Proof.
  intros Hk Hs. rewrite File_new_unfold, Hk, Hs. simpl.
  unfold bind, native_open, native. simpl.
  destruct (h5_open _ _ _) as [w [e|n]]; simpl; [reflexivity|].
  unfold set_hsh, set_heap. simpl.
  rewrite lookup_app_r by (simpl; lia). rewrite Nat.sub_diag. simpl.
  rewrite insert_app_r_alt by (simpl; lia). rewrite Nat.sub_diag. reflexivity.
Qed.

(** The state once [cache[h]] has been read. *)
Definition touched (h : Z) (st : state) : state :=
  set_cache (mkCache (maxsize (cache st)) (data (cache st))
                     (order_update h (order (cache st)))) st.

(** A hit: the cached object is returned, the key becomes the most recently
    used, and nothing is opened. *)
Lemma File_new_hit args kwargs h r st :
  File_key args kwargs = Some h ->
  truthy (skip_flag kwargs) = false ->
  assoc_get h (data (cache st)) = Some r ->
  File_new args kwargs st = (set_hsh r h ;;; ret r) (touched h st).
Proof.
  intros Hk Hs Hr. rewrite File_new_unfold, Hk, Hs.
  unfold cache_contains. rewrite Hr. simpl.
  unfold bind at 1. unfold LRUCache_getitem. rewrite Hr. reflexivity.
Qed.

Lemma set_hsh_Ok r h st st' :
  set_hsh r h st = Ok tt st' ->
  cache st' = cache st /\ env st' = env st /\ opens st' = opens st /\
  length (heap st') = length (heap st) /\
  ((exists f, heap st !! r = Some (OFile f) /\
              heap st' = <[r := OFile (mkFile (init_args f) (init_kwargs f)
                                              (skip_cache f) (Some h) (fid f))]> (heap st))
   \/ (exists c, heap st !! r = Some (OOther c) /\ heap st' = heap st)).
Proof.
  unfold set_hsh. destruct (heap st !! r) as [[f|z|c]|] eqn:E; try discriminate.
  - intros [= <-]. simpl. rewrite length_insert. repeat split. left. eauto.
  - intros [= <-]. repeat split. right. eauto.
Qed.

(** A hit returns the object bound to the key, for any object that accepts
    the assignment of [hsh]. *)
Lemma File_new_hit_Ok args kwargs h r st :
  File_key args kwargs = Some h ->
  truthy (skip_flag kwargs) = false ->
  assoc_get h (data (cache st)) = Some r ->
  (exists o, heap st !! r = Some o /\ forall z, o <> OInt z) ->
  exists st', File_new args kwargs st = Ok r st' /\
              opens st' = opens st /\ env st' = env st /\
              data (cache st') = data (cache st) /\
              maxsize (cache st') = maxsize (cache st) /\
              length (heap st') = length (heap st).
Proof.
  intros Hk Hs Hr (o & Ho & Hint). rewrite (File_new_hit _ _ _ _ _ Hk Hs Hr).
  unfold bind, set_hsh, touched. simpl. rewrite Ho.
  destruct o as [f|z|c]; [| now destruct (Hint z) |]; simpl.
  - eexists. split; [reflexivity|]. simpl. rewrite length_insert. auto.
  - eexists. split; [reflexivity|]. simpl. auto.
Qed.

(** A miss that returns: the file was opened natively, the new object is the
    next free reference, and it was stored under the key. *)
Lemma File_new_miss_Ok args kwargs h st r st1 :
  File_key args kwargs = Some h ->
  truthy (skip_flag kwargs) = false ->
  cache_contains h (cache st) = false ->
  File_new args kwargs st = Ok r st1 ->
  exists w n stc,
    h5_open args (open_kwargs kwargs) (env st) = (w, inr n) /\
    r = length (heap st) /\
    cache_setitem h r
      (mkState (cache st)
               (heap st ++ [OFile (mkFile args (open_kwargs kwargs) (skip_flag kwargs) None n)])
               w (S (opens st))) = Ok tt stc /\
    st1 = set_heap (heap st ++ [new_file args kwargs h n]) stc.
Proof.
  intros Hk Hs Hc. rewrite File_new_unfold, Hk, Hs, Hc. simpl.
  unfold bind at 1. unfold native_open, native. simpl.
  destruct (h5_open _ _ _) as [w [e|n]]; simpl; [discriminate|].
  unfold bind at 1. unfold alloc at 1. simpl.
  unfold bind at 1.
  match goal with |- context [cache_setitem h ?r ?s] =>
    destruct (cache_setitem h r s) as [[] stc|e stc] eqn:Hset end; [|discriminate].
  pose proof (cache_setitem_Ok _ _ _ _ Hset) as (Hh & _). simpl in Hh.
  unfold bind, set_hsh. rewrite Hh.
  rewrite lookup_app_r by (simpl; lia). rewrite Nat.sub_diag. simpl.
  rewrite insert_app_r_alt by (simpl; lia). rewrite Nat.sub_diag. simpl.
  intros [= <- <-]. exists w, n, stc. auto.
Qed.

(** The same, read forwards. *)
Lemma File_new_miss_eq args kwargs h st w n stc :
  File_key args kwargs = Some h ->
  truthy (skip_flag kwargs) = false ->
  cache_contains h (cache st) = false ->
  h5_open args (open_kwargs kwargs) (env st) = (w, inr n) ->
  cache_setitem h (length (heap st))
    (mkState (cache st)
             (heap st ++ [OFile (mkFile args (open_kwargs kwargs) (skip_flag kwargs) None n)])
             w (S (opens st))) = Ok tt stc ->
  File_new args kwargs st
  = Ok (length (heap st)) (set_heap (heap st ++ [new_file args kwargs h n]) stc).
Proof.
  intros Hk Hs Hc Hopen Hset. rewrite File_new_unfold, Hk, Hs, Hc. simpl.
  unfold bind at 1. unfold native_open, native. simpl. rewrite Hopen. simpl.
  unfold bind at 1. unfold alloc at 1. simpl.
  unfold bind at 1. unfold set_heap, set_env. simpl. rewrite Hset.
  pose proof (cache_setitem_Ok _ _ _ _ Hset) as (Hh & _). simpl in Hh.
  unfold bind, set_hsh. rewrite Hh.
  rewrite lookup_app_r by (simpl; lia). rewrite Nat.sub_diag. simpl.
  rewrite insert_app_r_alt by (simpl; lia). rewrite Nat.sub_diag. reflexivity.
Qed.

(** What holds after any construction through the cache that returns. *)
Lemma File_new_cached_Ok args kwargs st r st1 :
  truthy (skip_flag kwargs) = false ->
  File_new args kwargs st = Ok r st1 ->
  exists h,
    File_key args kwargs = Some h /\
    assoc_get h (data (cache st1)) = Some r /\
    exists o, heap st1 !! r = Some o /\ (forall z, o <> OInt z) /\
              (forall f, o = OFile f -> hsh f = Some h).
Proof.
  intros Hs H. destruct (File_key args kwargs) as [h|] eqn:Hk;
    [|rewrite File_new_unfold, Hk in H; discriminate].
  exists h. split; [reflexivity|].
  destruct (cache_contains h (cache st)) eqn:Hc.
  - unfold cache_contains in Hc.
    destruct (assoc_get h (data (cache st))) as [r'|] eqn:Hr; [|discriminate].
    rewrite (File_new_hit _ _ _ _ _ Hk Hs Hr) in H.
    apply bind_Ok in H as ([] & st' & Hset & Hret). inversion Hret; subst.
    apply set_hsh_Ok in Hset as (Hcache & _ & _ & _ & Hheap).
    rewrite Hcache. simpl. split; [assumption|].
    destruct Hheap as [(f & Hf & ->)|(c & Hc' & ->)].
    + eexists. split; [apply list_lookup_insert_eq; eapply lookup_lt_Some, Hf|].
      split; [discriminate|]. now intros f' [= <-].
    + exists (OOther c). split; [assumption|]. split; discriminate.
  - destruct (File_new_miss_Ok _ _ _ _ _ _ Hk Hs Hc H) as (w & n & stc & _ & -> & Hset & ->).
    apply cache_setitem_Ok in Hset as (Hh & _ & _ & Hget & _). simpl in *.
    split; [assumption|]. exists (new_file args kwargs h n).
    split; [|split; [discriminate|now intros f [= <-]]].
    rewrite lookup_app_r by lia. now rewrite Nat.sub_diag.
Qed.

(** ** C1: two constructions with the same arguments *)

(** The cache goes by the key alone: after a construction through the cache
    has returned a handle, a construction whose arguments hash to the same
    key returns that handle, whatever the arguments are. *)
Lemma equal_keys_same_handle args1 kwargs1 args2 kwargs2 st r st1 :
  truthy (skip_flag kwargs1) = false ->
  truthy (skip_flag kwargs2) = false ->
  File_key args1 kwargs1 = File_key args2 kwargs2 ->
  File_new args1 kwargs1 st = Ok r st1 ->
  exists st2,
    File_new args2 kwargs2 st1 = Ok r st2 /\
    opens st2 = opens st1 /\ env st2 = env st1 /\
    data (cache st2) = data (cache st1).
Proof.
  intros Hs1 Hs2 Hkeys H1.
  destruct (File_new_cached_Ok _ _ _ _ _ Hs1 H1) as (h & Hk & Hr & o & Ho & Hint & _).
  rewrite Hkeys in Hk.
  destruct (File_new_hit_Ok args2 kwargs2 h r st1 Hk Hs2 Hr) as (st2 & H2 & ? & ? & ? & _).
  { eauto. }
  eauto.
Qed.

(** C1.  Constructing [File] twice with the same positional and keyword
    arguments (the cache not bypassed), nothing happening in between:
    whenever the first construction returns a handle, the second returns
    the identical object, performs no native open, and leaves the world and
    the cached entries as they were. *)
Theorem File_new_twice_same_handle args kwargs st r st1 :
  truthy (skip_flag kwargs) = false ->
  File_new args kwargs st = Ok r st1 ->
  exists st2,
    File_new args kwargs st1 = Ok r st2 /\
    opens st2 = opens st1 /\ env st2 = env st1 /\
    data (cache st2) = data (cache st1).
Proof.
  intros Hs H1. now apply (equal_keys_same_handle args kwargs args kwargs st).
Qed.

(** ** The key and the flag *)

Lemma skip_flag_middle k1 k2 v :
  dict_get "skip_cache" (k1 ++ k2) = None ->
  skip_flag (k1 ++ ("skip_cache", v) :: k2) = v /\
  open_kwargs (k1 ++ ("skip_cache", v) :: k2) = k1 ++ k2.
Proof.
  intros H. unfold skip_flag, open_kwargs. now rewrite dict_pop_middle.
Qed.

Lemma skip_flag_absent kwargs :
  dict_get "skip_cache" kwargs = None ->
  skip_flag kwargs = PBool false /\ open_kwargs kwargs = kwargs.
Proof.
  intros H. unfold skip_flag, open_kwargs. now rewrite dict_pop_absent.
Qed.

(** [skip_cache] is popped before the key is computed.  For keyword
    arguments [k1 ++ k2] without the flag and the same arguments with
    [skip_cache=v] passed anywhere among them: the key is the same; with
    [skip_cache=False] the whole construction is the one without the flag;
    and a [File] returned with any value of the flag carries that key. *)
Lemma skip_cache_popped args k1 k2 v st :
  dict_get "skip_cache" (k1 ++ k2) = None ->
  File_key args (k1 ++ ("skip_cache", v) :: k2) = File_key args (k1 ++ k2) /\
  File_new args (k1 ++ ("skip_cache", PBool false) :: k2) st
    = File_new args (k1 ++ k2) st /\
  (forall r st' f,
      File_new args (k1 ++ ("skip_cache", v) :: k2) st = Ok r st' ->
      heap st' !! r = Some (OFile f) ->
      hsh f = File_key args (k1 ++ k2)).
Proof.
  intros Habs.
  destruct (skip_flag_middle k1 k2 v Habs) as [Hf Ho].
  destruct (skip_flag_absent _ Habs) as [Hf0 Ho0].
  assert (Hkey : File_key args (k1 ++ ("skip_cache", v) :: k2) = File_key args (k1 ++ k2)).
  { unfold File_key. now rewrite Ho, Ho0. }
  split; [exact Hkey|]. split.
  - destruct (skip_flag_middle k1 k2 (PBool false) Habs) as [Hf' Ho'].
    rewrite !File_new_unfold. unfold File_key. now rewrite Hf', Ho', Hf0, Ho0.
  - intros r st' f Hnew Hr. rewrite <- Hkey.
    destruct (File_key args (k1 ++ ("skip_cache", v) :: k2)) as [h|] eqn:Hk;
      [|rewrite File_new_unfold, Hk in Hnew; discriminate].
    destruct (truthy (skip_flag (k1 ++ ("skip_cache", v) :: k2))) eqn:Hs.
    + rewrite (File_new_bypass _ _ _ _ Hk Hs) in Hnew.
      destruct (h5_open _ _ _) as [w [e|n]]; [discriminate|].
      injection Hnew as <- <-. simpl in Hr.
      rewrite lookup_app_r in Hr by lia. rewrite Nat.sub_diag in Hr.
      now injection Hr as <-.
    + destruct (File_new_cached_Ok _ _ _ _ _ Hs Hnew) as (h' & Hk' & _ & o & Ho'' & _ & Hh).
      rewrite Hk in Hk'. injection Hk' as <-.
      rewrite Hr in Ho''. injection Ho'' as <-. now apply Hh.
Qed.

(** C10.  When a positional argument, or a keyword argument that is left
    once [skip_cache] is popped, is not JSON serializable, [File(...)]
    raises [TypeError] in the state it started from: no native open has
    been attempted and the cache is unchanged. *)
Theorem File_new_not_serializable args kwargs st :
  serializable (PList args) && serializable (PDict (open_kwargs kwargs)) = false ->
  File_new args kwargs st = Raise TypeError st.
Proof.
  intros H. apply arghash_text_None_iff in H.
  rewrite File_new_unfold. unfold File_key, arghash. now rewrite H.
Qed.

(** ** C7: bypassing the cache *)

(** Every reference held by the cache names an allocated object. *)
Definition cache_allocated (st : state) : Prop :=
  Forall (fun kv => (snd kv < length (heap st))%nat) (data (cache st)).

(** C7.  With a true [skip_cache], a construction that returns has made one
    native open and built a new object around the identifier it returned;
    the cache is exactly as before and does not hold the new handle; and a
    following construction through the cache with the same descriptor
    returns a different object. *)
Theorem File_new_skip_cache args kwargs st r st1 :
  truthy (skip_flag kwargs) = true ->
  cache_allocated st ->
  File_new args kwargs st = Ok r st1 ->
  opens st1 = S (opens st) /\
  (exists h w n,
      File_key args kwargs = Some h /\
      h5_open args (open_kwargs kwargs) (env st) = (w, inr n) /\
      r = length (heap st) /\
      heap st1 = heap st ++ [new_file args kwargs h n]) /\
  cache st1 = cache st /\
  Forall (fun kv => snd kv <> r) (data (cache st1)) /\
  (forall kwargs2 r2 st2,
      open_kwargs kwargs2 = open_kwargs kwargs ->
      truthy (skip_flag kwargs2) = false ->
      File_new args kwargs2 st1 = Ok r2 st2 ->
      r2 <> r).
Proof.
  intros Hs Hal Hnew.
  destruct (File_key args kwargs) as [h|] eqn:Hk;
    [|rewrite File_new_unfold, Hk in Hnew; discriminate].
  rewrite (File_new_bypass _ _ _ _ Hk Hs) in Hnew.
  destruct (h5_open _ _ _) as [w [e|n]] eqn:Hopen; [discriminate|].
  injection Hnew as <- <-. simpl.
  assert (Hfresh : Forall (fun kv : Z * ref => snd kv <> length (heap st)) (data (cache st))).
  { eapply Forall_impl; [exact Hal|]. simpl. intros kv ?. lia. }
  split; [reflexivity|]. split; [exists h, w, n; auto|].
  split; [reflexivity|]. split; [exact Hfresh|].
  intros kwargs2 r2 st2 Hsame Hs2 Hnew2.
  assert (Hk2 : File_key args kwargs2 = Some h) by (unfold File_key in *; congruence).
  destruct (cache_contains h (cache st)) eqn:Hc.
  - unfold cache_contains in Hc.
    destruct (assoc_get h (data (cache st))) as [r'|] eqn:Hr; [|discriminate].
    rewrite (File_new_hit args kwargs2 h r' _ Hk2 Hs2) in Hnew2 by exact Hr.
    apply bind_Ok in Hnew2 as ([] & st' & _ & Hret). inversion Hret; subst.
    apply assoc_get_elem in Hr.
    rewrite Forall_forall in Hfresh. exact (Hfresh _ Hr).
  - pose proof (fun Hc' => File_new_miss_Ok _ _ _ _ _ _ Hk2 Hs2 Hc' Hnew2) as Hmiss.
    destruct (Hmiss Hc) as (w2 & n2 & stc & _ & -> & _).
    simpl. rewrite length_app. simpl. lia.
Qed.

(** ** C3 and C4: pickling *)

Lemma dict_get_del_NoDup k (d : pydict) :
  NoDup (map fst d) -> dict_get k (dict_del k d) = None.
Proof.
  induction d as [|[k' v] d IH]; simpl; [reflexivity|].
  intros Hnd. apply NoDup_cons in Hnd as [Hk' Hnd].
  destruct (String.eqb_spec k k') as [->|Hne]; simpl.
  - clear IH Hnd. induction d as [|[k1 v1] d IH]; simpl in *; [reflexivity|].
    apply not_elem_of_cons in Hk' as [Hne Hk'].
    destruct (String.eqb_spec k' k1); [congruence|auto].
  - destruct (String.eqb_spec k k'); [congruence|auto].
Qed.

(** Once popped, [skip_cache] is no longer a keyword argument. *)
Lemma open_kwargs_no_flag kwargs :
  NoDup (map fst kwargs) -> dict_get "skip_cache" (open_kwargs kwargs) = None.
Proof.
  intros Hnd. unfold open_kwargs, dict_pop.
  destruct (dict_get "skip_cache" kwargs) eqn:E; simpl; [|exact E].
  now apply dict_get_del_NoDup.
Qed.

Lemma pickle_File_eq f :
  pickle_File f =
  PkNew "File" (init_args f) (dict_set "skip_cache" (skip_cache f) (init_kwargs f)) [].
Proof. reflexivity. Qed.

(** C4.  Let [File.__new__] create a [File] from [args] and [kwargs], the
    flag being false.  Its pickle is the class, [args], and the keyword
    arguments followed by [skip_cache]; no state.  Unpickling that pickle in
    any state where the key of the descriptor is bound to a cached [File]
    calls [File.__new__] again and returns that cached object itself: no
    native open, and the world untouched. *)
Theorem unpickle_File_cached args kwargs h st r st1 st' r' f' :
  NoDup (map fst kwargs) ->
  truthy (skip_flag kwargs) = false ->
  File_key args kwargs = Some h ->
  cache_contains h (cache st) = false ->
  File_new args kwargs st = Ok r st1 ->
  assoc_get h (data (cache st')) = Some r' ->
  heap st' !! r' = Some (OFile f') ->
  exists f,
    heap st1 !! r = Some (OFile f) /\
    pickle_File f
      = PkNew "File" args (open_kwargs kwargs ++ [("skip_cache", skip_flag kwargs)]) [] /\
    exists st2,
      unpickle_File (pickle_File f) st' = Ok r' st2 /\
      opens st2 = opens st' /\ env st2 = env st'.
Proof.
  intros Hnd Hs Hk Hc Hnew Hget' Hf'.
  pose proof (open_kwargs_no_flag _ Hnd) as Hnone.
  destruct (File_new_miss_Ok _ _ _ _ _ _ Hk Hs Hc Hnew) as (w & n & stc & _ & -> & _ & ->).
  exists (mkFile args (open_kwargs kwargs) (skip_flag kwargs) (Some h) n).
  split.
  { simpl. rewrite lookup_app_r by lia. now rewrite Nat.sub_diag. }
  assert (Hp : pickle_File (mkFile args (open_kwargs kwargs) (skip_flag kwargs) (Some h) n)
               = PkNew "File" args
                       (open_kwargs kwargs ++ [("skip_cache", skip_flag kwargs)]) []).
  { rewrite pickle_File_eq. simpl. now rewrite dict_get_set_absent. }
  split; [exact Hp|]. rewrite Hp. simpl.
  assert (Hnone' : dict_get "skip_cache" (open_kwargs kwargs ++ []) = None)
    by now rewrite app_nil_r.
  destruct (skip_flag_middle (open_kwargs kwargs) [] (skip_flag kwargs) Hnone') as [Hf2 Ho2].
  rewrite app_nil_r in Ho2.
  destruct (File_new_hit_Ok args (open_kwargs kwargs ++ [("skip_cache", skip_flag kwargs)])
                            h r' st')
    as (st2 & H2 & ? & ? & _).
  - unfold File_key in *. now rewrite Ho2.
  - now rewrite Hf2.
  - exact Hget'.
  - exists (OFile f'). split; [exact Hf'|discriminate].
  - eauto.
Qed.

(** The three picklable proxies and [pickle.dumps] on each. *)
Inductive proxy : Type :=
| ProxyFile (r : ref)
| ProxyGroup (g : Group)
| ProxyDataset (d : Dataset).

Definition pickle_proxy (x : proxy) : M pickled :=
  match x with
  | ProxyFile r =>
      fun st => match heap st !! r with
                | Some (OFile f) => Ok (pickle_File f) st
                | _ => Raise TypeError st
                end
  | ProxyGroup g => pickle_Group g
  | ProxyDataset d => pickle_Dataset d
  end.

Lemma pickle_Dataset_eq ds d st :
  dataset ds = Some d ->
  pickle_Dataset ds st =
  Ok (PkNew "Dataset" [] []
            [("file_name", PkData (PStr (file_name ds)));
             ("file_mode", PkData (file_mode ds));
             ("dataset_name", PkData (PStr (dataset_name ds)))]) st.
Proof.
  intros Hd. unfold pickle_Dataset, Dataset_getstate, Dataset_dict.
  rewrite Hd. reflexivity.
Qed.

(** An instance rebuilt by [__setstate__] has no ['dataset'] entry, and
    [__getstate__] fails on it. *)
Lemma pickle_Dataset_unpickled ds st :
  dataset ds = None -> pickle_Dataset ds st = Raise KeyError st.
Proof.
  intros Hd. unfold pickle_Dataset, Dataset_getstate, Dataset_dict.
  rewrite Hd. reflexivity.
Qed.

(** With an h5py that lets [__getnewargs__] return, a group that has its
    root pickles as its name and the descriptor of the root. *)
Lemma pickle_Group_eq g r f a st :
  h5_getnewargs = inr a ->
  file_info g = Some r ->
  heap st !! r = Some (OFile f) ->
  pickle_Group g st =
  Ok (PkNew "Group" a []
            [("name", PkData (PStr (h5_group_name (group_id g) (env st))));
             ("file", pickle_File f)]) st.
Proof.
  intros Ha Hi Hr. unfold pickle_Group, bind, Group_getstate. rewrite Ha, Hi. simpl.
  now rewrite Hr.
Qed.

(** With an h5py whose [__getnewargs__] raises, no group is pickled. *)
Lemma pickle_Group_blocked g e st :
  h5_getnewargs = inl e -> pickle_Group g st = Raise e st.
Proof. intros He. unfold pickle_Group. now rewrite He. Qed.

(** C3.  Whatever [pickle.dumps] produces for a [File], a [Group] or a
    [Dataset] holds descriptor data only: no native identifier, no live
    object and no cache key. *)
Theorem pickle_proxy_descriptor_only x st p st' :
  pickle_proxy x st = Ok p st' -> descriptor_only p = true.
Proof.
  destruct x as [r|g|ds]; simpl.
  - destruct (heap st !! r) as [[f| |]|]; try discriminate.
    intros [= <- _]. reflexivity.
  - unfold pickle_Group. destruct h5_getnewargs as [e|a]; [discriminate|].
    unfold bind, Group_getstate.
    destruct (file_info g) as [r|]; [|discriminate]. simpl.
    destruct (heap st !! r) as [[f| |]|]; try discriminate.
    intros [= <- _]. reflexivity.
  - destruct (dataset ds) as [d|] eqn:Hd.
    + rewrite (pickle_Dataset_eq _ _ _ Hd). intros [= <- _]. reflexivity.
    + rewrite (pickle_Dataset_unpickled _ _ Hd). discriminate.
Qed.

(** Had [__getstate__] kept the instance dictionary as it is, the native
    dataset would be part of the state. *)
Lemma Dataset_dict_holds_handle ds d :
  dataset ds = Some d ->
  forallb (fun kv => descriptor_only (plain_attr (snd kv))) (Dataset_dict ds) = false.
Proof. intros Hd. unfold Dataset_dict. rewrite Hd. reflexivity. Qed.

(** Likewise for a [File]: its dictionary holds the identifier and, once
    [__new__] is done, the cache key; [__getstate__] drops both. *)
Lemma File_dict_holds_handle f :
  forallb (fun kv => descriptor_only (plain_attr (snd kv))) (File_dict f) = false.
Proof. reflexivity. Qed.

(** ** C6: what [File.close] removes from the cache *)

(** Entries whose value is a [File] stay where they are. *)
Definition keeps_files (st st' : state) : Prop :=
  heap st' = heap st /\
  forall k v f,
    assoc_get k (data (cache st)) = Some v ->
    heap st !! v = Some (OFile f) ->
    assoc_get k (data (cache st')) = Some v.

#[local] Instance keeps_files_refl : Reflexive keeps_files.
Proof. intros st. split; eauto. Qed.

#[local] Instance keeps_files_trans : Transitive keeps_files.
Proof.
  intros a b c [H1 H2] [H1' H2']. split; [congruence|].
  intros k v f Hget Hv. eapply H2'; [eapply H2; eassumption|]. rewrite H1. eassumption.
Qed.

(** One turn of the loop: the comparison of a [File] with the integer key is
    false, so [del cache[key]] is not reached for it. *)
Lemma keeps_files_close_step r key :
  always keeps_files
         (v <- LRUCache_getitem key ;;
          h <- get_hsh r ;;
          fun st => if value_eq_int v h st then LRUCache_delitem key st else Ok tt st).
Proof.
  intros st. unfold bind, LRUCache_getitem.
  destruct (assoc_get key (data (cache st))) as [v|] eqn:Hv; [|reflexivity].
  unfold get_hsh. simpl.
  assert (Htouch : keeps_files st
            (set_cache (mkCache (maxsize (cache st)) (data (cache st))
                                (order_update key (order (cache st)))) st))
    by (split; eauto).
  destruct (heap st !! r) as [[f| |]|] eqn:Hr; try exact Htouch.
  destruct (hsh f) as [h|]; [|exact Htouch].
  unfold value_eq_int. simpl.
  destruct (heap st !! v) as [[fv|z|c]|] eqn:Hhv; try exact Htouch.
  destruct (Z.eqb z h); [|exact Htouch].
  unfold LRUCache_delitem, cache_contains. simpl. rewrite Hv.
  assert (Hdel : forall k v0 f0,
             assoc_get k (data (cache st)) = Some v0 ->
             heap st !! v0 = Some (OFile f0) ->
             assoc_get k (assoc_del key (data (cache st))) = Some v0).
  { intros k v0 f0 Hget Hf0. rewrite assoc_get_del_ne; [assumption|].
    intros ->. rewrite Hv in Hget. injection Hget as ->. congruence. }
  destruct (key_in key _); split; simpl; auto.
Qed.

Lemma keeps_files_close_loop r keys : always keeps_files (close_loop r keys).
Proof.
  induction keys as [|key keys IH]; simpl; [apply always_ret, _|].
  pose proof (keeps_files_close_step r key) as Hstep.
  intros st. specialize (Hstep st). unfold bind in *.
  destruct (LRUCache_getitem key st) as [v st1|]; [|assumption].
  destruct (get_hsh r st1) as [h st2|]; [|assumption].
  destruct (if value_eq_int v h st2 then _ else _) as [u st3|]; [|assumption].
  specialize (IH st3). destruct (close_loop r keys st3); etransitivity; eassumption.
Qed.

Lemma keeps_files_File_close r : always keeps_files (File_close r).
Proof.
  intros st. unfold File_close. destruct (heap st !! r) as [[f| |]|]; try reflexivity.
  apply (always_bind keeps_files).
  - intros st0. unfold native_close, native.
    destruct (h5_close _ _) as [w [e|]]; split; eauto.
  - intros _ st'. apply keeps_files_close_loop.
Qed.

(** C6 fails on the code.  [File.close] compares each cached value with the
    integer [self.hsh]; a [File] is never equal to an integer, so the entry
    of the handle being closed, like that of every other [File], is still
    in the cache when [close] returns. *)
Theorem File_close_leaves_handle_cached r f k st st' :
  heap st !! r = Some (OFile f) ->
  assoc_get k (data (cache st)) = Some r ->
  File_close r st = Ok tt st' ->
  assoc_get k (data (cache st')) = Some r /\ heap st' !! r = Some (OFile f).
Proof.
  intros Hr Hk Hclose.
  destruct (always_Ok _ _ _ _ _ (keeps_files_File_close r) Hclose) as [Hh Hkeep].
  split; [eapply Hkeep; eassumption|]. now rewrite Hh.
Qed.

(** The loop of [close] works on the cache only. *)
Definition same_env (st st' : state) : Prop := env st' = env st.

#[local] Instance same_env_refl : Reflexive same_env.
Proof. intros st. reflexivity. Qed.

#[local] Instance same_env_trans : Transitive same_env.
Proof. intros a b c H1 H2. unfold same_env in *. congruence. Qed.

Lemma same_env_close_loop r keys : always same_env (close_loop r keys).
Proof.
  induction keys as [|key keys IH]; simpl; [apply always_ret, _|].
  apply (always_bind same_env).
  { intros st. unfold LRUCache_getitem. destruct (assoc_get key _); reflexivity. }
  intros v. apply (always_bind same_env).
  { intros st. unfold get_hsh. destruct (heap st !! r) as [[f| |]|]; try reflexivity.
    destruct (hsh f); reflexivity. }
  intros h. apply (always_bind same_env); [|intros _; exact IH].
  intros st. destruct (value_eq_int v h st); [|reflexivity].
  unfold LRUCache_delitem. destruct (cache_contains key _); [|reflexivity].
  destruct (key_in key _); reflexivity.
Qed.

(** The native close is what [close] starts with: it returns only if the
    native close did, in the world that call left. *)
Lemma File_close_closes r f st st' :
  heap st !! r = Some (OFile f) ->
  File_close r st = Ok tt st' ->
  exists w, h5_close (fid f) (env st) = (w, None) /\ env st' = w.
Proof.
  intros Hr. unfold File_close. rewrite Hr. intros H.
  apply bind_Ok in H as ([] & st1 & Hn & Hloop).
  unfold native_close, native in Hn.
  destruct (h5_close (fid f) (env st)) as [w [e|]] eqn:Hc; [discriminate|].
  injection Hn as <-. exists w. split; [reflexivity|].
  apply (always_Ok _ _ _ _ _ (same_env_close_loop _ _)) in Hloop. exact Hloop.
Qed.

(** ** C8: which constructions can share a handle *)

Lemma sublist_map {A B} (f : A -> B) (l1 l2 : list A) :
  sublist l1 l2 -> sublist (map f l1) (map f l2).
Proof. induction 1; simpl; now constructor. Qed.

Lemma elem_of_map_snd (v : ref) (l : list (Z * ref)) :
  v ∈ map snd l -> exists k, (k, v) ∈ l.
Proof.
  induction l as [|[k0 v0] l IH]; simpl; intros H.
  - now apply elem_of_nil in H.
  - apply elem_of_cons in H as [->|H].
    + exists k0. left.
    + destruct (IH H) as [k Hk]. exists k. now right.
Qed.

Lemma assoc_get_values_inj k1 k2 v l :
  NoDup (map snd l) ->
  assoc_get k1 l = Some v -> assoc_get k2 l = Some v -> k1 = k2.
Proof.
  induction l as [|[k0 v0] l IH]; simpl; [discriminate|].
  intros Hnd H1 H2. apply NoDup_cons in Hnd as [Hv0 Hnd].
  assert (Hin : forall k, assoc_get k l = Some v0 -> False).
  { intros k Hk. apply Hv0. apply assoc_get_elem in Hk.
    apply list_elem_of_In, in_map_iff. exists (k, v0). split; [reflexivity|].
    now apply list_elem_of_In. }
  destruct (Z.eqb_spec k1 k0) as [->|], (Z.eqb_spec k2 k0) as [->|]; auto.
  - injection H1 as ->. now destruct (Hin _ H2).
  - injection H2 as ->. now destruct (Hin _ H1).
Qed.

(** [cache[key] = value], entry by entry: some of the old entries are gone,
    and the key is set among those that remain. *)
Lemma cache_setitem_data key value st st' :
  cache_setitem key value st = Ok tt st' ->
  exists d, sublist d (data (cache st)) /\
            data (cache st') = assoc_set key value d.
Proof.
  unfold cache_setitem. destruct (_ <? _)%nat; [discriminate|].
  intros H. apply bind_Ok in H as (u & st1 & H1 & H2).
  assert (Hs : shrinks st st1).
  { destruct (cache_contains key (cache st)).
    - inversion H1. reflexivity.
    - eapply always_Ok; [apply shrinks_evict_loop|exact H1]. }
  destruct Hs as (_ & _ & _ & Hd). inversion H2. simpl. eauto.
Qed.

(** The invariant of the cache that [File.__new__] maintains: no object is
    stored under two keys, and every stored reference is allocated. *)
Definition cache_ok (st : state) : Prop :=
  NoDup (map snd (data (cache st))) /\ cache_allocated st.

Lemma cache_ok_init w : cache_ok (mkState cache_init [] w 0).
Proof. split; [apply NoDup_nil_2|apply List.Forall_nil]. Qed.

Lemma File_new_cache_ok args kwargs st r st1 :
  cache_ok st ->
  File_new args kwargs st = Ok r st1 ->
  cache_ok st1 /\ (r < length (heap st1))%nat /\ (length (heap st) <= length (heap st1))%nat.
Proof.
  intros [Hnd Hal] Hnew.
  destruct (File_key args kwargs) as [h|] eqn:Hk;
    [|rewrite File_new_unfold, Hk in Hnew; discriminate].
  destruct (truthy (skip_flag kwargs)) eqn:Hs.
  - rewrite (File_new_bypass _ _ _ _ Hk Hs) in Hnew.
    destruct (h5_open _ _ _) as [w [e|n]]; [discriminate|].
    injection Hnew as <- <-. unfold cache_ok, cache_allocated. simpl.
    rewrite length_app. simpl. repeat split; [assumption| |lia|lia].
    eapply Forall_impl; [exact Hal|]. simpl. intros; lia.
  - destruct (cache_contains h (cache st)) eqn:Hc.
    + unfold cache_contains in Hc.
      destruct (assoc_get h (data (cache st))) as [r'|] eqn:Hr; [|discriminate].
      rewrite (File_new_hit _ _ _ _ _ Hk Hs Hr) in Hnew.
      apply bind_Ok in Hnew as ([] & st' & Hset & Hret). inversion Hret; subst.
      apply set_hsh_Ok in Hset as (Hcache & _ & _ & Hlen & _).
      unfold cache_ok, cache_allocated. rewrite Hcache, Hlen. simpl.
      repeat split; try assumption; [|lia].
      apply assoc_get_elem in Hr. unfold cache_allocated in Hal.
      rewrite Forall_forall in Hal. exact (Hal _ Hr).
    + destruct (File_new_miss_Ok _ _ _ _ _ _ Hk Hs Hc Hnew)
        as (w & n & stc & _ & -> & Hset & ->).
      destruct (cache_setitem_data _ _ _ _ Hset) as (d & Hsub & Hdata).
      simpl in Hsub. unfold cache_ok, cache_allocated. simpl.
      rewrite Hdata, length_app. simpl.
      assert (Hd : Forall (fun kv : Z * ref => (snd kv < length (heap st))%nat) d).
      { rewrite Forall_forall. intros kv Hkv.
        unfold cache_allocated in Hal. rewrite Forall_forall in Hal.
        apply Hal. eapply elem_of_sublist; eassumption. }
      repeat split; [| |lia|lia].
      * apply assoc_set_values_NoDup.
        -- eapply sublist_NoDup; [exact Hnd|]. now apply sublist_map.
        -- intros Hin. apply elem_of_map_snd in Hin as [k Hin].
           rewrite Forall_forall in Hd. specialize (Hd _ Hin). simpl in Hd. lia.
      * rewrite Forall_forall. intros kv Hkv.
        apply assoc_set_elem in Hkv as [->|Hkv]; simpl; [lia|].
        rewrite Forall_forall in Hd. specialize (Hd _ Hkv). lia.
Qed.

Lemma File_close_cache_ok r st u st' :
  cache_ok st -> File_close r st = Ok u st' -> cache_ok st'.
Proof.
  intros [Hnd Hal] H.
  destruct (always_Ok _ _ _ _ _ (shrinks_File_close r) H) as (Hh & _ & _ & Hsub).
  split.
  - eapply sublist_NoDup; [exact Hnd|]. now apply sublist_map.
  - unfold cache_allocated in *. rewrite Hh. rewrite Forall_forall in *.
    intros kv Hkv. apply Hal. eapply elem_of_sublist; eassumption.
Qed.

(** C8, as the code has it.  Two constructions in a row, with or without
    [skip_cache], whose keys differ never return the same object.  (Equal
    keys are what the cache goes by: see [equal_keys_same_handle].) *)
Theorem distinct_keys_distinct_handles args1 kwargs1 args2 kwargs2 st r1 st1 r2 st2 :
  cache_ok st ->
  File_key args1 kwargs1 <> File_key args2 kwargs2 ->
  File_new args1 kwargs1 st = Ok r1 st1 ->
  File_new args2 kwargs2 st1 = Ok r2 st2 ->
  r1 <> r2.
Proof.
  intros Hok Hne H1 H2.
  destruct (File_new_cache_ok _ _ _ _ _ Hok H1) as ([Hnd1 Hal1] & Hr1 & _).
  destruct (File_key args2 kwargs2) as [h2|] eqn:Hk2;
    [|rewrite File_new_unfold, Hk2 in H2; discriminate].
  destruct (truthy (skip_flag kwargs2)) eqn:Hs2.
  { rewrite (File_new_bypass _ _ _ _ Hk2 Hs2) in H2.
    destruct (h5_open _ _ _) as [w [e|n]]; [discriminate|].
    injection H2 as <- _. lia. }
  destruct (cache_contains h2 (cache st1)) eqn:Hc.
  - unfold cache_contains in Hc.
    destruct (assoc_get h2 (data (cache st1))) as [r'|] eqn:Hr; [|discriminate].
    rewrite (File_new_hit _ _ _ _ _ Hk2 Hs2 Hr) in H2.
    apply bind_Ok in H2 as ([] & st' & _ & Hret). inversion Hret; subst.
    destruct (truthy (skip_flag kwargs1)) eqn:Hs1.
    + destruct (File_key args1 kwargs1) as [h1|] eqn:Hk1;
        [|rewrite File_new_unfold, Hk1 in H1; discriminate].
      destruct Hok as [_ Hal]. unfold cache_allocated in Hal.
      rewrite (File_new_bypass _ _ _ _ Hk1 Hs1) in H1.
      destruct (h5_open _ _ _) as [w [e|n]]; [discriminate|].
      injection H1 as <- <-. simpl in Hr.
      apply assoc_get_elem in Hr. rewrite Forall_forall in Hal.
      specialize (Hal _ Hr). simpl in Hal. lia.
    + destruct (File_new_cached_Ok _ _ _ _ _ Hs1 H1) as (h1 & Hk1 & Hget1 & _).
      intros ->. apply Hne. rewrite Hk1. f_equal.
      eapply assoc_get_values_inj; eassumption.
  - destruct (File_new_miss_Ok _ _ _ _ _ _ Hk2 Hs2 Hc H2) as (_ & _ & _ & _ & -> & _).
    lia.
Qed.

(** ** C5: closing on eviction *)

Lemma key_in_order_update k o : key_in k (order_update k o) = true.
Proof.
  unfold key_in, order_update. rewrite existsb_app. simpl.
  rewrite Z.eqb_refl. now rewrite orb_true_r.
Qed.

(** [LRUCache.popitem] returns the entry of the first key of [order], and
    the cache is one entry shorter at least. *)
Lemma LRUCache_popitem_Ok st k v st1 :
  LRUCache_popitem st = Ok (k, v) st1 ->
  assoc_get k (data (cache st)) = Some v /\
  st1 = set_cache (mkCache (maxsize (cache st)) (assoc_del k (data (cache st)))
                           (order_del k (order_update k (order (cache st))))) st /\
  (length (data (cache st1)) < length (data (cache st)))%nat.
Proof.
  unfold LRUCache_popitem. destruct (order (cache st)) as [|key o] eqn:Ho; [discriminate|].
  unfold bind, Cache_pop, cache_contains.
  destruct (assoc_get key (data (cache st))) as [v'|] eqn:Hv; [|discriminate].
  unfold bind, LRUCache_getitem. rewrite Hv.
  unfold LRUCache_delitem, cache_contains. simpl. rewrite Hv.
  rewrite Ho, key_in_order_update. simpl.
  intros [= <- <- <-]. simpl. repeat split; [assumption|].
  apply assoc_del_length. eauto.
Qed.

Lemma popitem_Ok_length st kv st2 :
  LRUFileCache_popitem st = Ok kv st2 ->
  (length (data (cache st2)) < length (data (cache st)))%nat /\
  maxsize (cache st2) = maxsize (cache st).
Proof.
  intros H. pose proof (always_Ok _ _ _ _ _ shrinks_popitem H) as (_ & _ & Hm & _).
  split; [|exact Hm].
  unfold LRUFileCache_popitem in H.
  apply bind_Ok in H as ([k v] & st1 & Hpop & H).
  apply LRUCache_popitem_Ok in Hpop as (_ & _ & Hlen).
  apply bind_Ok in H as ([] & st2' & Hclose & Hret). inversion Hret; subst.
  pose proof (always_Ok _ _ _ _ _ (always_try AttributeError _ (shrinks_obj_close v)) Hclose)
    as (_ & _ & _ & Hsub).
  apply sublist_length in Hsub. lia.
Qed.

(** The loop of [Cache.__setitem__] never needs more turns than there are
    entries: from that much fuel on, the outcome is the same. *)
Lemma evict_loop_fuel fuel fuel' st :
  (length (data (cache st)) <= fuel)%nat -> (fuel <= fuel')%nat ->
  (1 <= maxsize (cache st))%nat ->
  evict_loop fuel st = evict_loop fuel' st.
Proof.
  revert fuel' st. induction fuel as [|fuel IH]; intros fuel' st Hlen Hle Hmax.
  - destruct fuel'; simpl; destruct (Nat.ltb_spec (maxsize (cache st))
                                       (length (data (cache st)) + 1)); try reflexivity; lia.
  - destruct fuel' as [|fuel']; [lia|]. simpl.
    destruct (_ <? _)%nat; [|reflexivity].
    unfold bind. destruct (LRUFileCache_popitem st) as [kv st2|e st2] eqn:Hpop; [|reflexivity].
    apply popitem_Ok_length in Hpop as [Hl Hm].
    apply IH; lia.
Qed.

(** The state once [cache[key] = value] has stored the pair. *)
Definition stored (key : Z) (value : ref) (st : state) : state :=
  set_cache (mkCache (maxsize (cache st)) (assoc_set key value (data (cache st)))
                     (order_update key (order (cache st)))) st.

(** What the [try] of [popitem] makes of the outcome of [close]. *)
Definition after_close {A} (a : A) (c : result unit) : result A :=
  match c with
  | Ok _ st => Ok a st
  | Raise e st => if exn_eqb e AttributeError then Ok a st else Raise e st
  end.

(** C5, as the code has it.  Take a full cache whose least recently used
    entry is [(k, v)], and a key that is not cached.  The eviction calls
    [close] on [v]; if that returns or raises [AttributeError], [popitem]
    returns the evicted pair and the insertion that triggered it stores the
    new pair; any other exception raised by [close] is raised by [popitem]
    and by the insertion. *)
Theorem eviction_swallows_AttributeError_only st k v st1 key value :
  LRUCache_popitem st = Ok (k, v) st1 ->
  length (data (cache st)) = maxsize (cache st) ->
  cache_contains key (cache st) = false ->
  LRUFileCache_popitem st = after_close (k, v) (obj_close v st1) /\
  cache_setitem key value st =
    match after_close (k, v) (obj_close v st1) with
    | Ok _ st2 => Ok tt (stored key value st2)
    | Raise e st2 => Raise e st2
    end.
Proof.
  intros Hpop Hfull Hc.
  assert (Hp : LRUFileCache_popitem st = after_close (k, v) (obj_close v st1)).
  { unfold LRUFileCache_popitem, bind. rewrite Hpop. unfold try_except. simpl.
    destruct (obj_close v st1) as [[] st2|e st2]; simpl; [reflexivity|].
    destruct (exn_eqb e AttributeError); reflexivity. }
  split; [exact Hp|].
  pose proof (LRUCache_popitem_Ok _ _ _ _ Hpop) as (_ & _ & Hlen).
  unfold cache_setitem.
  destruct (Nat.ltb_spec (maxsize (cache st)) 1); [lia|].
  rewrite Hc. unfold bind at 1.
  destruct (length (data (cache st))) as [|n] eqn:Hn; [lia|].
  simpl evict_loop. rewrite Hn.
  destruct (Nat.ltb_spec (maxsize (cache st)) (S n + 1)); [|lia].
  unfold bind at 1.
  destruct (LRUFileCache_popitem st) as [kv st2|e st2] eqn:Hpop'.
  - pose proof (popitem_Ok_length _ _ _ Hpop') as [Hl Hm].
    rewrite <- Hp.
    assert (Hstop : evict_loop n st2 = Ok tt st2).
    { destruct n; simpl;
        destruct (Nat.ltb_spec (maxsize (cache st2)) (length (data (cache st2)) + 1));
        try reflexivity; lia. }
    rewrite Hstop. reflexivity.
  - rewrite <- Hp. reflexivity.
Qed.

(** A value without a [close] method: the eviction and the insertion go
    through, and nothing but the cache has changed. *)
Lemma eviction_without_close st k v st1 key value :
  LRUCache_popitem st = Ok (k, v) st1 ->
  length (data (cache st)) = maxsize (cache st) ->
  cache_contains key (cache st) = false ->
  (exists z, heap st !! v = Some (OInt z)) \/ heap st !! v = Some (OOther NoClose) ->
  LRUFileCache_popitem st = Ok (k, v) st1 /\
  cache_setitem key value st = Ok tt (stored key value st1).
Proof.
  intros Hpop Hfull Hc Hv.
  pose proof Hpop as Hst1. apply LRUCache_popitem_Ok in Hst1 as (_ & Hst1 & _).
  assert (Hclose : obj_close v st1 = Raise AttributeError st1).
  { unfold obj_close. rewrite Hst1. simpl. destruct Hv as [[z ->]| ->]; reflexivity. }
  unfold LRUFileCache_popitem, bind. rewrite Hpop. unfold try_except. simpl.
  rewrite Hclose. simpl. split; [reflexivity|].
  unfold cache_setitem.
  destruct (Nat.ltb_spec (maxsize (cache st)) 1).
  { apply LRUCache_popitem_Ok in Hpop as (_ & _ & ?). lia. }
  rewrite Hc. unfold bind at 1.
  destruct (length (data (cache st))) as [|n] eqn:Hn.
  { apply LRUCache_popitem_Ok in Hpop as (_ & _ & ?). lia. }
  simpl evict_loop. rewrite Hn.
  destruct (Nat.ltb_spec (maxsize (cache st)) (S n + 1)); [|lia].
  unfold bind at 1, LRUFileCache_popitem, bind. rewrite Hpop. unfold try_except. simpl.
  rewrite Hclose. simpl.
  assert (Hstop : evict_loop n st1 = Ok tt st1).
  { assert (Hl : (length (data (cache st1)) < S n)%nat).
    { apply LRUCache_popitem_Ok in Hpop as (_ & _ & ?). lia. }
    assert (Hm : maxsize (cache st1) = maxsize (cache st)) by (rewrite Hst1; reflexivity).
    destruct n; simpl;
      destruct (Nat.ltb_spec (maxsize (cache st1)) (length (data (cache st1)) + 1));
      try reflexivity; lia. }
  rewrite Hstop. reflexivity.
Qed.

(** ** Access through a [Dataset] *)

(** The arguments of [File(self.file_name, mode=self.file_mode)]. *)
Definition root_args (ds : Dataset) : list pyval := [PStr (file_name ds)].
Definition root_kwargs (ds : Dataset) : pydict := [("mode", file_mode ds)].

Lemma root_kwargs_no_flag ds :
  skip_flag (root_kwargs ds) = PBool false /\ open_kwargs (root_kwargs ds) = root_kwargs ds.
Proof. apply skip_flag_absent. reflexivity. Qed.

(** The state in which [__new__] stores the handle it has just opened. *)
Definition opened (ds : Dataset) (n : nat) (w : world) (st : state) : state :=
  mkState (cache st)
          (heap st ++ [OFile (mkFile (root_args ds) (root_kwargs ds) (PBool false) None n)])
          w (S (opens st)).

(** Re-resolution after an eviction: the root is opened again, stored in the
    cache, and the path is looked up in the new file. *)
Lemma Dataset_resolve_reopens ds st h w n stc w' d :
  File_key (root_args ds) (root_kwargs ds) = Some h ->
  cache_contains h (cache st) = false ->
  h5_open (root_args ds) (root_kwargs ds) (env st) = (w, inr n) ->
  cache_setitem h (length (heap st)) (opened ds n w st) = Ok tt stc ->
  h5_lookup n (dataset_name ds) (env stc) = (w', inr (NDataset d)) ->
  Dataset_resolve ds st =
  Ok (WDataset (mkDataset (h5_dataset_file_name d w') (h5_dataset_file_mode d w')
                          (h5_dataset_name d w') (Some d)))
     (set_env w' (set_heap (heap st ++ [new_file (root_args ds) (root_kwargs ds) h n]) stc)).
Proof.
  intros Hk Hc Hopen Hset Hlook.
  destruct (root_kwargs_no_flag ds) as [Hflag Hkw].
  pose proof (File_new_miss_eq (root_args ds) (root_kwargs ds) h st w n stc Hk) as Hnew.
  rewrite Hflag, Hkw in Hnew. specialize (Hnew eq_refl Hc Hopen Hset).
  unfold Dataset_resolve.
  change [PStr (file_name ds)] with (root_args ds).
  change [("mode", file_mode ds)] with (root_kwargs ds).
  unfold bind at 1. rewrite Hnew.
  pose proof (cache_setitem_Ok _ _ _ _ Hset) as (Hh & _). simpl in Hh.
  unfold File_getitem. simpl.
  rewrite lookup_app_r by lia. rewrite Nat.sub_diag. simpl.
  unfold bind at 1. unfold native. simpl. rewrite Hlook. simpl.
  reflexivity.
Qed.

(** A [Dataset] proxy whose root handle is no longer in the cache.  If the
    root file can be opened again, storing the new handle returns, and the
    path still names a dataset, then an attribute access and an element
    access open the root once more, look the path up in it and return what
    h5py returns for the dataset just found. *)
Lemma Dataset_access_stored ds name item st h w n stc w' d :
  File_key (root_args ds) (root_kwargs ds) = Some h ->
  cache_contains h (cache st) = false ->
  h5_open (root_args ds) (root_kwargs ds) (env st) = (w, inr n) ->
  cache_setitem h (length (heap st)) (opened ds n w st) = Ok tt stc ->
  h5_lookup n (dataset_name ds) (env stc) = (w', inr (NDataset d)) ->
  let st' := set_env w' (set_heap (heap st ++ [new_file (root_args ds) (root_kwargs ds) h n]) stc) in
  Dataset_getattr ds name st = native (h5_dataset_getattr d name) st' /\
  Dataset_getitem ds item st = native (h5_dataset_getitem d item) st' /\
  opens st' = S (opens st) /\
  assoc_get h (data (cache st')) = Some (length (heap st)).
Proof.
  intros Hk Hc Hopen Hset Hlook st'.
  pose proof (Dataset_resolve_reopens _ _ _ _ _ _ _ _ Hk Hc Hopen Hset Hlook) as Hres.
  fold st' in Hres.
  repeat split.
  - unfold Dataset_getattr, bind. rewrite Hres. reflexivity.
  - unfold Dataset_getitem, bind. rewrite Hres. reflexivity.
  - subst st'. simpl. apply cache_setitem_Ok in Hset as (_ & Ho & _). exact Ho.
  - subst st'. simpl. apply cache_setitem_Ok in Hset as (_ & _ & _ & Hget & _). exact Hget.
Qed.

(** With room in the cache, storing the new handle cannot raise. *)
Lemma cache_setitem_room key value st :
  (length (data (cache st)) < maxsize (cache st))%nat ->
  cache_setitem key value st = Ok tt (stored key value st).
Proof.
  intros Hroom. unfold cache_setitem.
  destruct (Nat.ltb_spec (maxsize (cache st)) 1); [lia|].
  unfold bind. destruct (cache_contains key (cache st)); [reflexivity|].
  assert (Hstop : evict_loop (length (data (cache st))) st = Ok tt st).
  { destruct (length (data (cache st))) eqn:E; simpl; rewrite ?E;
      match goal with |- context [(?a <? ?b)%nat] => destruct (Nat.ltb_spec a b) end;
      try reflexivity; lia. }
  rewrite Hstop. reflexivity.
Qed.

(** While the root handle is cached and open, the access goes through the
    cached handle: nothing is opened. *)
Lemma Dataset_resolve_cached ds st h r f w' d :
  File_key (root_args ds) (root_kwargs ds) = Some h ->
  assoc_get h (data (cache st)) = Some r ->
  heap st !! r = Some (OFile f) ->
  h5_lookup (fid f) (dataset_name ds) (env st) = (w', inr (NDataset d)) ->
  exists st',
    Dataset_resolve ds st =
    Ok (WDataset (mkDataset (h5_dataset_file_name d w') (h5_dataset_file_mode d w')
                            (h5_dataset_name d w') (Some d))) st' /\
    opens st' = opens st /\ env st' = w'.
Proof.
  intros Hk Hr Hf Hlook.
  destruct (root_kwargs_no_flag ds) as [Hflag Hkw].
  unfold Dataset_resolve.
  change [PStr (file_name ds)] with (root_args ds).
  change [("mode", file_mode ds)] with (root_kwargs ds).
  unfold bind at 1.
  assert (Hs : truthy (skip_flag (root_kwargs ds)) = false) by now rewrite Hflag.
  rewrite (File_new_hit _ _ _ _ _ Hk Hs Hr).
  unfold bind at 1. unfold set_hsh, touched. simpl. rewrite Hf. simpl.
  unfold File_getitem. simpl.
  rewrite list_lookup_insert_eq by (eapply lookup_lt_Some; eassumption). simpl.
  unfold bind at 1. unfold native. simpl. rewrite Hlook. simpl.
  eexists. split; [reflexivity|]. auto.
Qed.

(** ** Keys collide *)

Lemma bounded_search (f : nat -> nat) (a m : nat) :
  (exists i, (i <= m)%nat /\ f i = a) \/ (forall i, (i <= m)%nat -> f i <> a).
Proof.
  induction m as [|m IH].
  - destruct (Nat.eq_dec (f 0%nat) a) as [E|E].
    + left. exists 0%nat. auto.
    + right. intros i Hi. replace i with 0%nat by lia. exact E.
  - destruct IH as [(i & Hi & E)|IH].
    + left. exists i. split; [lia|exact E].
    + destruct (Nat.eq_dec (f (S m)) a) as [E|E].
      * left. exists (S m). auto.
      * right. intros i Hi. destruct (Nat.eq_dec i (S m)) as [->|]; [exact E|].
        apply IH. lia.
Qed.

(** [n + 1] arguments with values below [n]: two of them share a value. *)
Lemma pigeonhole (n : nat) :
  forall f : nat -> nat,
    (forall i, (i <= n)%nat -> (f i < n)%nat) ->
    exists i j, (i < j <= n)%nat /\ f i = f j.
Proof.
  induction n as [|n IH]; intros f Hf.
  - specialize (Hf 0%nat). lia.
  - destruct (bounded_search f (f (S n)) n) as [(i & Hi & E)|Hne].
    + exists i, (S n). split; [lia|exact E].
    + set (a := f (S n)) in *.
      destruct (IH (fun i => if (f i <? a)%nat then f i else (f i - 1)%nat)) as (i & j & Hij & E).
      * intros i Hi. specialize (Hne i Hi).
        assert (a < S n)%nat by (apply Hf; lia).
        specialize (Hf i ltac:(lia)).
        destruct (Nat.ltb_spec (f i) a); lia.
      * exists i, j. split; [lia|].
        pose proof (Hne i ltac:(lia)). pose proof (Hne j ltac:(lia)).
        destruct (Nat.ltb_spec (f i) a), (Nat.ltb_spec (f j) a); lia.
Qed.

(** The key of [File('a.h5', rdcc_nbytes=z)]. *)
Definition sized (z : Z) : pydict := [("rdcc_nbytes", PInt z)].

Definition sized_text (z : Z) : string :=
  ("[" +:+ json_quote "a.h5" +:+ "]")
  +:+ ("{" +:+ (json_quote "rdcc_nbytes" +:+ ": " +:+ int_repr z) +:+ "}").

Lemma File_key_sized z :
  File_key [PStr "a.h5"] (sized z) = Some (hash (sized_text z)).
Proof. reflexivity. Qed.

(** The hash of a string is a machine integer, and there are more
    descriptors than machine integers: whatever the hash function, two
    different argument tuples get the same key. *)
Lemma key_collision_exists :
  (forall s, - 2 ^ 63 <= hash s < 2 ^ 63) ->
  exists i j : nat,
    sized (Z.of_nat i) <> sized (Z.of_nat j) /\
    File_key [PStr "a.h5"] (sized (Z.of_nat i))
    = File_key [PStr "a.h5"] (sized (Z.of_nat j)).
Proof.
  intros Hrange.
  destruct (pigeonhole (Z.to_nat (2 ^ 64))
                       (fun i => Z.to_nat (hash (sized_text (Z.of_nat i)) + 2 ^ 63)))
    as (i & j & Hij & E).
  - intros i _. specialize (Hrange (sized_text (Z.of_nat i))).
    apply Z2Nat.inj_lt; lia.
  - exists i, j. rewrite !File_key_sized. split.
    + intros [= H]. lia.
    + f_equal. pose proof (Hrange (sized_text (Z.of_nat i))).
      pose proof (Hrange (sized_text (Z.of_nat j))).
      apply Z2Nat.inj in E; lia.
Qed.

(** Hence, with any hash function, there are two different descriptors such
    that whoever constructs the second after the first is handed the first
    one's handle. *)
Lemma bounded_hash_aliases :
  (forall s, - 2 ^ 63 <= hash s < 2 ^ 63) ->
  exists kwargs1 kwargs2 : pydict,
    kwargs1 <> kwargs2 /\
    forall st r st1,
      File_new [PStr "a.h5"] kwargs1 st = Ok r st1 ->
      exists st2, File_new [PStr "a.h5"] kwargs2 st1 = Ok r st2 /\ opens st2 = opens st1.
Proof.
  intros Hrange. destruct (key_collision_exists Hrange) as (i & j & Hne & Hkey).
  exists (sized (Z.of_nat i)), (sized (Z.of_nat j)). split; [exact Hne|].
  intros st r st1 Hnew.
  destruct (equal_keys_same_handle [PStr "a.h5"] (sized (Z.of_nat i))
              [PStr "a.h5"] (sized (Z.of_nat j)) st r st1
              eq_refl eq_refl Hkey Hnew)
    as (st2 & H2 & Ho & _).
  eauto.
Qed.

End Properties.

(** * The module at work on a small runtime *)

(** A stand-in for the collaborators: strings hash to their length; the
    world numbers the files it opens and remembers which are closed; every
    file holds one dataset, [data], and one group, [grp]; a closed file
    answers no lookup. *)
Module Demo.

Definition demo_hash (s : string) : Z := Z.of_nat (String.length s).

Record demo_world : Type := mkWorld {
  next_id : nat;
  closed : list nat
}.

Definition is_closed (n : nat) (w : demo_world) : bool :=
  existsb (Nat.eqb n) (closed w).

Definition demo_open (args : list pyval) (kwargs : pydict) (w : demo_world)
  : demo_world * (exn + nat) :=
  match args with
  | PStr s :: _ =>
      if String.eqb s "" then (w, inl OSError)
      else (mkWorld (S (next_id w)) (closed w), inr (next_id w))
  | _ => (w, inl TypeError)
  end.

Definition demo_close (n : nat) (w : demo_world) : demo_world * option exn :=
  (mkWorld (next_id w) (n :: closed w), None).

Definition demo_lookup (n : nat) (name : string) (w : demo_world)
  : demo_world * (exn + node) :=
  if is_closed n w then (w, inl ValueError)
  else if String.eqb name "data" then (w, inr (NDataset n))
  else if String.eqb name "grp" then (w, inr (NGroup n))
  else (w, inl KeyError).

Definition demo_read (d : nat) (w : demo_world) : demo_world * (exn + pyval) :=
  if is_closed d w then (w, inl ValueError) else (w, inr (PInt (Z.of_nat d))).

Definition demo_rt : Runtime := {|
  hash := demo_hash;
  world := demo_world;
  h5_open := demo_open;
  h5_close := demo_close;
  h5_lookup := demo_lookup;
  h5_dataset_file_name := fun _ _ => "a.h5";
  h5_dataset_file_mode := fun _ _ => PStr "r";
  h5_dataset_name := fun _ _ => "data";
  h5_group_name := fun _ _ => "grp";
  h5_dataset_getattr := fun d _ => demo_read d;
  h5_dataset_getitem := fun d _ => demo_read d;
  h5_getnewargs := inl TypeError
|}.

#[local] Existing Instance demo_rt.

Abbreviation dstate := (@state demo_rt).

(** The state a result ends in. *)
Definition state_of {A} (res : @result demo_rt A) : dstate :=
  match res with
  | Ok _ st => st
  | Raise _ st => st
  end.

(** The module as imported: [cache = LRUFileCache(1000)], nothing open. *)
Definition st0 : dstate := mkState cache_init [] (mkWorld 0 []) 0.

(** The same with [LRUFileCache(1)], to reach evictions at once. *)
Definition small0 : dstate := mkState (mkCache 1 [] []) [] (mkWorld 0 []) 0.

Definition a_h5 : list pyval := [PStr "a.h5"].
Definition b_h5 : list pyval := [PStr "b.h5"].
Definition bb_h5 : list pyval := [PStr "bb.h5"].
Definition mode_r : pydict := [("mode", PStr "r")].

(** After [File('a.h5', mode='r')]. *)
Definition st_a : dstate := state_of (File_new a_h5 mode_r st0).

(** [LRUFileCache(1)] after [File('b.h5')]: a full cache. *)
Definition small_b : dstate := state_of (File_new b_h5 [] small0).

(** A cache of one entry whose value raises [OSError] from [close]. *)
Definition st_bad : dstate :=
  mkState (mkCache 1 [(1, 0%nat)] [1]) [OOther (CloseRaises OSError)] (mkWorld 0 []) 0.

(** A cache of one entry whose value is a plain integer. *)
Definition st_int : dstate :=
  mkState (mkCache 1 [(1, 0%nat)] [1]) [OInt 5] (mkWorld 0 []) 0.

(** A proxy for [data] in [a.h5] whose captured dataset is long gone. *)
Definition stale : Dataset := mkDataset "a.h5" (PStr "r") "data" (Some 7%nat).

Example st_a_cache :
  data (cache st_a) = [(21, 0%nat)] /\ opens st_a = 1%nat /\
  heap st_a = [OFile (mkFile a_h5 mode_r (PBool false) (Some 21) 0)].
Proof. vm_compute. auto. Qed.

(** The [File] object made by [File('a.h5', mode='r')]. *)
Definition file_a : FileObj := mkFile a_h5 mode_r (PBool false) (Some 21) 0.

(** *** C1 *)

Lemma File_new_twice_witness :
  exists st2,
    File_new a_h5 mode_r st_a = Ok 0%nat st2 /\
    opens st2 = opens st_a /\ env st2 = env st_a /\
    data (cache st2) = data (cache st_a).
Proof.
  apply (File_new_twice_same_handle a_h5 mode_r st0 0%nat st_a); reflexivity.
Defined.

(** *** Access after an eviction *)

(** Storing the re-opened [a.h5] in the full [LRUFileCache(1)] evicts and
    closes [b.h5]. *)
Definition small_reopened : dstate :=
  state_of (cache_setitem 21 1%nat (opened stale 1%nat (mkWorld 2 []) small_b)).

Example small_reopened_evicts :
  data (cache small_reopened) = [(21, 1%nat)] /\
  closed (env small_reopened) = [0%nat].
Proof. vm_compute. auto. Qed.

Example Dataset_access_demo :
  exists st',
    Dataset_getattr stale "shape" small_b = Ok (PInt 1) st' /\
    Dataset_getitem stale (PInt 0) small_b = Ok (PInt 1) st' /\
    opens st' = 2%nat.
Proof.
  destruct (Dataset_access_stored stale "shape" (PInt 0) small_b 21
              (mkWorld 2 []) 1%nat small_reopened (env small_reopened) 1%nat)
    as (Ha & Hi & _); try reflexivity.
  eexists. rewrite Ha, Hi. repeat split; reflexivity.
Defined.

(** *** C3 *)

Lemma pickle_proxy_witness :
  descriptor_only
    (PkNew "Dataset" [] []
           [("file_name", PkData (PStr "a.h5")); ("file_mode", PkData (PStr "r"));
            ("dataset_name", PkData (PStr "data"))]) = true.
Proof.
  apply (pickle_proxy_descriptor_only (ProxyDataset stale) st0 _ st0). reflexivity.
Defined.

(** A group is not pickled at all: h5py's [__getnewargs__] raises.  The
    state its [__getstate__] returns names the root, which pickles as a
    descriptor. *)
Example pickle_Group_demo :
  pickle_proxy (ProxyGroup (mkGroup 0 (Some 0%nat))) st_a = Raise TypeError st_a /\
  Group_getstate (mkGroup 0 (Some 0%nat)) st_a
  = Ok [("name", AData (PStr "grp")); ("file", AFile 0%nat)] st_a /\
  pickle_state (heap st_a) [("name", AData (PStr "grp")); ("file", AFile 0%nat)]
  = Some [("name", PkData (PStr "grp"));
          ("file", PkNew "File" a_h5 [("mode", PStr "r"); ("skip_cache", PBool false)] [])].
Proof. repeat split. Qed.

(** *** C4 *)

Lemma unpickle_File_witness :
  exists f,
    heap st_a !! 0%nat = Some (OFile f) /\
    pickle_File f
      = PkNew "File" a_h5 (open_kwargs mode_r ++ [("skip_cache", skip_flag mode_r)]) [] /\
    exists st2,
      unpickle_File (pickle_File f) st_a = Ok 0%nat st2 /\
      opens st2 = opens st_a /\ env st2 = env st_a.
Proof.
  apply (unpickle_File_cached a_h5 mode_r 21 st0 0%nat st_a st_a 0%nat file_a);
    try reflexivity.
  vm_compute. repeat constructor; intros H; inversion H.
Defined.

Example unpickle_File_demo :
  pickle_File file_a
  = PkNew "File" a_h5 [("mode", PStr "r"); ("skip_cache", PBool false)] [] /\
  exists st2, unpickle_File (pickle_File file_a) st_a = Ok 0%nat st2 /\ opens st2 = 1%nat.
Proof. split; [reflexivity|]. eexists. split; reflexivity. Qed.

(** *** C5 *)

Lemma eviction_witness :
  LRUFileCache_popitem small_b
    = Ok (10, 0%nat) (state_of (LRUFileCache_popitem small_b)) /\
  exists st', cache_setitem 21 1%nat small_b = Ok tt st' /\
              data (cache st') = [(21, 1%nat)] /\ closed (env st') = [0%nat].
Proof.
  destruct (eviction_swallows_AttributeError_only small_b 10 0%nat
              (state_of (LRUCache_popitem small_b)) 21 1%nat)
    as [Hp Hs]; try reflexivity.
  split; [rewrite Hp; reflexivity|].
  eexists. rewrite Hs. split; [reflexivity|]. vm_compute. auto.
Defined.

(** A value whose [close] raises [OSError]: the eviction raises it, and so
    does the insertion that needed the room. *)
Lemma eviction_close_error_propagates :
  (exists st', LRUFileCache_popitem st_bad = Raise OSError st') /\
  (exists st', cache_setitem 2 0%nat st_bad = Raise OSError st' /\
               data (cache st') = []).
Proof. split; eexists; [|split]; reflexivity. Qed.

Example eviction_of_int :
  exists st', cache_setitem 2 0%nat st_int = Ok tt st' /\
              data (cache st') = [(2, 0%nat)].
Proof. eexists. split; reflexivity. Qed.

(** *** C6 *)

(** After [File('a.h5', mode='r').close()]. *)
Definition st_closed : dstate := state_of (File_close 0%nat st_a).

Lemma File_close_witness :
  assoc_get 21 (data (cache st_closed)) = Some 0%nat /\
  heap st_closed !! 0%nat = Some (OFile file_a).
Proof.
  apply (File_close_leaves_handle_cached 0%nat file_a 21 st_a st_closed); reflexivity.
Defined.

(** The file is closed natively, its entry is still cached, the next
    [File('a.h5', mode='r')] is served the closed handle without any open,
    and a lookup through it fails. *)
Example closed_handle_is_served :
  File_close 0%nat st_a = Ok tt st_closed /\
  closed (env st_closed) = [0%nat] /\
  data (cache st_closed) = [(21, 0%nat)] /\
  (exists st2, File_new a_h5 mode_r st_closed = Ok 0%nat st2 /\ opens st2 = opens st_closed) /\
  (exists st2, Dataset_getitem stale (PInt 0) st_closed = Raise ValueError st2).
Proof.
  repeat split; try reflexivity; eexists; [split|]; reflexivity.
Qed.

(** *** C7 *)

Definition bypass_r : pydict := [("mode", PStr "r"); ("skip_cache", PBool true)].

Lemma File_new_skip_cache_witness :
  opens (state_of (File_new a_h5 bypass_r st_a)) = S (opens st_a) /\
  cache (state_of (File_new a_h5 bypass_r st_a)) = cache st_a /\
  forall r2 st2,
    File_new a_h5 mode_r (state_of (File_new a_h5 bypass_r st_a)) = Ok r2 st2 ->
    r2 <> 1%nat.
Proof.
  destruct (File_new_skip_cache a_h5 bypass_r st_a 1%nat
              (state_of (File_new a_h5 bypass_r st_a)))
    as (Ho & _ & Hc & _ & Hind); try reflexivity.
  { repeat constructor. }
  split; [exact Ho|]. split; [exact Hc|].
  intros r2 st2. apply Hind; reflexivity.
Defined.

(** *** C8 *)

(** After [File('a.h5', mode='r')] and then [File('bb.h5')]. *)
Definition st_ab : dstate := state_of (File_new bb_h5 [] st_a).

Lemma distinct_keys_witness :
  File_new a_h5 mode_r st0 = Ok 0%nat st_a /\
  File_new bb_h5 [] st_a = Ok 1%nat st_ab /\
  0%nat <> 1%nat.
Proof.
  split; [reflexivity|]. split; [reflexivity|].
  apply (distinct_keys_distinct_handles a_h5 mode_r bb_h5 [] st0 0%nat st_a 1%nat st_ab).
  - apply cache_ok_init.
  - discriminate.
  - reflexivity.
  - reflexivity.
Defined.

(** Two files, one key: the second construction is handed the first file. *)
Lemma hash_collision_aliases :
  a_h5 <> b_h5 /\
  exists st1 st2,
    File_new a_h5 [] st0 = Ok 0%nat st1 /\
    File_new b_h5 [] st1 = Ok 0%nat st2 /\
    opens st2 = 1%nat /\
    heap st2 !! 0%nat = Some (OFile (mkFile a_h5 [] (PBool false) (Some 10) 0)).
Proof.
  split; [discriminate|]. do 2 eexists. repeat split; reflexivity.
Qed.

(** *** Least recently used first *)

Definition c_h5 : list pyval := [PStr "ccc.h5"].

(** [LRUFileCache(2)] after [File('a.h5')], [File('bb.h5')] and then
    [File('ccc.h5')], and after [File('a.h5')] once more. *)
Definition small2 : dstate := mkState (mkCache 2 [] []) [] (mkWorld 0 []) 0.
Definition small2_abc : dstate :=
  state_of (File_new c_h5 [] (state_of (File_new bb_h5 [] (state_of (File_new a_h5 [] small2))))).
Definition small2_abca : dstate := state_of (File_new a_h5 [] small2_abc).

(** The first file has been evicted and closed natively; constructing it
    again opens it anew, as another object. *)
Example evicted_file_is_reopened :
  File_new a_h5 [] small2 = Ok 0%nat (state_of (File_new a_h5 [] small2)) /\
  data (cache small2_abc) = [(11, 1%nat); (12, 2%nat)] /\
  closed (env small2_abc) = [0%nat] /\
  File_new a_h5 [] small2_abc = Ok 3%nat small2_abca /\
  opens small2_abca = 4%nat /\ closed (env small2_abca) = [1%nat; 0%nat].
Proof. vm_compute. repeat split. Qed.

(** *** The flag *)

Example skip_cache_demo :
  File_key a_h5 (("skip_cache", PBool true) :: mode_r) = File_key a_h5 mode_r /\
  File_new a_h5 (("skip_cache", PBool false) :: mode_r) st0 = File_new a_h5 mode_r st0 /\
  (forall r st' f,
      File_new a_h5 (("skip_cache", PBool true) :: mode_r) st0 = Ok r st' ->
      heap st' !! r = Some (OFile f) ->
      hsh f = File_key a_h5 mode_r).
Proof.
  apply (skip_cache_popped a_h5 [] mode_r (PBool true) st0). reflexivity.
Qed.

(** *** C10 *)

Lemma File_new_not_serializable_witness :
  File_new [PObj 0] mode_r st_a = Raise TypeError st_a.
Proof.
  apply (File_new_not_serializable [PObj 0] mode_r st_a). reflexivity.
Defined.

(** The flag itself is not hashed: any object will do for it. *)
Example skip_cache_object :
  exists st', File_new a_h5 [("skip_cache", PObj 0)] st0 = Ok 0%nat st' /\
              data (cache st') = [].
Proof. eexists. split; reflexivity. Qed.

End Demo.

(** * The module as a whole *)

Section More.
Context {RT : Runtime}.

(** The state a computation ends in, whether it returns or raises. *)
Definition final {A} (res : result A) : state :=
  match res with
  | Ok _ st => st
  | Raise _ st => st
  end.

(** ** The invariant of the module *)

(** The cache is well formed: no key twice, the recency order lists exactly
    the keys of the dictionary, and the capacity, at least one, is
    respected. *)
Definition cache_wf (c : LRUCache) : Prop :=
  NoDup (map fst (data c)) /\
  NoDup (order c) /\
  (forall k, key_in k (order c) = cache_contains k c) /\
  (length (data c) <= maxsize c)%nat /\
  (1 <= maxsize c)%nat.

(** Every cached value is a [File] whose [hsh] is the key it is stored
    under. *)
Definition cache_files (st : state) : Prop :=
  forall k r, assoc_get k (data (cache st)) = Some r ->
              exists f, heap st !! r = Some (OFile f) /\ hsh f = Some k.

Definition module_inv (st : state) : Prop :=
  cache_wf (cache st) /\ cache_files st.

Lemma module_inv_init w : module_inv (mkState cache_init [] w 0).
Proof.
  split.
  - repeat split; simpl; try apply NoDup_nil_2; lia.
  - intros k r H. discriminate H.
Qed.

(** *** Lists of keys *)

Lemma key_in_spec k o : key_in k o = true <-> k ∈ o.
Proof.
  unfold key_in. rewrite existsb_exists. split.
  - intros (x & Hx & E). apply Z.eqb_eq in E. subst. now apply list_elem_of_In.
  - intros H. exists k. split; [now apply list_elem_of_In|apply Z.eqb_refl].
Qed.

Lemma key_in_order_del k k' o :
  key_in k (order_del k' o) = key_in k o && negb (Z.eqb k k').
Proof.
  induction o as [|x o IH]; simpl; [reflexivity|].
  destruct (Z.eqb_spec x k') as [->|Hne]; simpl.
  - rewrite IH. destruct (Z.eqb_spec k k'); simpl; [now rewrite andb_false_r|reflexivity].
  - rewrite IH. destruct (Z.eqb_spec k x) as [->|]; simpl; [|reflexivity].
    destruct (Z.eqb_spec x k'); [congruence|reflexivity].
Qed.

Lemma key_in_app k o1 o2 : key_in k (o1 ++ o2) = key_in k o1 || key_in k o2.
Proof. apply existsb_app. Qed.

Lemma key_in_update k k' o :
  key_in k (order_update k' o) = key_in k o || Z.eqb k k'.
Proof.
  unfold order_update. rewrite key_in_app, key_in_order_del. simpl.
  destruct (key_in k o), (Z.eqb k k'); reflexivity.
Qed.

Lemma order_del_NoDup k o : NoDup o -> NoDup (order_del k o).
Proof.
  induction 1 as [|x o Hx Hnd IH]; simpl; [constructor|].
  destruct (negb _); [|assumption]. constructor; [|assumption].
  intros Hin. apply Hx. apply key_in_spec. apply key_in_spec in Hin.
  rewrite key_in_order_del in Hin. now apply andb_true_iff in Hin as [? _].
Qed.

Lemma order_update_NoDup k o : NoDup o -> NoDup (order_update k o).
Proof.
  intros Hnd. unfold order_update. apply NoDup_app. split; [now apply order_del_NoDup|].
  split; [|apply NoDup_singleton].
  intros x Hx Hk. apply list_elem_of_singleton in Hk. subst x.
  apply key_in_spec in Hx. rewrite key_in_order_del, Z.eqb_refl in Hx.
  now rewrite andb_false_r in Hx.
Qed.

Lemma order_del_absent k o : key_in k o = false -> order_del k o = o.
Proof.
  induction o as [|x o IH]; simpl; [reflexivity|].
  rewrite (Z.eqb_sym k x). destruct (Z.eqb x k); simpl; [discriminate|].
  intros H. now rewrite IH.
Qed.

Lemma cache_contains_del k k' c o :
  cache_contains k (mkCache (maxsize c) (assoc_del k' (data c)) o)
  = cache_contains k c && negb (Z.eqb k k').
Proof.
  unfold cache_contains. simpl. destruct (Z.eqb_spec k k') as [->|Hne].
  - rewrite assoc_get_del_eq. now rewrite andb_false_r.
  - rewrite assoc_get_del_ne by assumption. now rewrite andb_true_r.
Qed.

Lemma assoc_del_keys_NoDup k l : NoDup (map fst l) -> NoDup (map fst (assoc_del k l)).
Proof.
  intros H. eapply sublist_NoDup; [exact H|]. apply sublist_map, assoc_del_sublist.
Qed.

Lemma assoc_get_None_not_in k l : assoc_get k l = None -> k ∉ map fst l.
Proof.
  induction l as [|[k0 v0] l IH]; simpl; [intros _; apply not_elem_of_nil|].
  destruct (Z.eqb_spec k k0); [discriminate|]. intros H.
  apply not_elem_of_cons. auto.
Qed.

Lemma assoc_set_absent k v l : assoc_get k l = None -> assoc_set k v l = l ++ [(k, v)].
Proof.
  induction l as [|[k0 v0] l IH]; simpl; [reflexivity|].
  destruct (Z.eqb k k0); [discriminate|]. intros H. now rewrite IH.
Qed.

Lemma assoc_set_keys_present k v l :
  is_Some (assoc_get k l) -> map fst (assoc_set k v l) = map fst l.
Proof.
  induction l as [|[k0 v0] l IH]; simpl; [intros [? [=]]|].
  destruct (Z.eqb_spec k k0) as [->|]; simpl; [reflexivity|].
  intros H. now rewrite IH.
Qed.

(** *** Well-formedness, operation by operation *)

Lemma cache_wf_touch c k :
  cache_wf c -> cache_contains k c = true ->
  cache_wf (mkCache (maxsize c) (data c) (order_update k (order c))).
Proof.
  intros (Hd & Ho & Hk & Hl & Hm) Hc. repeat split; simpl; try assumption.
  - now apply order_update_NoDup.
  - intros k'. rewrite key_in_update, Hk. unfold cache_contains in *. simpl.
    destruct (Z.eqb_spec k' k) as [->|]; [|now rewrite orb_false_r].
    destruct (assoc_get k (data c)); [reflexivity|discriminate].
Qed.

Lemma cache_wf_del c k :
  cache_wf c ->
  cache_wf (mkCache (maxsize c) (assoc_del k (data c)) (order_del k (order c))).
Proof.
  intros (Hd & Ho & Hk & Hl & Hm). repeat split; simpl; try assumption.
  - now apply assoc_del_keys_NoDup.
  - now apply order_del_NoDup.
  - intros k'. rewrite key_in_order_del, Hk.
    now rewrite (cache_contains_del k' k c (order_del k (order c))).
  - pose proof (sublist_length _ _ (assoc_del_sublist k (data c))). lia.
Qed.

Lemma cache_wf_store_absent c k v :
  cache_wf c -> cache_contains k c = false ->
  (length (data c) < maxsize c)%nat ->
  cache_wf (mkCache (maxsize c) (assoc_set k v (data c)) (order_update k (order c))).
Proof.
  intros (Hd & Ho & Hk & Hl & Hm) Hc Hroom.
  assert (Hnone : assoc_get k (data c) = None).
  { unfold cache_contains in Hc. destruct (assoc_get k (data c)); [discriminate|reflexivity]. }
  repeat split; simpl; try assumption.
  - rewrite assoc_set_absent by assumption. rewrite map_app. simpl.
    apply NoDup_app. split; [assumption|]. split; [|apply NoDup_singleton].
    intros x Hx Hk'. apply list_elem_of_singleton in Hk'. subst x.
    now apply (assoc_get_None_not_in _ _ Hnone).
  - now apply order_update_NoDup.
  - intros k'. rewrite key_in_update, Hk. unfold cache_contains. simpl.
    destruct (Z.eqb_spec k' k) as [->|Hne].
    + now rewrite assoc_get_set_eq, orb_true_r.
    + now rewrite assoc_get_set_ne, orb_false_r.
  - rewrite assoc_set_absent by assumption. rewrite length_app. simpl. lia.
Qed.

Lemma cache_wf_store_present c k v :
  cache_wf c -> cache_contains k c = true ->
  cache_wf (mkCache (maxsize c) (assoc_set k v (data c)) (order_update k (order c))).
Proof.
  intros (Hd & Ho & Hk & Hl & Hm) Hc.
  assert (Hsome : is_Some (assoc_get k (data c))).
  { unfold cache_contains in Hc. destruct (assoc_get k (data c)); [eauto|discriminate]. }
  repeat split; simpl; try assumption.
  - now rewrite assoc_set_keys_present.
  - now apply order_update_NoDup.
  - intros k'. rewrite key_in_update, Hk. unfold cache_contains. simpl.
    destruct (Z.eqb_spec k' k) as [->|Hne].
    + rewrite assoc_get_set_eq, orb_true_r. reflexivity.
    + now rewrite assoc_get_set_ne, orb_false_r.
  - assert (E : length (assoc_set k v (data c)) = length (data c)).
    { rewrite <- (length_map fst), assoc_set_keys_present by assumption.
      apply length_map. }
    lia.
Qed.

(** What the cache operations and [close] keep: the heap; the
    well-formedness of the cache; and they bind no key anew. *)
Definition inv_step (st st' : state) : Prop :=
  heap st' = heap st /\
  (cache_wf (cache st) -> cache_wf (cache st')) /\
  (forall k r, assoc_get k (data (cache st')) = Some r ->
               assoc_get k (data (cache st)) = Some r).

Lemma inv_step_intro st st' :
  heap st' = heap st ->
  (cache_wf (cache st) -> cache_wf (cache st')) ->
  (forall k r, assoc_get k (data (cache st')) = Some r ->
               assoc_get k (data (cache st)) = Some r) ->
  inv_step st st'.
Proof. intros H1 H2 H3. split; [exact H1|split; [exact H2|exact H3]]. Qed.

#[local] Instance inv_step_refl : Reflexive inv_step.
Proof. intros st. apply inv_step_intro; auto. Qed.

#[local] Instance inv_step_trans : Transitive inv_step.
Proof.
  intros a b c (H1 & H2 & H3) (H1' & H2' & H3').
  apply inv_step_intro; [congruence|auto|auto].
Qed.

Lemma inv_step_module st st' : inv_step st st' -> module_inv st -> module_inv st'.
Proof.
  intros (Hh & Hwf & Hget) [Hw Hf]. split; [auto|].
  intros k r Hr. rewrite Hh. apply Hf. auto.
Qed.

Lemma inv_step_getitem key : always inv_step (LRUCache_getitem key).
Proof.
  intros st. unfold LRUCache_getitem.
  destruct (assoc_get key (data (cache st))) eqn:E; [|reflexivity].
  apply inv_step_intro; simpl; auto. intros Hwf. apply cache_wf_touch; [assumption|].
  unfold cache_contains. now rewrite E.
Qed.

Lemma inv_step_delitem key : always inv_step (LRUCache_delitem key).
Proof.
  intros st. unfold LRUCache_delitem.
  destruct (cache_contains key (cache st)) eqn:Hc; [|reflexivity].
  assert (Hget : forall k r, assoc_get k (assoc_del key (data (cache st))) = Some r ->
                             assoc_get k (data (cache st)) = Some r).
  { intros k r. destruct (Z.eq_dec k key) as [->|Hne].
    - now rewrite assoc_get_del_eq.
    - now rewrite assoc_get_del_ne. }
  destruct (key_in key (order (cache st))) eqn:Hk; apply inv_step_intro; simpl; auto.
  - intros Hwf. now apply cache_wf_del.
  - intros (_ & _ & Hkeys & _). rewrite Hkeys, Hc in Hk. discriminate.
Qed.

Lemma inv_step_pop key : always inv_step (Cache_pop key).
Proof.
  intros st. unfold Cache_pop. destruct (cache_contains key _); [|reflexivity].
  apply (always_bind inv_step); [apply inv_step_getitem|]. intros v.
  apply (always_bind inv_step); [apply inv_step_delitem|]. intros _.
  apply always_ret, _.
Qed.

Lemma inv_step_LRUCache_popitem : always inv_step LRUCache_popitem.
Proof.
  intros st. unfold LRUCache_popitem. destruct (order _); [reflexivity|].
  apply (always_bind inv_step); [apply inv_step_pop|]. intros v.
  apply always_ret, _.
Qed.

Lemma inv_step_native {A} (f : world -> world * (exn + A)) : always inv_step (native f).
Proof.
  intros st. unfold native.
  destruct (f (env st)) as [w [e|a]]; apply inv_step_intro; auto.
Qed.

Lemma inv_step_get_hsh r : always inv_step (get_hsh r).
Proof.
  intros st. unfold get_hsh.
  destruct (heap st !! r) as [[f| |]|]; try reflexivity.
  destruct (hsh f); reflexivity.
Qed.

Lemma inv_step_close_loop r keys : always inv_step (close_loop r keys).
Proof.
  induction keys as [|key keys IH]; simpl; [apply always_ret, _|].
  apply (always_bind inv_step); [apply inv_step_getitem|]. intros v.
  apply (always_bind inv_step); [apply inv_step_get_hsh|]. intros h.
  apply (always_bind inv_step); [|intros _; exact IH].
  intros st. destruct (value_eq_int v h st); [apply inv_step_delitem|reflexivity].
Qed.

Lemma inv_step_File_close r : always inv_step (File_close r).
Proof.
  intros st. unfold File_close. destruct (heap st !! r) as [[f| |]|]; try reflexivity.
  apply (always_bind inv_step); [apply inv_step_native|]. intros _ st'.
  apply inv_step_close_loop.
Qed.

Lemma inv_step_obj_close r : always inv_step (obj_close r).
Proof.
  intros st. unfold obj_close.
  destruct (heap st !! r) as [[f| |[| |e]]|]; try reflexivity.
  apply inv_step_File_close.
Qed.

Lemma inv_step_popitem : always inv_step LRUFileCache_popitem.
Proof.
  unfold LRUFileCache_popitem.
  apply (always_bind inv_step); [apply inv_step_LRUCache_popitem|]. intros kv.
  apply (always_bind inv_step); [apply always_try, inv_step_obj_close|]. intros _.
  apply always_ret, _.
Qed.

Lemma inv_step_evict_loop fuel : always inv_step (evict_loop fuel).
Proof.
  induction fuel as [|fuel IH]; intros st; simpl;
    destruct (_ <? _)%nat; try reflexivity.
  apply (always_bind inv_step); [apply inv_step_popitem|]. intros _. exact IH.
Qed.

(** When the loop of [__setitem__] is over, there is room for one entry. *)
Lemma evict_loop_Ok_room fuel st u st' :
  evict_loop fuel st = Ok u st' ->
  (length (data (cache st')) < maxsize (cache st'))%nat.
Proof.
  revert st. induction fuel as [|fuel IH]; intros st; simpl.
  - destruct (Nat.ltb_spec (maxsize (cache st)) (length (data (cache st)) + 1));
      [discriminate|]. intros H'. inversion H'; subst. lia.
  - destruct (Nat.ltb_spec (maxsize (cache st)) (length (data (cache st)) + 1)).
    + intros H'. apply bind_Ok in H' as (kv & st1 & _ & H'). eauto.
    + intros H'. inversion H'; subst. lia.
Qed.

Lemma always_final {A} (R : state -> state -> Prop) (m : M A) st :
  always R m -> R st (final (m st)).
Proof. intros H. specialize (H st). destruct (m st); exact H. Qed.

(** [cache[key] = value] on a well-formed cache, whether it returns or
    raises: the cache stays well formed, the heap is untouched, and the only
    binding that may be new is the one being stored. *)
Lemma cache_setitem_inv key value st :
  cache_wf (cache st) ->
  heap (final (cache_setitem key value st)) = heap st /\
  cache_wf (cache (final (cache_setitem key value st))) /\
  (forall k r,
      assoc_get k (data (cache (final (cache_setitem key value st)))) = Some r ->
      (k = key /\ r = value /\ exists u st', cache_setitem key value st = Ok u st')
      \/ assoc_get k (data (cache st)) = Some r).
Proof.
  intros Hwf. unfold cache_setitem.
  destruct (Nat.ltb_spec (maxsize (cache st)) 1).
  { simpl. auto. }
  unfold bind.
  destruct (cache_contains key (cache st)) eqn:Hc.
  - simpl. split; [reflexivity|]. split; [now apply cache_wf_store_present|].
    intros k r. destruct (Z.eq_dec k key) as [->|Hne].
    + rewrite assoc_get_set_eq. intros [= <-]. left. eauto.
    + rewrite assoc_get_set_ne by assumption. auto.
  - pose proof (always_final inv_step _ st (inv_step_evict_loop (length (data (cache st)))))
      as (Hh & Hw & Hget).
    destruct (evict_loop (length (data (cache st))) st) as [u st1|e st1] eqn:Hloop;
      simpl in *.
    + assert (Hc1 : cache_contains key (cache st1) = false).
      { unfold cache_contains in *.
        destruct (assoc_get key (data (cache st1))) as [r|] eqn:E; [|reflexivity].
        apply Hget in E. now rewrite E in Hc. }
      split; [assumption|]. split.
      * apply cache_wf_store_absent; [auto|assumption|].
        eapply evict_loop_Ok_room; eassumption.
      * intros k r. destruct (Z.eq_dec k key) as [->|Hne].
        -- rewrite assoc_get_set_eq. intros [= <-]. left. eauto.
        -- rewrite assoc_get_set_ne by assumption. auto.
    + split; [assumption|]. split; [auto|]. intros k r Hr. right. auto.
Qed.

Lemma cache_files_extend st o :
  cache_files st ->
  forall k r, assoc_get k (data (cache st)) = Some r ->
              exists f, (heap st ++ [o]) !! r = Some (OFile f) /\ hsh f = Some k.
Proof.
  intros Hf k r Hr. destruct (Hf k r Hr) as (f & Hl & Hh). exists f. split; [|exact Hh].
  rewrite lookup_app_l; [exact Hl|]. eapply lookup_lt_Some, Hl.
Qed.

Lemma FileObj_eta f h :
  hsh f = Some h ->
  mkFile (init_args f) (init_kwargs f) (skip_cache f) (Some h) (fid f) = f.
Proof. destruct f; simpl. now intros ->. Qed.

Lemma module_inv_File_new args kwargs st :
  module_inv st -> module_inv (final (File_new args kwargs st)).
Proof.
  intros [Hwf Hfiles]. rewrite File_new_unfold.
  destruct (File_key args kwargs) as [h|] eqn:Hk; [|split; assumption].
  destruct (truthy (skip_flag kwargs)) eqn:Hs; simpl.
  - (* the cache is bypassed *)
    unfold bind at 1. unfold native_open, native. simpl.
    destruct (h5_open _ _ _) as [w [e|n]]; simpl; [split; assumption|].
    unfold bind, alloc, set_hsh. simpl.
    rewrite lookup_app_r by lia. rewrite Nat.sub_diag. simpl.
    split; [assumption|]. intros k r Hr. simpl in *.
    rewrite insert_app_r_alt by lia. rewrite Nat.sub_diag. simpl.
    eapply cache_files_extend in Hr; [|exact Hfiles]. exact Hr.
  - destruct (cache_contains h (cache st)) eqn:Hc; simpl.
    + (* a hit *)
      unfold cache_contains in Hc.
      destruct (assoc_get h (data (cache st))) as [r|] eqn:Hr; [|discriminate].
      destruct (Hfiles h r Hr) as (f & Hf & Hh).
      unfold bind, LRUCache_getitem. rewrite Hr. unfold set_hsh. simpl. rewrite Hf. simpl.
      rewrite (FileObj_eta f h Hh), list_insert_id by assumption.
      split; simpl.
      * apply cache_wf_touch; [assumption|]. unfold cache_contains. now rewrite Hr.
      * exact Hfiles.
    + (* a miss *)
      unfold bind at 1. unfold native_open, native. simpl.
      destruct (h5_open _ _ _) as [w [e|n]]; simpl; [split; assumption|].
      unfold bind at 1. unfold alloc at 1. simpl.
      unfold bind at 1. unfold set_heap, set_env. simpl.
      match goal with |- context [cache_setitem h ?r ?s] =>
        pose proof (cache_setitem_inv h r s Hwf) as (Hheap & Hwf' & Hget);
        destruct (cache_setitem h r s) as [[] stc|e stc] eqn:Hset end; simpl in *.
      * unfold bind, set_hsh. rewrite Hheap.
        rewrite lookup_app_r by lia. rewrite Nat.sub_diag. simpl.
        rewrite insert_app_r_alt by lia. rewrite Nat.sub_diag. simpl.
        split; [exact Hwf'|]. intros k r Hr. simpl in *.
        destruct (Hget k r Hr) as [(-> & -> & _)|Hold].
        -- exists (mkFile args (open_kwargs kwargs) (skip_flag kwargs) (Some h) n).
           split; [|reflexivity].
           rewrite lookup_app_r by lia. now rewrite Nat.sub_diag.
        -- destruct (Hfiles k r Hold) as (f & Hl & Hh). exists f. split; [|exact Hh].
           rewrite lookup_app_l; [exact Hl|]. eapply lookup_lt_Some, Hl.
      * split; [exact Hwf'|]. intros k r Hr. rewrite Hheap.
        destruct (Hget k r Hr) as [(_ & _ & u & st' & [=])|Hold].
        eapply cache_files_extend in Hold; [|exact Hfiles]. exact Hold.
Qed.

Lemma module_inv_File_close r st :
  module_inv st -> module_inv (final (File_close r st)).
Proof.
  intros Hinv. eapply inv_step_module; [|exact Hinv].
  apply always_final, inv_step_File_close.
Qed.

(** X1.  [File(...)] keeps the invariant of the module, whether it returns
    a handle or raises: the cache stays well formed, holds at most
    [maxsize] entries, and holds only files that carry their key. *)
Theorem File_new_keeps_invariant args kwargs st :
  module_inv st ->
  (forall r st', File_new args kwargs st = Ok r st' ->
                 module_inv st' /\ (length (data (cache st')) <= maxsize (cache st'))%nat) /\
  (forall e st', File_new args kwargs st = Raise e st' ->
                 module_inv st' /\ (length (data (cache st')) <= maxsize (cache st'))%nat).
Proof.
  intros Hinv. pose proof (module_inv_File_new args kwargs st Hinv) as Hfin.
  split; intros x st' Hres; rewrite Hres in Hfin; simpl in Hfin;
    (split; [exact Hfin|]); destruct Hfin as [(_ & _ & _ & Hlen & _) _]; exact Hlen.
Qed.

(** X2.  [close()] keeps the invariant too, on any object, cached or not,
    whether it returns or raises. *)
Theorem File_close_keeps_invariant r st :
  module_inv st ->
  (forall u st', File_close r st = Ok u st' -> module_inv st') /\
  (forall e st', File_close r st = Raise e st' -> module_inv st').
Proof.
  intros Hinv. pose proof (module_inv_File_close r st Hinv) as Hfin.
  split; intros x st' Hres; rewrite Hres in Hfin; exact Hfin.
Qed.

(** ** [File.close] and the recency order *)

(** Reading the keys one after the other, as the loop of [close] does. *)
Definition touch_all (keys : list Z) (o : list Z) : list Z :=
  foldl (fun o k => order_update k o) o keys.

Lemma filter_order_del k (keys o : list Z) :
  List.filter (fun x => negb (key_in x keys)) (order_del k o)
  = List.filter (fun x => negb (key_in x (k :: keys))) o.
Proof.
  induction o as [|x o IH]; simpl; [reflexivity|].
  destruct (Z.eqb_spec x k) as [->|Hne]; simpl.
  - exact IH.
  - rewrite IH. reflexivity.
Qed.

Lemma touch_all_eq keys o :
  NoDup keys ->
  touch_all keys o = List.filter (fun x => negb (key_in x keys)) o ++ keys.
Proof.
  intros Hnd. revert o. induction Hnd as [|k keys Hk Hnd IH]; intros o; simpl.
  - rewrite app_nil_r. symmetry. apply List.forallb_filter_id. now apply forallb_forall.
  - rewrite IH. unfold order_update. rewrite List.filter_app. simpl.
    assert (E : key_in k keys = false).
    { destruct (key_in k keys) eqn:E; [|reflexivity].
      apply key_in_spec in E. contradiction. }
    rewrite E. simpl. rewrite filter_order_del. now rewrite <- app_assoc.
Qed.

(** When the recency order lists the keys of the dictionary, reading every
    key in dictionary order makes the recency order the dictionary order. *)
Lemma touch_all_keys c :
  cache_wf c -> touch_all (map fst (data c)) (order c) = map fst (data c).
Proof.
  intros (Hd & Ho & Hk & _). rewrite touch_all_eq by assumption.
  assert (E : List.filter (fun x => negb (key_in x (map fst (data c)))) (order c) = []).
  { assert (H : forall x, x ∈ order c -> key_in x (map fst (data c)) = true).
    { intros x Hx. apply key_in_spec in Hx. rewrite Hk in Hx.
      unfold cache_contains in Hx.
      destruct (assoc_get x (data c)) as [v|] eqn:E; [|discriminate].
      apply key_in_spec. apply assoc_get_elem in E.
      apply list_elem_of_In, in_map_iff. exists (x, v).
      split; [reflexivity|now apply list_elem_of_In]. }
    revert H. generalize (order c). intros o. induction o as [|x o IH]; intros H; simpl;
      [reflexivity|].
    rewrite H by left. simpl. apply IH. intros y Hy. apply H. now right. }
  now rewrite E.
Qed.

(** The loop of [close] in a cache of files: every comparison is false,
    nothing is deleted, every key is read. *)
Lemma close_loop_files r f h keys st :
  heap st !! r = Some (OFile f) -> hsh f = Some h ->
  cache_files st ->
  (forall k, k ∈ keys -> cache_contains k (cache st) = true) ->
  close_loop r keys st
  = Ok tt (set_cache (mkCache (maxsize (cache st)) (data (cache st))
                              (touch_all keys (order (cache st)))) st).
Proof.
  intros Hr Hh. revert st Hr. induction keys as [|key keys IH]; intros st Hr Hfiles Hkeys.
  - simpl. unfold ret, set_cache. destruct st as [[m d o] hp w n]. reflexivity.
  - simpl close_loop. unfold bind at 1. unfold LRUCache_getitem.
    pose proof (Hkeys key ltac:(left)) as Hc. unfold cache_contains in Hc.
    destruct (assoc_get key (data (cache st))) as [v|] eqn:Hv; [|discriminate].
    unfold bind at 1. unfold get_hsh. simpl. rewrite Hr, Hh.
    unfold bind at 1. unfold value_eq_int. simpl.
    destruct (Hfiles key v Hv) as (fv & Hfv & _). rewrite Hfv.
    rewrite IH.
    + reflexivity.
    + exact Hr.
    + exact Hfiles.
    + intros k Hk. simpl. apply Hkeys. now right.
Qed.

(** In a state of the module, [close()] on a [File] is the native close
    and, if that returns, a cache with the same entries whose recency order
    is the insertion order of its keys. *)
Lemma File_close_eq r f h st :
  module_inv st ->
  heap st !! r = Some (OFile f) -> hsh f = Some h ->
  File_close r st =
  match h5_close (fid f) (env st) with
  | (w, None) =>
      Ok tt (mkState (mkCache (maxsize (cache st)) (data (cache st))
                              (map fst (data (cache st))))
                     (heap st) w (opens st))
  | (w, Some e) => Raise e (set_env w st)
  end.
Proof.
  intros [Hwf Hfiles] Hr Hh. unfold File_close. rewrite Hr.
  unfold bind, native_close, native.
  destruct (h5_close (fid f) (env st)) as [w [e|]]; [reflexivity|].
  rewrite (close_loop_files r f h); simpl; try assumption.
  - now rewrite touch_all_keys.
  - intros k Hk. unfold cache_contains.
    apply list_elem_of_In, in_map_iff in Hk as ([k' v] & <- & Hin). simpl.
    destruct (assoc_get k' (data (cache st))) eqn:E; [reflexivity|].
    apply assoc_get_None_not_in in E. exfalso. apply E.
    apply list_elem_of_In, in_map_iff. exists (k', v). auto.
Qed.

(** X3.  In a state of the module, when [close()] returns, the native close
    of the file has returned, the heap and the cache entries are as before,
    and the recency order has become the insertion order of the keys: what
    was used last is forgotten. *)
Theorem File_close_resets_recency r f h st st' :
  module_inv st ->
  heap st !! r = Some (OFile f) -> hsh f = Some h ->
  File_close r st = Ok tt st' ->
  h5_close (fid f) (env st) = (env st', None) /\
  heap st' = heap st /\
  data (cache st') = data (cache st) /\
  order (cache st') = map fst (data (cache st)).
Proof.
  intros Hinv Hr Hh Hclose. rewrite (File_close_eq r f h st Hinv Hr Hh) in Hclose.
  destruct (h5_close (fid f) (env st)) as [w [e|]]; [discriminate|].
  injection Hclose as <-. simpl. auto.
Qed.

(** ** Eviction in a state of the module *)

Lemma cache_wf_order_nonempty c :
  cache_wf c -> data c <> [] -> exists k o, order c = k :: o.
Proof.
  intros (_ & _ & Hk & _) Hd. destruct (data c) as [|[k0 v0] d] eqn:E; [congruence|].
  specialize (Hk k0). unfold cache_contains in Hk. rewrite E in Hk. simpl in Hk.
  rewrite Z.eqb_refl in Hk. destruct (order c) as [|k o]; [discriminate|eauto].
Qed.

Lemma order_del_app k o1 o2 : order_del k (o1 ++ o2) = order_del k o1 ++ order_del k o2.
Proof. apply List.filter_app. Qed.

(** [LRUCache.popitem] on a well-formed cache: the first key of the recency
    order goes, with its value. *)
Lemma LRUCache_popitem_eq st k o :
  cache_wf (cache st) -> order (cache st) = k :: o ->
  exists v,
    assoc_get k (data (cache st)) = Some v /\
    LRUCache_popitem st
    = Ok (k, v) (set_cache (mkCache (maxsize (cache st)) (assoc_del k (data (cache st))) o) st).
Proof.
  intros (Hd & Ho & Hk & _) Horder.
  assert (Hc : cache_contains k (cache st) = true).
  { rewrite <- Hk, Horder. simpl. now rewrite Z.eqb_refl. }
  unfold cache_contains in Hc.
  destruct (assoc_get k (data (cache st))) as [v|] eqn:Hv; [|discriminate].
  exists v. split; [reflexivity|].
  unfold LRUCache_popitem. rewrite Horder.
  unfold bind, Cache_pop, cache_contains. rewrite Hv.
  unfold bind, LRUCache_getitem. rewrite Hv.
  unfold LRUCache_delitem, cache_contains. simpl. rewrite Hv.
  rewrite Horder, key_in_order_update. simpl.
  rewrite Horder in Ho. apply NoDup_cons in Ho as [Hnotin _].
  assert (E : order_del k (order_update k (k :: o)) = o).
  { unfold order_update. simpl. rewrite Z.eqb_refl. simpl.
    rewrite order_del_app. simpl. rewrite Z.eqb_refl. simpl.
    rewrite app_nil_r.
    assert (Habs : key_in k o = false).
    { destruct (key_in k o) eqn:E; [|reflexivity]. apply key_in_spec in E. contradiction. }
    rewrite (order_del_absent k o Habs). exact (order_del_absent k o Habs). }
  rewrite E. reflexivity.
Qed.

(** [LRUFileCache.popitem] in a state of the module: the least recently
    used file is removed and closed natively.  If the native close returns,
    its [close] has read every remaining key; [AttributeError] is
    swallowed, any other exception is raised. *)
Lemma popitem_files_eq st k o :
  module_inv st -> order (cache st) = k :: o ->
  exists v f,
    assoc_get k (data (cache st)) = Some v /\
    heap st !! v = Some (OFile f) /\
    LRUFileCache_popitem st =
    let d := assoc_del k (data (cache st)) in
    match h5_close (fid f) (env st) with
    | (w, None) =>
        Ok (k, v) (mkState (mkCache (maxsize (cache st)) d (map fst d))
                           (heap st) w (opens st))
    | (w, Some e) =>
        if exn_eqb e AttributeError then
          Ok (k, v) (mkState (mkCache (maxsize (cache st)) d o) (heap st) w (opens st))
        else
          Raise e (mkState (mkCache (maxsize (cache st)) d o) (heap st) w (opens st))
    end.
Proof.
  intros [Hwf Hfiles] Horder.
  destruct (LRUCache_popitem_eq st k o Hwf Horder) as (v & Hv & Hpop).
  destruct (Hfiles k v Hv) as (f & Hf & Hh).
  exists v, f. split; [exact Hv|]. split; [exact Hf|].
  unfold LRUFileCache_popitem. unfold bind at 1. rewrite Hpop.
  set (st1 := set_cache _ st).
  assert (Hinv1 : module_inv st1).
  { eapply inv_step_module; [|split; eassumption].
    pose proof (always_final inv_step _ st inv_step_LRUCache_popitem) as H.
    rewrite Hpop in H. exact H. }
  unfold bind, try_except, obj_close. simpl. rewrite Hf.
  rewrite (File_close_eq v f k st1 Hinv1 Hf Hh). simpl.
  destruct (h5_close (fid f) (env st)) as [w [e|]]; simpl; [|reflexivity].
  destruct (exn_eqb e AttributeError); reflexivity.
Qed.

Lemma module_inv_alloc st o w n :
  module_inv st -> module_inv (mkState (cache st) (heap st ++ [o]) w n).
Proof.
  intros [Hwf Hfiles]. split; [exact Hwf|].
  intros k r Hr. simpl in *. now apply cache_files_extend.
Qed.

Lemma key_in_keys_absent k (d : list (Z * ref)) :
  assoc_get k d = None -> key_in k (map fst d) = false.
Proof.
  intros H. destruct (key_in k (map fst d)) eqn:E; [|reflexivity].
  apply key_in_spec in E. now apply assoc_get_None_not_in in H.
Qed.

(** The object [__new__] has allocated, before [self.hsh] is set. *)
Definition unset_file (args : list pyval) (kwargs : pydict) (n : nat) : pyobj :=
  OFile (mkFile args (open_kwargs kwargs) (skip_flag kwargs) None n).

(** A miss with room in the cache: the file is opened and stored, nothing
    is evicted. *)
Lemma File_new_miss_room_eq args kwargs h st w n :
  File_key args kwargs = Some h ->
  truthy (skip_flag kwargs) = false ->
  cache_contains h (cache st) = false ->
  (length (data (cache st)) < maxsize (cache st))%nat ->
  h5_open args (open_kwargs kwargs) (env st) = (w, inr n) ->
  File_new args kwargs st
  = Ok (length (heap st))
       (mkState (mkCache (maxsize (cache st))
                         (data (cache st) ++ [(h, length (heap st))])
                         (order_update h (order (cache st))))
                (heap st ++ [new_file args kwargs h n]) w (S (opens st))).
Proof.
  intros Hk Hs Hc Hroom Hopen.
  rewrite (File_new_miss_eq args kwargs h st w n
             (stored h (length (heap st))
                     (mkState (cache st) (heap st ++ [unset_file args kwargs n]) w (S (opens st))))
             Hk Hs Hc Hopen).
  - unfold stored, set_heap, set_cache. simpl. rewrite assoc_set_absent; [reflexivity|].
    unfold cache_contains in Hc. destruct (assoc_get h (data (cache st))); [discriminate|reflexivity].
  - apply cache_setitem_room. exact Hroom.
Qed.

(** A miss on a full cache, in a state of the module: the file is opened,
    the least recently used file is evicted and closed natively, and the
    new file is stored, unless the native close raises something other than
    [AttributeError]. *)
Lemma File_new_miss_full_eq args kwargs h st k o v fv w n :
  module_inv st ->
  File_key args kwargs = Some h ->
  truthy (skip_flag kwargs) = false ->
  cache_contains h (cache st) = false ->
  length (data (cache st)) = maxsize (cache st) ->
  order (cache st) = k :: o ->
  assoc_get k (data (cache st)) = Some v ->
  heap st !! v = Some (OFile fv) ->
  h5_open args (open_kwargs kwargs) (env st) = (w, inr n) ->
  File_new args kwargs st =
  let d := assoc_del k (data (cache st)) in
  let r := length (heap st) in
  match h5_close (fid fv) w with
  | (w', None) =>
      Ok r (mkState (mkCache (maxsize (cache st)) (d ++ [(h, r)]) (map fst d ++ [h]))
                    (heap st ++ [new_file args kwargs h n]) w' (S (opens st)))
  | (w', Some e) =>
      if exn_eqb e AttributeError then
        Ok r (mkState (mkCache (maxsize (cache st)) (d ++ [(h, r)]) (o ++ [h]))
                      (heap st ++ [new_file args kwargs h n]) w' (S (opens st)))
      else
        Raise e (mkState (mkCache (maxsize (cache st)) d o)
                         (heap st ++ [unset_file args kwargs n]) w' (S (opens st)))
  end.
Proof.
  intros Hinv Hk Hs Hc Hfull Horder Hv Hfv Hopen.
  set (sta := mkState (cache st) (heap st ++ [unset_file args kwargs n]) w (S (opens st))).
  assert (Hinva : module_inv sta) by now apply module_inv_alloc.
  destruct (popitem_files_eq sta k o Hinva Horder) as (v' & f' & Hv' & Hf' & Hpop).
  simpl in Hv', Hf'. rewrite Hv in Hv'. injection Hv' as <-.
  rewrite lookup_app_l in Hf' by (eapply lookup_lt_Some, Hfv).
  rewrite Hfv in Hf'. injection Hf' as <-. simpl in Hpop.
  destruct Hinv as [(Hnd & Hno & Hkeys & Hlen & Hmax) Hfiles].
  assert (Hnone : assoc_get h (data (cache st)) = None).
  { unfold cache_contains in Hc. destruct (assoc_get h (data (cache st))); [discriminate|reflexivity]. }
  assert (Hdnone : assoc_get h (assoc_del k (data (cache st))) = None).
  { destruct (assoc_get h (assoc_del k (data (cache st)))) as [x|] eqn:E; [|reflexivity].
    destruct (Z.eq_dec h k) as [->|Hne].
    - now rewrite assoc_get_del_eq in E.
    - rewrite assoc_get_del_ne in E by assumption. congruence. }
  assert (Hho : key_in h o = false).
  { pose proof (Hkeys h) as Hh. rewrite Horder, Hc in Hh. simpl in Hh.
    now apply orb_false_iff in Hh as [_ ?]. }
  assert (Hlt : (length (assoc_del k (data (cache st))) < maxsize (cache st))%nat).
  { rewrite <- Hfull. apply assoc_del_length. rewrite Hv. eauto. }
  (* the insertion *)
  assert (Hset : cache_setitem h (length (heap st)) sta =
                 match LRUFileCache_popitem sta with
                 | Ok _ st2 => Ok tt (stored h (length (heap st)) st2)
                 | Raise e st2 => Raise e st2
                 end).
  { unfold cache_setitem.
    destruct (Nat.ltb_spec (maxsize (cache sta)) 1); [simpl in *; lia|].
    simpl cache at 1 2. rewrite Hc. unfold bind at 1.
    destruct (length (data (cache st))) as [|m] eqn:Hm; [lia|].
    simpl evict_loop. simpl data. rewrite Hm.
    destruct (Nat.ltb_spec (maxsize (cache st)) (S m + 1)); [|lia].
    unfold bind at 1.
    destruct (LRUFileCache_popitem sta) as [kv st2|e st2] eqn:Hpop'; [|reflexivity].
    pose proof (popitem_Ok_length _ _ _ Hpop') as [Hl Hm'].
    assert (Hstop : evict_loop m st2 = Ok tt st2).
    { simpl in Hl, Hm'. rewrite Hm in Hl.
      destruct m; simpl;
        destruct (Nat.ltb_spec (maxsize (cache st2)) (length (data (cache st2)) + 1));
        try reflexivity; lia. }
    rewrite Hstop. reflexivity. }
  rewrite Hpop in Hset. cbv zeta.
  destruct (h5_close (fid fv) w) as [w' [e|]].
  - destruct (exn_eqb e AttributeError).
    + rewrite (File_new_miss_eq args kwargs h st w n _ Hk Hs Hc Hopen Hset).
      unfold stored, set_heap, set_cache. simpl.
      rewrite assoc_set_absent by assumption.
      unfold order_update. now rewrite order_del_absent.
    + rewrite File_new_unfold, Hk, Hs, Hc. simpl.
      unfold bind at 1. unfold native_open, native. simpl. rewrite Hopen. simpl.
      unfold bind at 1. unfold alloc at 1. simpl.
      unfold bind at 1. unfold set_heap, set_env. simpl.
      fold (unset_file args kwargs n). fold sta. rewrite Hset. reflexivity.
  - rewrite (File_new_miss_eq args kwargs h st w n _ Hk Hs Hc Hopen Hset).
    unfold stored, set_heap, set_cache. simpl.
    rewrite assoc_set_absent by assumption.
    unfold order_update. rewrite order_del_absent; [reflexivity|].
    now apply key_in_keys_absent.
Qed.

Lemma assoc_get_app_l k v l l' :
  assoc_get k l = Some v -> assoc_get k (l ++ l') = Some v.
Proof.
  induction l as [|[k0 v0] l IH]; simpl; [discriminate|].
  destruct (Z.eqb k k0); auto.
Qed.

Lemma assoc_del_absent k l : k ∉ map fst l -> assoc_del k l = l.
Proof.
  induction l as [|[k1 v1] l IH]; simpl; [reflexivity|].
  intros H. apply not_elem_of_cons in H as [Hne H].
  unfold assoc_del in *. simpl.
  destruct (Z.eqb_spec k1 k); [congruence|]. simpl. now rewrite IH.
Qed.

(** Deleting a key of a dictionary removes one entry. *)
Lemma assoc_del_length_NoDup k v l :
  NoDup (map fst l) -> assoc_get k l = Some v ->
  length l = S (length (assoc_del k l)).
Proof.
  induction l as [|[k0 v0] l IH]; simpl; [discriminate|].
  intros Hnd Hv. apply NoDup_cons in Hnd as [Hk0 Hnd].
  unfold assoc_del in *. simpl.
  destruct (Z.eqb_spec k k0) as [->|Hne].
  - rewrite Z.eqb_refl. simpl. fold (assoc_del k0 l). now rewrite assoc_del_absent.
  - destruct (Z.eqb_spec k0 k); [congruence|]. simpl. now rewrite <- IH.
Qed.

(** A construction that has to open the file and cannot: the error of the
    native open is raised, and neither the cache nor the heap has changed. *)
Lemma File_new_open_fails_eq args kwargs h st w e :
  File_key args kwargs = Some h ->
  truthy (skip_flag kwargs) || negb (cache_contains h (cache st)) = true ->
  h5_open args (open_kwargs kwargs) (env st) = (w, inl e) ->
  File_new args kwargs st = Raise e (mkState (cache st) (heap st) w (S (opens st))).
Proof.
  intros Hk Hcond Hopen. rewrite File_new_unfold, Hk, Hcond.
  unfold bind at 1. unfold native_open, native. simpl. now rewrite Hopen.
Qed.

(** X4.  A failed native open is not cached: when [File(...)] has to open
    the file (the cache is bypassed, or the key is not cached) and the
    native open raises, that exception is raised, the cache and the heap
    are exactly as before, and one native open has been attempted. *)
Theorem File_new_open_fails args kwargs h st w e :
  File_key args kwargs = Some h ->
  truthy (skip_flag kwargs) || negb (cache_contains h (cache st)) = true ->
  h5_open args (open_kwargs kwargs) (env st) = (w, inl e) ->
  exists st',
    File_new args kwargs st = Raise e st' /\
    cache st' = cache st /\ heap st' = heap st /\
    env st' = w /\ opens st' = S (opens st).
Proof.
  intros Hk Hcond Hopen. eexists. split.
  - apply (File_new_open_fails_eq args kwargs h st w e); assumption.
  - simpl. auto.
Qed.

(** X5.  The eviction property.  In a state of the module with a full
    cache, constructing a [File] whose key is not cached opens it, evicts
    exactly the least recently used entry, closes that file natively, and
    stores the new handle as the most recent one; the entries that remain
    are then in insertion order of recency. *)
Theorem File_new_evicts_lru args kwargs h st k o v fv w n w' :
  module_inv st ->
  File_key args kwargs = Some h ->
  truthy (skip_flag kwargs) = false ->
  cache_contains h (cache st) = false ->
  length (data (cache st)) = maxsize (cache st) ->
  order (cache st) = k :: o ->
  assoc_get k (data (cache st)) = Some v ->
  heap st !! v = Some (OFile fv) ->
  h5_open args (open_kwargs kwargs) (env st) = (w, inr n) ->
  h5_close (fid fv) w = (w', None) ->
  exists st',
    File_new args kwargs st = Ok (length (heap st)) st' /\
    data (cache st') = assoc_del k (data (cache st)) ++ [(h, length (heap st))] /\
    order (cache st') = map fst (assoc_del k (data (cache st))) ++ [h] /\
    length (data (cache st')) = maxsize (cache st) /\
    env st' = w' /\ opens st' = S (opens st).
Proof.
  intros Hinv Hk Hs Hc Hfull Horder Hv Hfv Hopen Hclose.
  rewrite (File_new_miss_full_eq args kwargs h st k o v fv w n
             Hinv Hk Hs Hc Hfull Horder Hv Hfv Hopen).
  cbv zeta. rewrite Hclose. eexists. split; [reflexivity|]. simpl.
  repeat split.
  rewrite length_app. simpl.
  destruct Hinv as [(Hnd & _) _].
  rewrite <- Hfull, (assoc_del_length_NoDup k v (data (cache st)) Hnd Hv). lia.
Qed.

Lemma cache_wf_head st k o :
  module_inv st -> order (cache st) = k :: o ->
  exists v f, assoc_get k (data (cache st)) = Some v /\ heap st !! v = Some (OFile f).
Proof.
  intros Hinv Horder. destruct (popitem_files_eq st k o Hinv Horder) as (v & f & Hv & Hf & _).
  eauto.
Qed.

(** X6.  Where the exceptions of [File(...)] come from, in a state of the
    module: [TypeError] from the key (nothing has happened yet), the error
    of the native open, or the error, other than [AttributeError], of the
    native close of the file evicted to make room.  The bookkeeping of the
    cache raises nothing of its own. *)
Theorem File_new_raises_only args kwargs st e st' :
  module_inv st ->
  File_new args kwargs st = Raise e st' ->
  (e = TypeError /\ File_key args kwargs = None /\ st' = st)
  \/ (exists w, h5_open args (open_kwargs kwargs) (env st) = (w, inl e) /\
                cache st' = cache st /\ heap st' = heap st)
  \/ (exists k o v fv w n w',
         order (cache st) = k :: o /\
         assoc_get k (data (cache st)) = Some v /\
         heap st !! v = Some (OFile fv) /\
         h5_open args (open_kwargs kwargs) (env st) = (w, inr n) /\
         h5_close (fid fv) w = (w', Some e) /\
         exn_eqb e AttributeError = false /\
         data (cache st') = assoc_del k (data (cache st))).
Proof.
  intros Hinv Hraise.
  destruct (File_key args kwargs) as [h|] eqn:Hk.
  2:{ left. rewrite File_new_unfold, Hk in Hraise. injection Hraise as <- <-. auto. }
  right.
  destruct (h5_open args (open_kwargs kwargs) (env st)) as [w [e'|n]] eqn:Hopen.
  - (* the native open fails, if it is reached at all *)
    destruct (truthy (skip_flag kwargs) || negb (cache_contains h (cache st))) eqn:Hcond.
    + rewrite (File_new_open_fails_eq _ _ _ _ _ _ Hk Hcond Hopen) in Hraise.
      injection Hraise as <- <-. left. exists w. auto.
    + apply orb_false_iff in Hcond as [Hs Hc]. apply negb_false_iff in Hc.
      unfold cache_contains in Hc.
      destruct (assoc_get h (data (cache st))) as [r|] eqn:Hr; [|discriminate].
      destruct Hinv as [_ Hfiles]. destruct (Hfiles h r Hr) as (f & Hf & _).
      destruct (File_new_hit_Ok args kwargs h r st Hk Hs Hr) as (st2 & H2 & _).
      { exists (OFile f). split; [assumption|discriminate]. }
      rewrite H2 in Hraise. discriminate.
  - destruct (truthy (skip_flag kwargs)) eqn:Hs.
    { rewrite (File_new_bypass _ _ _ _ Hk Hs), Hopen in Hraise. discriminate. }
    destruct (cache_contains h (cache st)) eqn:Hc.
    { unfold cache_contains in Hc.
      destruct (assoc_get h (data (cache st))) as [r|] eqn:Hr; [|discriminate].
      destruct Hinv as [_ Hfiles]. destruct (Hfiles h r Hr) as (f & Hf & _).
      destruct (File_new_hit_Ok args kwargs h r st Hk Hs Hr) as (st2 & H2 & _).
      { exists (OFile f). split; [assumption|discriminate]. }
      rewrite H2 in Hraise. discriminate. }
    pose proof Hinv as [(_ & _ & _ & Hlen & Hmax) _].
    destruct (Nat.lt_ge_cases (length (data (cache st))) (maxsize (cache st))) as [Hroom|Hfull].
    { rewrite (File_new_miss_room_eq _ _ _ _ _ _ Hk Hs Hc Hroom Hopen) in Hraise.
      discriminate. }
    assert (Hfull' : length (data (cache st)) = maxsize (cache st)) by lia.
    destruct (cache_wf_order_nonempty (cache st)) as (k & o & Horder).
    { apply Hinv. }
    { intros E. rewrite E in Hfull'. simpl in Hfull'. lia. }
    destruct (cache_wf_head st k o Hinv Horder) as (v & fv & Hv & Hfv).
    rewrite (File_new_miss_full_eq args kwargs h st k o v fv w n
               Hinv Hk Hs Hc Hfull' Horder Hv Hfv Hopen) in Hraise.
    cbv zeta in Hraise.
    destruct (h5_close (fid fv) w) as [w' [e'|]] eqn:Hclose; [|discriminate].
    destruct (exn_eqb e' AttributeError) eqn:He; [discriminate|].
    injection Hraise as <- <-. right.
    exists k, o, v, fv, w, n, w'. repeat split; auto.
Qed.

(** After a construction through the cache, the key is the most recently
    used. *)
Lemma File_new_cached_order args kwargs st r st1 h :
  File_key args kwargs = Some h ->
  truthy (skip_flag kwargs) = false ->
  File_new args kwargs st = Ok r st1 ->
  exists o, order (cache st1) = order_update h o.
Proof.
  intros Hk Hs Hnew.
  destruct (cache_contains h (cache st)) eqn:Hc.
  - unfold cache_contains in Hc.
    destruct (assoc_get h (data (cache st))) as [r'|] eqn:Hr; [|discriminate].
    rewrite (File_new_hit _ _ _ _ _ Hk Hs Hr) in Hnew.
    apply bind_Ok in Hnew as ([] & st' & Hset & Hret). inversion Hret; subst.
    apply set_hsh_Ok in Hset as (Hcache & _). rewrite Hcache. simpl. eauto.
  - destruct (File_new_miss_Ok _ _ _ _ _ _ Hk Hs Hc Hnew) as (w & n & stc & _ & _ & Hset & ->).
    simpl. unfold cache_setitem in Hset.
    destruct (_ <? _)%nat; [discriminate|].
    apply bind_Ok in Hset as (u & s1 & _ & Hstore). inversion Hstore. simpl. eauto.
Qed.

Lemma order_update_head h o k o' :
  NoDup (order_update h o) -> order_update h o = k :: o' -> o' <> [] -> k <> h.
Proof.
  unfold order_update. intros Hnd E Hne Hk.
  destruct (order_del h o) as [|x l] eqn:Ed; simpl in E, Hnd.
  - inversion E. congruence.
  - inversion E. subst. apply NoDup_cons in Hnd as [Hx _].
    apply Hx. apply elem_of_app. right. left.
Qed.

Lemma cache_wf_single c k :
  cache_wf c -> order c = [k] -> (length (data c) <= 1)%nat.
Proof.
  intros (Hd & _ & Hk & _) Ho.
  assert (H : forall k', is_Some (assoc_get k' (data c)) -> k' = k).
  { intros k' [v Hv]. specialize (Hk k'). unfold cache_contains in Hk.
    rewrite Hv, Ho in Hk. simpl in Hk. rewrite orb_false_r in Hk. now apply Z.eqb_eq. }
  destruct (data c) as [|[k1 v1] [|[k2 v2] d]]; simpl in *; try lia.
  assert (k1 = k) by (apply H; rewrite Z.eqb_refl; eauto).
  assert (k2 = k).
  { apply H. destruct (Z.eqb k2 k1); [eauto|]. rewrite Z.eqb_refl. eauto. }
  subst. apply NoDup_cons in Hd as [Hd _]. exfalso. apply Hd. left.
Qed.

(** X7.  Least recently used, seen from outside.  With room for two files
    or more, the handle a construction through the cache has just returned
    is still cached, under its key, after the next construction, whatever
    that one is. *)
Theorem just_used_handle_survives args kwargs st r st1 args2 kwargs2 r2 st2 :
  module_inv st ->
  truthy (skip_flag kwargs) = false ->
  (2 <= maxsize (cache st1))%nat ->
  File_new args kwargs st = Ok r st1 ->
  File_new args2 kwargs2 st1 = Ok r2 st2 ->
  exists h, File_key args kwargs = Some h /\
            assoc_get h (data (cache st2)) = Some r.
Proof.
  intros Hinv Hs Hcap H1 H2.
  destruct (File_new_cached_Ok _ _ _ _ _ Hs H1) as (h & Hk & Hget & _).
  exists h. split; [exact Hk|].
  destruct (File_new_cached_order _ _ _ _ _ _ Hk Hs H1) as (o1 & Horder1).
  pose proof (module_inv_File_new args kwargs st Hinv) as Hinv1.
  rewrite H1 in Hinv1. simpl in Hinv1.
  destruct (File_key args2 kwargs2) as [h2|] eqn:Hk2;
    [|rewrite File_new_unfold, Hk2 in H2; discriminate].
  destruct (truthy (skip_flag kwargs2)) eqn:Hs2.
  { rewrite (File_new_bypass _ _ _ _ Hk2 Hs2) in H2.
    destruct (h5_open _ _ _) as [w [e|n]]; [discriminate|].
    injection H2 as _ <-. exact Hget. }
  destruct (cache_contains h2 (cache st1)) eqn:Hc2.
  { unfold cache_contains in Hc2.
    destruct (assoc_get h2 (data (cache st1))) as [r'|] eqn:Hr; [|discriminate].
    rewrite (File_new_hit _ _ _ _ _ Hk2 Hs2 Hr) in H2.
    apply bind_Ok in H2 as ([] & st' & Hset & Hret). inversion Hret; subst.
    apply set_hsh_Ok in Hset as (Hcache & _). rewrite Hcache. exact Hget. }
  destruct (h5_open args2 (open_kwargs kwargs2) (env st1)) as [w [e|n]] eqn:Hopen.
  { rewrite (File_new_open_fails_eq args2 kwargs2 h2 st1 w e Hk2) in H2;
      [discriminate| |exact Hopen]. now rewrite Hs2, Hc2. }
  pose proof Hinv1 as [(_ & Hnd1 & _ & Hlen & Hmax) _].
  destruct (Nat.lt_ge_cases (length (data (cache st1))) (maxsize (cache st1))) as [Hroom|Hfull].
  { rewrite (File_new_miss_room_eq _ _ _ _ _ _ Hk2 Hs2 Hc2 Hroom Hopen) in H2.
    injection H2 as _ <-. simpl. now apply assoc_get_app_l. }
  assert (Hfull' : length (data (cache st1)) = maxsize (cache st1)) by lia.
  destruct (cache_wf_order_nonempty (cache st1)) as (k & o & Horder).
  { apply Hinv1. }
  { intros E. rewrite E in Hfull'. simpl in Hfull'. lia. }
  destruct (cache_wf_head st1 k o Hinv1 Horder) as (v & fv & Hv & Hfv).
  assert (Hkh : k <> h).
  { rewrite Horder1 in Horder, Hnd1.
    apply (order_update_head h o1 k o Hnd1 Horder).
    intros ->. rewrite <- Horder1 in Horder.
    pose proof (cache_wf_single (cache st1) k (proj1 Hinv1) Horder). lia. }
  rewrite (File_new_miss_full_eq args2 kwargs2 h2 st1 k o v fv w n
             Hinv1 Hk2 Hs2 Hc2 Hfull' Horder Hv Hfv Hopen) in H2.
  cbv zeta in H2.
  assert (Hkeep : assoc_get h (assoc_del k (data (cache st1)) ++ [(h2, length (heap st1))])
                  = Some r).
  { apply assoc_get_app_l. rewrite assoc_get_del_ne by congruence. exact Hget. }
  destruct (h5_close (fid fv) w) as [w' [e|]].
  - destruct (exn_eqb e AttributeError); [|discriminate].
    injection H2 as _ <-. exact Hkeep.
  - injection H2 as _ <-. exact Hkeep.
Qed.

(** ** [arghash] *)

(** [arghash] raises, with [TypeError], exactly when a positional or a
    keyword argument is not serializable; otherwise it is the hash of the
    two texts put together. *)
Lemma arghash_raises_iff args kwargs :
  (arghash args kwargs = None <->
   serializable (PList args) && serializable (PDict kwargs) = false) /\
  (forall a k,
      json_dumps false (PList args) = Some a ->
      json_dumps true (PDict kwargs) = Some k ->
      arghash args kwargs = Some (hash (a +:+ k))).
Proof.
  split.
  - rewrite <- arghash_text_None_iff. unfold arghash.
    destruct (arghash_text args kwargs); split; congruence.
  - intros a k Ha Hk. unfold arghash, arghash_text. now rewrite Ha, Hk.
Qed.

(** *** The order of the keyword arguments *)

(** The keys of a dictionary with their rendered values. *)
Fixpoint dict_items (sk : bool) (d : pydict) : option (list (string * string)) :=
  match d with
  | [] => Some []
  | (k, x) :: d' =>
      match json_dumps sk x, dict_items sk d' with
      | Some a, Some b => Some ((k, a) :: b)
      | _, _ => None
      end
  end.

Lemma json_dumps_dict sk d :
  json_dumps sk (PDict d) =
  match dict_items sk d with
  | Some kts =>
      Some ("{" +:+ join ", " (map render_item (if sk then sort_by_key kts else kts)) +:+ "}")
  | None => None
  end.
Proof.
  simpl.
  match goal with
  | |- match ?f d with _ => _ end = _ =>
      assert (E : forall d', f d' = dict_items sk d')
  end.
  { induction d' as [|[k x] d' IH]; simpl; [reflexivity|]. now rewrite IH. }
  now rewrite E.
Qed.

Lemma dict_items_keys sk d kts :
  dict_items sk d = Some kts -> map fst kts = map fst d.
Proof.
  revert kts. induction d as [|[k x] d IH]; simpl; intros kts.
  - now intros [= <-].
  - destruct (json_dumps sk x); [|discriminate].
    destruct (dict_items sk d); [|discriminate].
    intros [= <-]. simpl. f_equal. now apply IH.
Qed.

Lemma dict_items_perm sk d1 d2 :
  Permutation d1 d2 ->
  match dict_items sk d1, dict_items sk d2 with
  | Some k1, Some k2 => Permutation k1 k2
  | None, None => True
  | _, _ => False
  end.
Proof.
  induction 1 as [|[k x] d1 d2 Hp IH|[k x] [k' x'] d|d1 d2 d3 H12 IH12 H23 IH23]; simpl.
  - constructor.
  - destruct (json_dumps sk x); [|now destruct (dict_items sk d1), (dict_items sk d2)].
    destruct (dict_items sk d1), (dict_items sk d2); try assumption. now constructor.
  - destruct (json_dumps sk x), (json_dumps sk x'), (dict_items sk d); try exact I.
    apply perm_swap.
  - destruct (dict_items sk d1), (dict_items sk d2), (dict_items sk d3);
      try contradiction; try exact I. etransitivity; eassumption.
Qed.

Definition key_le (a b : string * string) : Prop := String.leb (fst a) (fst b) = true.

Lemma string_leb_trans s1 s2 s3 :
  String.leb s1 s2 = true -> String.leb s2 s3 = true -> String.leb s1 s3 = true.
Proof.
  unfold String.leb. revert s2 s3.
  induction s1 as [|c1 s1 IH]; intros [|c2 s2] [|c3 s3]; simpl; try easy.
  unfold Ascii.compare.
  destruct (N.compare_spec (N_of_ascii c1) (N_of_ascii c2)) as [E12|L12|G12];
    destruct (N.compare_spec (N_of_ascii c2) (N_of_ascii c3)) as [E23|L23|G23];
    destruct (N.compare_spec (N_of_ascii c1) (N_of_ascii c3)) as [E13|L13|G13];
    try easy; try lia.
  apply IH.
Qed.

#[local] Instance key_le_trans : Transitive key_le.
Proof. intros a b c. unfold key_le. apply string_leb_trans. Qed.

Lemma insert_by_key_perm x l : Permutation (insert_by_key x l) (x :: l).
Proof.
  induction l as [|y l IH]; simpl; [reflexivity|].
  destruct (String.leb (fst x) (fst y)); [reflexivity|].
  rewrite IH. apply perm_swap.
Qed.

Lemma sort_by_key_perm l : Permutation (sort_by_key l) l.
Proof.
  induction l as [|x l IH]; simpl; [reflexivity|].
  rewrite insert_by_key_perm. now constructor.
Qed.

Lemma insert_by_key_sorted x l :
  StronglySorted key_le l -> StronglySorted key_le (insert_by_key x l).
Proof.
  induction 1 as [|y l Hl IH Hy]; simpl.
  - repeat constructor.
  - destruct (String.leb (fst x) (fst y)) eqn:E.
    + constructor; [now constructor|]. constructor; [exact E|].
      eapply Forall_impl; [exact Hy|]. intros z Hz. simpl.
      unfold key_le in *. eapply string_leb_trans; eassumption.
    + constructor; [exact IH|].
      rewrite insert_by_key_perm. constructor; [|exact Hy].
      unfold key_le. destruct (String.leb_total (fst x) (fst y)); congruence.
Qed.

Lemma sort_by_key_sorted l : StronglySorted key_le (sort_by_key l).
Proof.
  induction l as [|x l IH]; simpl; [constructor|]. now apply insert_by_key_sorted.
Qed.

Lemma NoDup_keys_eq {A} (l : list (string * A)) a b :
  NoDup (map fst l) -> a ∈ l -> b ∈ l -> fst a = fst b -> a = b.
Proof.
  induction l as [|c l IH]; simpl; intros Hnd Ha Hb E.
  - now apply elem_of_nil in Ha.
  - apply NoDup_cons in Hnd as [Hc Hnd].
    assert (Hin : forall z, z ∈ l -> fst z ∈ map fst l).
    { intros z Hz. apply list_elem_of_In, in_map, list_elem_of_In, Hz. }
    apply elem_of_cons in Ha as [->|Ha], Hb as [->|Hb]; auto.
    + exfalso. apply Hc. rewrite E. auto.
    + exfalso. apply Hc. rewrite <- E. auto.
Qed.

(** Sorting by key does not depend on the order the entries come in. *)
Lemma sort_by_key_perm_eq l1 l2 :
  Permutation l1 l2 -> NoDup (map fst l1) -> sort_by_key l1 = sort_by_key l2.
Proof.
  intros Hp Hnd.
  assert (Hp1 := sort_by_key_perm l1). assert (Hp2 := sort_by_key_perm l2).
  apply (StronglySorted_unique_strong key_le);
    [|apply sort_by_key_sorted|apply sort_by_key_sorted|].
  - intros a b Ha Hb Hab Hba.
    apply (NoDup_keys_eq l1); [assumption| | |].
    + now rewrite <- Hp1.
    + now rewrite Hp, <- Hp2.
    + apply String.leb_antisym; assumption.
  - now rewrite Hp1, Hp2.
Qed.

Lemma dict_get_None_iff k (d : pydict) : dict_get k d = None <-> k ∉ map fst d.
Proof.
  induction d as [|[k' v] d IH]; simpl.
  - split; [intros _; apply not_elem_of_nil|reflexivity].
  - rewrite not_elem_of_cons, <- IH.
    destruct (String.eqb_spec k k'); split; try tauto; try congruence.
Qed.

(** X9.  The order of the keyword arguments does not matter: two calls
    whose keyword arguments are the same bindings in another order have the
    same key, and the second is handed the handle of the first. *)
Theorem kwargs_order_irrelevant args kwargs1 kwargs2 st r st1 :
  Permutation kwargs1 kwargs2 ->
  NoDup (map fst kwargs1) ->
  dict_get "skip_cache" kwargs1 = None ->
  arghash args kwargs1 = arghash args kwargs2 /\
  (File_new args kwargs1 st = Ok r st1 ->
   exists st2, File_new args kwargs2 st1 = Ok r st2 /\ opens st2 = opens st1).
Proof.
  intros Hp Hnd Hflag.
  assert (Hhash : arghash args kwargs1 = arghash args kwargs2).
  { unfold arghash, arghash_text. rewrite !json_dumps_dict.
    pose proof (dict_items_perm true kwargs1 kwargs2 Hp) as Hitems.
    destruct (dict_items true kwargs1) as [k1|] eqn:E1,
             (dict_items true kwargs2) as [k2|] eqn:E2;
      try contradiction; [|reflexivity].
    rewrite (sort_by_key_perm_eq k1 k2 Hitems); [reflexivity|].
    now rewrite (dict_items_keys _ _ _ E1). }
  split; [exact Hhash|]. intros Hnew.
  assert (Hflag2 : dict_get "skip_cache" kwargs2 = None).
  { apply dict_get_None_iff. rewrite <- Hp. now apply dict_get_None_iff. }
  destruct (skip_flag_absent _ Hflag) as [Hf1 Ho1].
  destruct (skip_flag_absent _ Hflag2) as [Hf2 Ho2].
  destruct (equal_keys_same_handle args kwargs1 args kwargs2 st r st1)
    as (st2 & H2 & Ho & _); try assumption.
  - now rewrite Hf1.
  - now rewrite Hf2.
  - unfold File_key. now rewrite Ho1, Ho2.
  - eauto.
Qed.

(** *** Positional or by keyword *)

Lemma append_assoc_str (a b c : string) : (a +:+ b) +:+ c = a +:+ (b +:+ c).
Proof.
  induction a as [|x a IH]; [reflexivity|].
  change (String x ((a +:+ b) +:+ c) = String x (a +:+ (b +:+ c))). f_equal. exact IH.
Qed.

Lemma append_inj_l (a b c : string) : a +:+ b = a +:+ c -> b = c.
Proof.
  induction a as [|x a IH]; [auto|].
  change (String x (a +:+ b) = String x (a +:+ c) -> b = c). intros [= H]. auto.
Qed.

Lemma json_dumps_Some sk v : serializable v = true -> exists t, json_dumps sk v = Some t.
Proof.
  intros H. destruct (json_dumps sk v) as [t|] eqn:E; [eauto|].
  apply json_dumps_None_iff in E. congruence.
Qed.

(** X10.  The same open request spelled [File(p, m)] and [File(p, mode=m)]
    is hashed from two different texts: the cache treats the two spellings
    as two descriptors. *)
Theorem mode_spelling_changes_text p m :
  serializable m = true ->
  exists t1 t2,
    arghash_text [PStr p; m] [] = Some t1 /\
    arghash_text [PStr p] [("mode", m)] = Some t2 /\
    t1 <> t2.
Proof.
  intros Hm.
  destruct (json_dumps_Some false m Hm) as (tm & Em).
  destruct (json_dumps_Some true m Hm) as (tm' & Em').
  exists (("[" +:+ (json_quote p +:+ ", " +:+ tm) +:+ "]") +:+ "{}"),
         (("[" +:+ json_quote p +:+ "]") +:+ ("{" +:+ render_item ("mode", tm') +:+ "}")).
  split; [|split].
  - unfold arghash_text. simpl. rewrite Em. reflexivity.
  - unfold arghash_text. simpl. rewrite Em'. reflexivity.
  - intros H. rewrite !append_assoc_str in H.
    apply append_inj_l, append_inj_l in H. cbv in H. discriminate H.
Qed.

(** ** Pickling, there and back *)

(** X11.  A bypassed [File] stays bypassed through a pickle: its pickle
    carries [skip_cache], so unpickling it opens the file anew, builds
    another object with the same arguments and flag, and leaves the cache
    as it is; and if the native open fails, its error is raised. *)
Theorem unpickle_bypassed_File f h st :
  truthy (skip_cache f) = true ->
  dict_get "skip_cache" (init_kwargs f) = None ->
  arghash (init_args f) (init_kwargs f) = Some h ->
  unpickle_File (pickle_File f) st =
  match h5_open (init_args f) (init_kwargs f) (env st) with
  | (w, inr n) =>
      Ok (length (heap st))
         (mkState (cache st)
                  (heap st ++ [OFile (mkFile (init_args f) (init_kwargs f)
                                             (skip_cache f) (Some h) n)])
                  w (S (opens st)))
  | (w, inl e) => Raise e (mkState (cache st) (heap st) w (S (opens st)))
  end.
Proof.
  intros Hs Hnone Hh. rewrite pickle_File_eq. simpl.
  rewrite dict_get_set_absent by assumption.
  assert (Hnone' : dict_get "skip_cache" (init_kwargs f ++ []) = None)
    by now rewrite app_nil_r.
  destruct (skip_flag_middle (init_kwargs f) [] (skip_cache f) Hnone') as [Hflag Hkw].
  rewrite app_nil_r in Hkw.
  rewrite (File_new_bypass _ _ h).
  - unfold new_file. now rewrite Hflag, Hkw.
  - unfold File_key. now rewrite Hkw.
  - now rewrite Hflag.
Qed.

Lemma Dataset_access_ignores_capture ds d item name :
  Dataset_getitem (mkDataset (file_name ds) (file_mode ds) (dataset_name ds) d) item
  = Dataset_getitem ds item /\
  Dataset_getattr (mkDataset (file_name ds) (file_mode ds) (dataset_name ds) d) name
  = Dataset_getattr ds name.
Proof. destruct ds. split; reflexivity. Qed.

(** X12.  A [Dataset] through a pickle.  Unpickling acquires the root and
    looks the path up, and fails if either does.  What comes back has the
    file name, the mode and the path of the original and no captured
    dataset; element and attribute access through it are those of the
    original; but it cannot be pickled again: [__getstate__] deletes a
    ['dataset'] entry that [__setstate__] never restores, and raises
    [KeyError]. *)
Theorem Dataset_pickle_roundtrip ds st p st1 ds' st2 :
  pickle_Dataset ds st = Ok p st1 ->
  unpickle_Dataset p st1 = Ok ds' st2 ->
  ds' = mkDataset (file_name ds) (file_mode ds) (dataset_name ds) None /\
  (exists obj, Dataset_resolve ds st1 = Ok obj st2) /\
  (forall item, Dataset_getitem ds' item = Dataset_getitem ds item) /\
  (forall name, Dataset_getattr ds' name = Dataset_getattr ds name) /\
  (forall s, pickle_Dataset ds' s = Raise KeyError s).
Proof.
  intros Hp Hu.
  destruct (dataset ds) as [d|] eqn:Hd;
    [|rewrite (pickle_Dataset_unpickled _ _ Hd) in Hp; discriminate].
  rewrite (pickle_Dataset_eq _ _ _ Hd) in Hp. injection Hp as <- <-.
  simpl in Hu. unfold Dataset_setstate in Hu.
  apply bind_Ok in Hu as (obj & s & Hres & Hret). inversion Hret; subst.
  split; [reflexivity|]. split.
  { exists obj. destruct ds. exact Hres. }
  split; [intros item; apply (Dataset_access_ignores_capture ds None item "")|].
  split; [intros name; apply (Dataset_access_ignores_capture ds None PNone name)|].
  intros s. now apply pickle_Dataset_unpickled.
Qed.

(** What [__new__] leaves at the reference it returns when it did not take
    the object from the cache. *)
Lemma File_new_fresh_object args kwargs h st r st1 :
  File_key args kwargs = Some h ->
  truthy (skip_flag kwargs) || negb (cache_contains h (cache st)) = true ->
  File_new args kwargs st = Ok r st1 ->
  exists n, heap st1 !! r = Some (new_file args kwargs h n).
Proof.
  intros Hk Hb Hnew. destruct (truthy (skip_flag kwargs)) eqn:Hs.
  - rewrite (File_new_bypass _ _ _ _ Hk Hs) in Hnew.
    destruct (h5_open _ _ _) as [w [e|n]]; [discriminate|].
    injection Hnew as <- <-. exists n. simpl.
    rewrite lookup_app_r by lia. now rewrite Nat.sub_diag.
  - simpl in Hb. apply negb_true_iff in Hb.
    destruct (File_new_miss_Ok _ _ _ _ _ _ Hk Hs Hb Hnew) as (w & n & stc & _ & -> & _ & ->).
    exists n. simpl. rewrite lookup_app_r by lia. now rewrite Nat.sub_diag.
Qed.

(** The arguments a pickle carries behave as the original ones. *)
Lemma File_new_repickled args kwargs st :
  NoDup (map fst kwargs) ->
  File_new args (open_kwargs kwargs ++ [("skip_cache", skip_flag kwargs)]) st
  = File_new args kwargs st.
Proof.
  intros Hnd. pose proof (open_kwargs_no_flag _ Hnd) as Hnone.
  assert (Hnone' : dict_get "skip_cache" (open_kwargs kwargs ++ []) = None)
    by now rewrite app_nil_r.
  destruct (skip_flag_middle (open_kwargs kwargs) [] (skip_flag kwargs) Hnone') as [Hf Ho].
  rewrite app_nil_r in Ho.
  rewrite !File_new_unfold. unfold File_key. rewrite Hf, Ho. reflexivity.
Qed.

(** X13.  Unpickling is calling the constructor again.  For a [File] that
    [__new__] has built (rather than found in the cache), unpickling its
    pickle is, in every state of the module, the call [File.__new__] with
    the arguments the object was made with: a hit, a miss and a bypass
    happen on the pickle exactly when they would on the call. *)
Theorem unpickle_File_is_the_call args kwargs h st r st1 :
  NoDup (map fst kwargs) ->
  File_key args kwargs = Some h ->
  truthy (skip_flag kwargs) || negb (cache_contains h (cache st)) = true ->
  File_new args kwargs st = Ok r st1 ->
  exists f, heap st1 !! r = Some (OFile f) /\
            forall st', unpickle_File (pickle_File f) st' = File_new args kwargs st'.
Proof.
  intros Hnd Hk Hb Hnew.
  destruct (File_new_fresh_object _ _ _ _ _ _ Hk Hb Hnew) as [n Hn].
  eexists. split; [exact Hn|]. intros st'.
  rewrite pickle_File_eq. simpl.
  rewrite dict_get_set_absent by now apply open_kwargs_no_flag.
  now apply File_new_repickled.
Qed.

(** A hit on an object that already carries the key changes the recency
    order and nothing else. *)
Lemma File_new_hit_same args kwargs h r f st :
  File_key args kwargs = Some h ->
  truthy (skip_flag kwargs) = false ->
  assoc_get h (data (cache st)) = Some r ->
  heap st !! r = Some (OFile f) -> hsh f = Some h ->
  File_new args kwargs st = Ok r (touched h st).
Proof.
  intros Hk Hs Hr Hf Hh. rewrite (File_new_hit _ _ _ _ _ Hk Hs Hr).
  unfold bind, set_hsh, touched. simpl. rewrite Hf. simpl.
  f_equal. unfold set_heap, set_cache. simpl. f_equal.
  apply list_insert_id. rewrite Hf. f_equal. rewrite <- Hh. now destruct f.
Qed.

(** ** Groups *)

Lemma h5py_wrap_type_Ok n obj st st' :
  h5py_wrap_type n st = Ok obj st' ->
  st' = st /\
  match obj with
  | WGroup g => file_info g = None
  | WDataset ds => exists d, dataset ds = Some d
  | WRaw _ => True
  end.
Proof.
  destruct n; simpl; unfold bind, Dataset_init, ret; simpl;
    intros H; inversion H; subst; simpl; eauto.
Qed.

Lemma File_getitem_Ok r name st obj st' :
  File_getitem r name st = Ok obj st' ->
  exists f,
    heap st !! r = Some (OFile f) /\
    heap st' = heap st /\ cache st' = cache st /\ opens st' = opens st /\
    match obj with
    | WGroup g => file_info g = Some r
    | WDataset ds => exists d, dataset ds = Some d
    | WRaw _ => True
    end.
Proof.
  unfold File_getitem. destruct (heap st !! r) as [[f| |]|] eqn:Hr; try discriminate.
  intros H. exists f. split; [reflexivity|].
  apply bind_Ok in H as (n & s1 & Hn & H).
  apply bind_Ok in H as (o & s2 & Ho & H). inversion H; subst.
  apply h5py_wrap_type_Ok in Ho as [-> Ho].
  unfold native in Hn. destruct (h5_lookup _ _ _) as [w [e|n']]; [discriminate|].
  injection Hn as <- <-. simpl. repeat split.
  destruct o as [ds|g|x]; simpl; auto.
Qed.

(** The state [__getstate__] returns for a group that has its root. *)
Lemma Group_getstate_rooted g r st :
  file_info g = Some r ->
  Group_getstate g st
  = Ok [("name", AData (PStr (h5_group_name (group_id g) (env st)))); ("file", AFile r)] st.
Proof. intros Hi. unfold Group_getstate. now rewrite Hi. Qed.

(** X14.  What a lookup on a [File] returns.  The lookup leaves the cache
    and the objects alone and opens nothing.  A group found carries the
    [File] as its root, so its [__getstate__] does not raise and returns the
    name of the group and that very [File], which is still an object of the
    heap.  A dataset found carries the native dataset that [__getstate__]
    deletes, so the proxy can be pickled. *)
Theorem File_getitem_result_has_root r name st obj st' :
  File_getitem r name st = Ok obj st' ->
  heap st' = heap st /\ cache st' = cache st /\ opens st' = opens st /\
  (forall g, obj = WGroup g ->
     file_info g = Some r /\
     (exists f, heap st' !! r = Some (OFile f)) /\
     Group_getstate g st'
     = Ok [("name", AData (PStr (h5_group_name (group_id g) (env st')))); ("file", AFile r)] st') /\
  (forall ds, obj = WDataset ds ->
     pickle_Dataset ds st'
     = Ok (PkNew "Dataset" [] []
                 [("file_name", PkData (PStr (file_name ds)));
                  ("file_mode", PkData (file_mode ds));
                  ("dataset_name", PkData (PStr (dataset_name ds)))]) st').
Proof.
  intros Hget.
  destruct (File_getitem_Ok _ _ _ _ _ Hget) as (f & Hr & Hheap & Hcache & Hopens & Hobj).
  repeat split; try assumption.
  - subst obj. exact Hobj.
  - exists f. now rewrite Hheap.
  - subst obj. now apply Group_getstate_rooted.
  - intros ds ->. destruct Hobj as [d Hd]. now apply pickle_Dataset_eq with (d := d).
Qed.

(** X15.  A lookup on a group hands the root on.  The lookup leaves the
    cache and the objects alone and opens nothing.  A group found below a
    group has the root of its parent, which therefore has one: finding a
    group below a group without a root raises [AttributeError].  So the
    [__getstate__] of the child names the same [File] as that of the
    parent.  A dataset found can be pickled. *)
Theorem Group_getitem_inherits_root g name st obj st' :
  Group_getitem g name st = Ok obj st' ->
  heap st' = heap st /\ cache st' = cache st /\ opens st' = opens st /\
  (forall g', obj = WGroup g' ->
     exists r, file_info g = Some r /\ file_info g' = Some r /\
       exists n n',
         Group_getstate g st' = Ok [("name", n); ("file", AFile r)] st' /\
         Group_getstate g' st' = Ok [("name", n'); ("file", AFile r)] st') /\
  (forall ds, obj = WDataset ds -> exists p, pickle_Dataset ds st' = Ok p st').
Proof.
  unfold Group_getitem. intros H.
  apply bind_Ok in H as (n & s1 & Hn & H).
  apply bind_Ok in H as (o & s2 & Ho & H).
  apply h5py_wrap_type_Ok in Ho as [-> Ho].
  unfold native in Hn. destruct (h5_lookup _ _ _) as [w [e|n']]; [discriminate|].
  injection Hn as <- <-.
  destruct o as [ds|g0|x].
  - inversion H; subst. simpl. repeat split; [discriminate|].
    intros ds' [= <-]. destruct Ho as [d Hd]. rewrite (pickle_Dataset_eq _ _ _ Hd). eauto.
  - destruct (file_info g) as [r|] eqn:Hi; [|discriminate].
    inversion H; subst. simpl. repeat split; [|discriminate].
    intros g' [= <-]. exists r. repeat split.
    eexists _, _. split; apply Group_getstate_rooted; [exact Hi|reflexivity].
  - inversion H; subst. simpl. repeat split; discriminate.
Qed.

Lemma Group_setstate_Ok file name st g st' :
  Group_setstate file name st = Ok g st' -> file_info g = None.
Proof.
  unfold Group_setstate. intros H.
  apply bind_Ok in H as (obj & s & _ & H).
  destruct obj as [ds|g0|[]]; try discriminate.
  - apply bind_Ok in H as (? & ? & _ & H). discriminate.
  - inversion H; subst. reflexivity.
Qed.

(** X16.  A group that comes out of a pickle has lost its root:
    [__setstate__] takes over the identifier of the group it finds and
    never sets [file_info].  So its [__getstate__] raises [AttributeError]
    and the group cannot be pickled again, whatever h5py does; and a lookup
    on it that finds a group raises [AttributeError], while a lookup that
    finds a dataset still returns the proxy. *)
Theorem unpickled_Group_has_no_root p st g st' :
  unpickle_Group p st = Ok g st' ->
  file_info g = None /\
  (forall s, Group_getstate g s = Raise AttributeError s) /\
  (forall s, exists e, pickle_Group g s = Raise e s) /\
  (forall name s w n,
     h5_lookup (group_id g) name (env s) = (w, inr n) ->
     match n with
     | NGroup _ | NFile _ => Group_getitem g name s = Raise AttributeError (set_env w s)
     | NDataset d => exists ds, Group_getitem g name s = Ok (WDataset ds) (set_env w s)
     | _ => Group_getitem g name s = Ok (WRaw n) (set_env w s)
     end).
Proof.
  intros H.
  assert (Hi : file_info g = None).
  { destruct p as [| | |c a k state]; try discriminate. simpl in H.
    destruct (state_get "name" state) as [[v| | |]|]; try discriminate.
    destruct v; try discriminate.
    destruct (state_get "file" state) as [[| | |]|]; try discriminate.
    apply bind_Ok in H as (file & s1 & _ & H).
    eapply Group_setstate_Ok, H. }
  assert (Hg : forall s, Group_getstate g s = Raise AttributeError s).
  { intros s. unfold Group_getstate. now rewrite Hi. }
  split; [exact Hi|]. split; [exact Hg|]. split.
  - intros s. unfold pickle_Group. destruct h5_getnewargs as [e|a]; [now exists e|].
    exists AttributeError. unfold bind. now rewrite Hg.
  - intros name s w n Hl. unfold Group_getitem, bind, native. rewrite Hl.
    destruct n; simpl; rewrite ?Hi; eauto.
Qed.

(** ** After [close] *)

(** X18.  A closed [File] is handed out again.  Once [close] has
    returned, the object is still bound to its key, so the next
    construction with a descriptor of that key returns the closed object
    itself: no native open, and the world as [close] left it. *)
Theorem closed_File_is_handed_out args kwargs r f h st st1 :
  module_inv st ->
  heap st !! r = Some (OFile f) -> hsh f = Some h ->
  assoc_get h (data (cache st)) = Some r ->
  File_key args kwargs = Some h ->
  truthy (skip_flag kwargs) = false ->
  File_close r st = Ok tt st1 ->
  exists st2,
    File_new args kwargs st1 = Ok r st2 /\
    heap st2 !! r = Some (OFile f) /\
    opens st2 = opens st /\
    h5_close (fid f) (env st) = (env st2, None).
Proof.
  intros Hinv Hr Hh Hc Hk Hs Hclose.
  rewrite (File_close_eq _ _ _ _ Hinv Hr Hh) in Hclose.
  destruct (h5_close (fid f) (env st)) as [w [e|]] eqn:Hcl; [discriminate|].
  injection Hclose as <-.
  eexists. split.
  - apply (File_new_hit_same args kwargs h r f); simpl; assumption.
  - simpl. auto.
Qed.

(** ** Access through a [Dataset] whose root is cached *)

Lemma Dataset_resolve_hit ds st h r f :
  File_key (root_args ds) (root_kwargs ds) = Some h ->
  assoc_get h (data (cache st)) = Some r ->
  heap st !! r = Some (OFile f) -> hsh f = Some h ->
  Dataset_resolve ds st = File_getitem r (dataset_name ds) (touched h st).
Proof.
  intros Hk Hc Hr Hh.
  destruct (root_kwargs_no_flag ds) as [Hflag Hkw].
  unfold Dataset_resolve.
  change [PStr (file_name ds)] with (root_args ds).
  change [("mode", file_mode ds)] with (root_kwargs ds).
  unfold bind at 1.
  assert (Hs : truthy (skip_flag (root_kwargs ds)) = false) by now rewrite Hflag.
  now rewrite (File_new_hit_same _ _ h r f st Hk Hs Hc Hr Hh).
Qed.

(** X19.  While the root of a [Dataset] is bound in the cache, every
    access goes to the cached handle and opens nothing, whether that
    handle is still open or not.  The path is looked up in it: if the
    lookup raises, for instance because the handle was closed, the access
    raises the same error; if it finds a dataset, the access returns what
    h5py returns for the dataset found; if it finds anything else, the
    access raises [AttributeError]. *)
Theorem Dataset_access_cached_root ds name item st h r f :
  File_key (root_args ds) (root_kwargs ds) = Some h ->
  assoc_get h (data (cache st)) = Some r ->
  heap st !! r = Some (OFile f) -> hsh f = Some h ->
  match h5_lookup (fid f) (dataset_name ds) (env st) with
  | (w, inl e) =>
      Dataset_getitem ds item st = Raise e (set_env w (touched h st)) /\
      Dataset_getattr ds name st = Raise e (set_env w (touched h st))
  | (w, inr (NDataset d)) =>
      Dataset_getitem ds item st
      = native (h5_dataset_getitem d item) (set_env w (touched h st)) /\
      Dataset_getattr ds name st
      = native (h5_dataset_getattr d name) (set_env w (touched h st))
  | (w, inr _) =>
      Dataset_getitem ds item st = Raise AttributeError (set_env w (touched h st)) /\
      Dataset_getattr ds name st = Raise AttributeError (set_env w (touched h st))
  end /\
  opens (touched h st) = opens st.
Proof.
  intros Hk Hc Hr Hh. split; [|reflexivity].
  pose proof (Dataset_resolve_hit ds st h r f Hk Hc Hr Hh) as Hres.
  unfold Dataset_getitem, Dataset_getattr, bind. rewrite Hres.
  unfold File_getitem. simpl. rewrite Hr. unfold bind, native. simpl.
  destruct (h5_lookup (fid f) (dataset_name ds) (env st)) as [w [e|[d|g|x|t|v]]];
    simpl; split; reflexivity.
Qed.

(** ** Constructions that return *)

(** Room for one more entry, seen from the world [w] the native open has
    left: either the cache is not full, and nothing happens; or it is full
    and the least recently used [File] closes natively without an error,
    which leaves the world [w']. *)
Definition makes_room (st : state) (w w' : world) : Prop :=
  ((length (data (cache st)) < maxsize (cache st))%nat /\ w' = w) \/
  (length (data (cache st)) = maxsize (cache st) /\
   exists k o v fv,
     order (cache st) = k :: o /\
     assoc_get k (data (cache st)) = Some v /\
     heap st !! v = Some (OFile fv) /\
     h5_close (fid fv) w = (w', None)).

(** A miss returns whenever the file opens and room can be made. *)
Lemma File_new_miss_returns args kwargs h st w n w' :
  module_inv st ->
  File_key args kwargs = Some h ->
  truthy (skip_flag kwargs) = false ->
  cache_contains h (cache st) = false ->
  h5_open args (open_kwargs kwargs) (env st) = (w, inr n) ->
  makes_room st w w' ->
  exists c,
    File_new args kwargs st
    = Ok (length (heap st))
         (mkState c (heap st ++ [new_file args kwargs h n]) w' (S (opens st))) /\
    assoc_get h (data c) = Some (length (heap st)).
Proof.
  intros Hinv Hk Hs Hc Hopen Hroom.
  assert (Hbound : forall c,
             File_new args kwargs st
             = Ok (length (heap st))
                  (mkState c (heap st ++ [new_file args kwargs h n]) w' (S (opens st))) ->
             assoc_get h (data c) = Some (length (heap st))).
  { intros c Hnew.
    destruct (File_new_cached_Ok _ _ _ _ _ Hs Hnew) as (h' & Hk' & Hget & _).
    rewrite Hk in Hk'. injection Hk' as <-. exact Hget. }
  destruct Hroom as [[Hlt ->]|(Hfull & k & o & v & fv & Horder & Hv & Hfv & Hclose)].
  - eexists. split; [|apply Hbound];
      apply (File_new_miss_room_eq _ _ _ _ _ _ Hk Hs Hc Hlt Hopen).
  - pose proof (File_new_miss_full_eq _ _ _ _ _ _ _ _ _ _ Hinv Hk Hs Hc Hfull Horder Hv
                  Hfv Hopen) as Hnew.
    rewrite Hclose in Hnew. cbv zeta in Hnew.
    eexists. split; [|apply Hbound]; exact Hnew.
Qed.

(** A construction through the cache returns whenever the key is bound
    or the file opens and room can be made; what it returns is a [File]
    bound to the key and carrying it. *)
Lemma File_new_cached_returns args kwargs h st w n w' :
  module_inv st ->
  File_key args kwargs = Some h ->
  truthy (skip_flag kwargs) = false ->
  h5_open args (open_kwargs kwargs) (env st) = (w, inr n) ->
  makes_room st w w' ->
  exists r st1 f,
    File_new args kwargs st = Ok r st1 /\
    heap st1 !! r = Some (OFile f) /\ hsh f = Some h /\
    assoc_get h (data (cache st1)) = Some r.
Proof.
  intros Hinv Hk Hs Hopen Hroom.
  assert (Hres : exists r st1, File_new args kwargs st = Ok r st1).
  { destruct (cache_contains h (cache st)) eqn:Hc.
    - unfold cache_contains in Hc.
      destruct (assoc_get h (data (cache st))) as [r|] eqn:Hr; [|discriminate].
      destruct (proj2 Hinv h r Hr) as (f & Hf & _).
      destruct (File_new_hit_Ok args kwargs h r st Hk Hs Hr) as (st1 & Hnew & _).
      + exists (OFile f). split; [exact Hf|discriminate].
      + eauto.
    - destruct (File_new_miss_returns _ _ _ _ _ _ _ Hinv Hk Hs Hc Hopen Hroom) as (c & Hnew & _).
      eauto. }
  destruct Hres as (r & st1 & Hnew). exists r, st1.
  destruct (File_new_cached_Ok _ _ _ _ _ Hs Hnew) as (h' & Hk' & Hget & _).
  rewrite Hk in Hk'. injection Hk' as <-.
  pose proof (module_inv_File_new args kwargs st Hinv) as Hinv1.
  rewrite Hnew in Hinv1. simpl in Hinv1.
  destruct (proj2 Hinv1 h r Hget) as (f & Hf & Hh).
  exists f. auto.
Qed.

(** C9.  [skip_cache] is popped before the key is computed and before the
    file is opened.  Take keyword arguments [k1 ++ k2] without the flag,
    whose key with [args] is [h], in a state of the module where the file
    opens and room can be made in the cache.  With [skip_cache=v] passed
    anywhere among them:
    - if [v] is true, the call returns a new [File] that is not cached,
      was opened with [k1 ++ k2], and carries the key [h];
    - if [v] is false in the sense of Python, the call returns a [File]
      that is bound to [h] in the cache and carries the key [h];
    - the call without the flag does the same, and is the same computation
      as the call with [skip_cache=False]; once it has returned, the call
      with [skip_cache=False] returns the same object and opens nothing. *)
Theorem skip_cache_not_in_key args k1 k2 h st w n w' :
  module_inv st ->
  dict_get "skip_cache" (k1 ++ k2) = None ->
  arghash args (k1 ++ k2) = Some h ->
  h5_open args (k1 ++ k2) (env st) = (w, inr n) ->
  makes_room st w w' ->
  (forall v, truthy v = true ->
     exists st',
       File_new args (k1 ++ ("skip_cache", v) :: k2) st = Ok (length (heap st)) st' /\
       heap st' !! length (heap st) = Some (OFile (mkFile args (k1 ++ k2) v (Some h) n)) /\
       cache st' = cache st) /\
  (forall v, truthy v = false ->
     exists r st1 f,
       File_new args (k1 ++ ("skip_cache", v) :: k2) st = Ok r st1 /\
       heap st1 !! r = Some (OFile f) /\ hsh f = Some h /\
       assoc_get h (data (cache st1)) = Some r) /\
  File_new args (k1 ++ ("skip_cache", PBool false) :: k2) st = File_new args (k1 ++ k2) st /\
  (exists r st1 f,
     File_new args (k1 ++ k2) st = Ok r st1 /\
     heap st1 !! r = Some (OFile f) /\ hsh f = Some h /\
     assoc_get h (data (cache st1)) = Some r /\
     exists st2,
       File_new args (k1 ++ ("skip_cache", PBool false) :: k2) st1 = Ok r st2 /\
       opens st2 = opens st1).
Proof.
  intros Hinv Habs Hh Hopen Hroom.
  destruct (skip_flag_absent _ Habs) as [Hf0 Ho0].
  assert (Hk0 : File_key args (k1 ++ k2) = Some h).
  { unfold File_key. now rewrite Ho0. }
  assert (Hmid : forall v,
             skip_flag (k1 ++ ("skip_cache", v) :: k2) = v /\
             open_kwargs (k1 ++ ("skip_cache", v) :: k2) = k1 ++ k2 /\
             File_key args (k1 ++ ("skip_cache", v) :: k2) = Some h).
  { intros v. destruct (skip_flag_middle k1 k2 v Habs) as [Hf Ho].
    repeat split; try assumption. unfold File_key. now rewrite Ho. }
  assert (Hsame : File_new args (k1 ++ ("skip_cache", PBool false) :: k2) st
                  = File_new args (k1 ++ k2) st)
    by apply (skip_cache_popped args k1 k2 (PBool false) st Habs).
  split; [|split; [|split; [exact Hsame|]]].
  - intros v Hv. destruct (Hmid v) as (Hf & Ho & Hk).
    rewrite (File_new_bypass _ _ h st Hk) by now rewrite Hf.
    rewrite Ho, Hopen. eexists. split; [reflexivity|]. simpl.
    rewrite lookup_app_r by lia. rewrite Nat.sub_diag. simpl.
    unfold new_file. rewrite Hf, Ho. auto.
  - intros v Hv. destruct (Hmid v) as (Hf & Ho & Hk).
    apply (File_new_cached_returns _ _ h st w n w'); try assumption.
    + now rewrite Hf.
    + now rewrite Ho.
  - destruct (File_new_cached_returns args (k1 ++ k2) h st w n w')
      as (r & st1 & f & Hnew & Hr & Hhsh & Hget); try assumption.
    + now rewrite Hf0.
    + now rewrite Ho0.
    + exists r, st1, f. repeat split; try assumption.
      destruct (Hmid (PBool false)) as (Hf & Ho & Hk).
      destruct (File_new_hit_Ok args (k1 ++ ("skip_cache", PBool false) :: k2) h r st1)
        as (st2 & Hnew2 & Hopens & _); try assumption.
      * now rewrite Hf.
      * exists (OFile f). split; [exact Hr|discriminate].
      * eauto.
Qed.


(** An empty cache of any capacity of at least one is a state of the
    module. *)
Lemma module_inv_empty m w n :
  (1 <= m)%nat -> module_inv (mkState (mkCache m [] []) [] w n).
Proof.
  intros Hm. split.
  - repeat split; simpl; try apply NoDup_nil_2; lia.
  - intros k r H. discriminate H.
Qed.

End More.

(** * The further properties at work *)

Module DemoMore.
Import Demo.

#[local] Existing Instance demo_rt.

Lemma inv_st0 : module_inv st0.
Proof. exact (module_inv_init (mkWorld 0 [])). Qed.

Lemma inv_st_a : module_inv st_a.
Proof. exact (module_inv_File_new a_h5 mode_r st0 inv_st0). Qed.

Lemma inv_small_b : module_inv small_b.
Proof.
  exact (module_inv_File_new b_h5 [] small0
           (module_inv_empty 1 (mkWorld 0 []) 0 (le_n 1))).
Qed.

(** After [File('a.h5', mode='r')], [File('bb.h5')] and the first once
    more: [bb.h5] is now the least recently used. *)
Definition st_aba : dstate := state_of (File_new a_h5 mode_r st_ab).

Lemma inv_st_aba : module_inv st_aba.
Proof.
  exact (module_inv_File_new a_h5 mode_r st_ab
           (module_inv_File_new bb_h5 [] st_a inv_st_a)).
Qed.

Definition file_b : FileObj := mkFile b_h5 [] (PBool false) (Some 10) 0.
Definition file_bb : FileObj := mkFile bb_h5 [] (PBool false) (Some 11) 1.

(** [LRUFileCache(2)] holding [a.h5] and [bb.h5]. *)
Definition small2_ab : dstate :=
  state_of (File_new bb_h5 [] (state_of (File_new a_h5 [] small2))).
Definition small2_aba : dstate := state_of (File_new a_h5 [] small2_ab).
Definition small2_abac : dstate := state_of (File_new c_h5 [] small2_aba).

Lemma inv_small2_ab : module_inv small2_ab.
Proof.
  exact (module_inv_File_new bb_h5 [] _
           (module_inv_File_new a_h5 [] small2
              (module_inv_empty 2 (mkWorld 0 []) 0 (le_S 1 1 (le_n 1))))).
Qed.

(** *** C2 *)



(** *** C9 *)

Definition file_a_bypass : FileObj := mkFile a_h5 mode_r (PBool true) (Some 21) 0.

(** [File('a.h5', mode='r')] with [skip_cache=True], with
    [skip_cache=False] and without the flag, from the module as imported:
    each returns a [File] whose key is 21, the key of the call without the
    flag; only the first is not cached. *)
Lemma skip_cache_not_in_key_witness :
  (exists st',
     File_new a_h5 (("skip_cache", PBool true) :: mode_r) st0 = Ok 0%nat st' /\
     heap st' !! 0%nat = Some (OFile file_a_bypass) /\
     cache st' = cache st0) /\
  File_new a_h5 (("skip_cache", PBool false) :: mode_r) st0 = File_new a_h5 mode_r st0 /\
  (exists r st1 f,
     File_new a_h5 mode_r st0 = Ok r st1 /\
     heap st1 !! r = Some (OFile f) /\ hsh f = Some 21 /\
     assoc_get 21 (data (cache st1)) = Some r /\
     exists st2,
       File_new a_h5 (("skip_cache", PBool false) :: mode_r) st1 = Ok r st2 /\
       opens st2 = opens st1).
Proof.
  destruct (skip_cache_not_in_key a_h5 [] mode_r 21 st0 (mkWorld 1 []) 0%nat (mkWorld 1 [])
              inv_st0 eq_refl eq_refl eq_refl)
    as (Hby & _ & Hsame & Hcached).
  - left. split; [vm_compute; lia|reflexivity].
  - split; [exact (Hby (PBool true) eq_refl)|]. split; [exact Hsame|exact Hcached].
Defined.

(** *** X1 *)

(** A construction that evicts. *)
Lemma File_new_keeps_invariant_witness :
  module_inv (state_of (File_new a_h5 mode_r small_b)) /\
  (length (data (cache (state_of (File_new a_h5 mode_r small_b))))
   <= maxsize (cache (state_of (File_new a_h5 mode_r small_b))))%nat.
Proof.
  apply (proj1 (File_new_keeps_invariant a_h5 mode_r small_b inv_small_b) 1%nat).
  reflexivity.
Defined.

(** *** X2 *)

Lemma File_close_keeps_invariant_witness : module_inv st_closed.
Proof.
  apply (proj1 (File_close_keeps_invariant 0%nat st_a inv_st_a) tt). reflexivity.
Defined.

(** *** X3 *)

(** Closing [bb.h5], the least recently used of the two, makes [a.h5] the
    least recently used. *)
Lemma File_close_resets_recency_witness :
  order (cache st_aba) = [11; 21] /\
  order (cache (state_of (File_close 1%nat st_aba))) = [21; 11] /\
  data (cache (state_of (File_close 1%nat st_aba))) = [(21, 0%nat); (11, 1%nat)].
Proof.
  destruct (File_close_resets_recency 1%nat file_bb 11 st_aba
              (state_of (File_close 1%nat st_aba)) inv_st_aba eq_refl eq_refl eq_refl)
    as (_ & _ & Hd & Ho).
  split; [reflexivity|]. split; [rewrite Ho|rewrite Hd]; reflexivity.
Defined.

(** *** X4 *)

Definition no_path : list pyval := [PStr EmptyString].

Lemma File_new_open_fails_witness :
  exists st',
    File_new no_path [] st_a = Raise OSError st' /\
    cache st' = cache st_a /\ heap st' = heap st_a /\
    env st' = env st_a /\ opens st' = 2%nat.
Proof.
  apply (File_new_open_fails no_path [] 6 st_a (env st_a) OSError); reflexivity.
Defined.

(** *** X5 *)

Lemma File_new_evicts_lru_witness :
  exists st',
    File_new a_h5 mode_r small_b = Ok 1%nat st' /\
    data (cache st') = [(21, 1%nat)] /\
    order (cache st') = [21] /\
    length (data (cache st')) = 1%nat /\
    env st' = mkWorld 2 [0%nat] /\ opens st' = 2%nat.
Proof.
  apply (File_new_evicts_lru a_h5 mode_r 21 small_b 10 [] 0%nat file_b
           (mkWorld 2 []) 1%nat (mkWorld 2 [0%nat]) inv_small_b); reflexivity.
Defined.

(** *** X6 *)

Lemma File_new_raises_only_witness :
  exists w, h5_open no_path [] (env st_a) = (w, inl OSError).
Proof.
  destruct (File_new_raises_only no_path [] st_a OSError
              (state_of (File_new no_path [] st_a)) inv_st_a eq_refl)
    as [(H & _)|[(w & H & _)|(k & o & v & fv & w & n & w' & _ & _ & _ & H & _)]].
  - discriminate H.
  - exists w. exact H.
  - discriminate H.
Defined.

(** *** X7 *)

(** Both files are cached and the cache is full; [a.h5] is used, then
    [ccc.h5] is opened: [bb.h5] goes, [a.h5] stays. *)
Lemma just_used_handle_survives_witness :
  (exists h, File_key a_h5 [] = Some h /\
             assoc_get h (data (cache small2_abac)) = Some 0%nat) /\
  data (cache small2_abac) = [(10, 0%nat); (12, 2%nat)].
Proof.
  split; [|reflexivity].
  apply (just_used_handle_survives a_h5 [] small2_ab 0%nat small2_aba
           c_h5 [] 2%nat small2_abac inv_small2_ab); reflexivity.
Defined.

(** *** X9 *)

Definition mode_driver : pydict := [("mode", PStr "r"); ("driver", PStr "core")].
Definition driver_mode : pydict := [("driver", PStr "core"); ("mode", PStr "r")].

Lemma kwargs_order_irrelevant_witness :
  arghash a_h5 mode_driver = arghash a_h5 driver_mode /\
  exists st2,
    File_new a_h5 driver_mode (state_of (File_new a_h5 mode_driver st0)) = Ok 0%nat st2 /\
    opens st2 = 1%nat.
Proof.
  destruct (kwargs_order_irrelevant a_h5 mode_driver driver_mode st0 0%nat
              (state_of (File_new a_h5 mode_driver st0)))
    as [Hk Hnew].
  - apply perm_swap.
  - apply (bool_decide_unpack _). vm_compute. exact I.
  - reflexivity.
  - split; [exact Hk|]. apply Hnew. reflexivity.
Defined.

(** *** X10 *)

Lemma mode_spelling_changes_text_witness :
  exists t1 t2,
    arghash_text [PStr "a.h5"; PStr "r"] [] = Some t1 /\
    arghash_text [PStr "a.h5"] [("mode", PStr "r")] = Some t2 /\
    t1 <> t2.
Proof.
  apply (mode_spelling_changes_text "a.h5" (PStr "r")). reflexivity.
Defined.

(** *** X11 *)

Definition file_bypass : FileObj := mkFile a_h5 mode_r (PBool true) (Some 21) 1.

Lemma unpickle_bypassed_File_witness :
  unpickle_File (pickle_File file_bypass) st_a
  = Ok 1%nat (mkState (cache st_a) (heap st_a ++ [OFile file_bypass]) (mkWorld 2 []) 2).
Proof.
  rewrite (unpickle_bypassed_File file_bypass 21 st_a eq_refl eq_refl eq_refl).
  reflexivity.
Defined.

(** *** X12 *)

Definition stale_pickle : pickled :=
  PkNew "Dataset" [] []
        [("file_name", PkData (PStr "a.h5")); ("file_mode", PkData (PStr "r"));
         ("dataset_name", PkData (PStr "data"))].

Definition unpickled : Dataset := mkDataset "a.h5" (PStr "r") "data" None.

Lemma Dataset_pickle_roundtrip_witness :
  unpickle_Dataset stale_pickle st_a = Ok unpickled st_a /\
  Dataset_getitem unpickled (PInt 0) = Dataset_getitem stale (PInt 0) /\
  pickle_Dataset unpickled st_a = Raise KeyError st_a.
Proof.
  destruct (Dataset_pickle_roundtrip stale st_a stale_pickle st_a unpickled st_a
              eq_refl eq_refl)
    as (_ & _ & Hi & _ & Hp).
  split; [reflexivity|]. split; [apply Hi|apply Hp].
Defined.

(** *** X13 *)

Lemma unpickle_File_is_the_call_witness :
  exists f, heap st_a !! 0%nat = Some (OFile f) /\
            unpickle_File (pickle_File f) small_b = File_new a_h5 mode_r small_b.
Proof.
  destruct (unpickle_File_is_the_call a_h5 mode_r 21 st0 0%nat st_a) as (f & Hf & H);
    try reflexivity.
  - apply (bool_decide_unpack _). vm_compute. exact I.
  - exists f. split; [exact Hf|apply H].
Defined.

(** *** X14 *)

Definition grp_a : Group := mkGroup 0 (Some 0%nat).

Lemma File_getitem_result_has_root_witness :
  File_getitem 0%nat "grp" st_a = Ok (WGroup grp_a) st_a /\
  file_info grp_a = Some 0%nat /\
  (exists f, heap st_a !! 0%nat = Some (OFile f)) /\
  Group_getstate grp_a st_a = Ok [("name", AData (PStr "grp")); ("file", AFile 0%nat)] st_a.
Proof.
  split; [reflexivity|].
  destruct (File_getitem_result_has_root 0%nat "grp" st_a (WGroup grp_a) st_a eq_refl)
    as (_ & _ & _ & Hg & _).
  exact (Hg grp_a eq_refl).
Defined.

(** *** X15 *)

Lemma Group_getitem_inherits_root_witness :
  Group_getitem grp_a "grp" st_a = Ok (WGroup grp_a) st_a /\
  exists r, file_info grp_a = Some r /\
    exists n, Group_getstate grp_a st_a = Ok [("name", n); ("file", AFile r)] st_a.
Proof.
  split; [reflexivity|].
  destruct (Group_getitem_inherits_root grp_a "grp" st_a (WGroup grp_a) st_a eq_refl)
    as (_ & _ & _ & Hg & _).
  destruct (Hg grp_a eq_refl) as (r & _ & Hr' & n & n' & _ & Hn').
  exists r. split; [exact Hr'|]. exists n'. exact Hn'.
Defined.

(** *** X16 *)

Definition grp_pickle : pickled :=
  PkNew "Group" [] []
        [("name", PkData (PStr "grp"));
         ("file", PkNew "File" a_h5 [("mode", PStr "r"); ("skip_cache", PBool false)] [])].

Lemma unpickled_Group_has_no_root_witness :
  unpickle_Group grp_pickle st_a = Ok (mkGroup 0 None) st_a /\
  Group_getstate (mkGroup 0 None) st_a = Raise AttributeError st_a /\
  (exists e, pickle_Group (mkGroup 0 None) st_a = Raise e st_a) /\
  Group_getitem (mkGroup 0 None) "grp" st_a = Raise AttributeError st_a.
Proof.
  destruct (unpickled_Group_has_no_root grp_pickle st_a (mkGroup 0 None) st_a eq_refl)
    as (_ & Hs & Hp & Hg).
  split; [reflexivity|]. split; [apply Hs|]. split; [apply Hp|].
  exact (Hg "grp" st_a (env st_a) (NGroup 0) eq_refl).
Defined.

(** *** X18 *)

Lemma closed_File_is_handed_out_witness :
  exists st2,
    File_new a_h5 mode_r st_closed = Ok 0%nat st2 /\
    heap st2 !! 0%nat = Some (OFile file_a) /\
    opens st2 = opens st_a /\
    h5_close (fid file_a) (env st_a) = (env st2, None).
Proof.
  apply (closed_File_is_handed_out a_h5 mode_r 0%nat file_a 21 st_a st_closed inv_st_a);
    reflexivity.
Defined.

(** *** X19 *)

(** The root of [stale] has been closed and is still cached: the access
    goes to the closed handle and fails there. *)
Lemma Dataset_access_cached_root_witness :
  Dataset_getitem stale (PInt 0) st_closed
  = Raise ValueError (set_env (env st_closed) (touched 21 st_closed)) /\
  Dataset_getattr stale "shape" st_closed
  = Raise ValueError (set_env (env st_closed) (touched 21 st_closed)).
Proof.
  exact (proj1 (Dataset_access_cached_root stale "shape" (PInt 0) st_closed 21 0%nat file_a
                  eq_refl eq_refl eq_refl eq_refl)).
Defined.

End DemoMore.
